(** * SoccerGame: the player process (semSharedMemPlayer.c)

    A shallow embedding of the player's operations [arrive],
    [playerConstituteTeam], [waitReferee] and [playUntilEnd] and of the
    life cycle that [main] runs, as a transition function over program
    points, followed by the properties of the team-formation protocol.

    Program points are named after the source line of the statement they
    execute ([L177] is the [semDown] of line 177).  Shared counters are C
    [int]s; they are modelled in [Z], and a result about a state that could
    reach the limits of an [int] bounds the counter by a hypothesis. *)

From Stdlib Require Import ZArith Lia List Bool String Ascii.
From stdpp Require Import base tactics option list numbers strings sets.

Local Open Scope Z_scope.

(** ** Problem constants and data types *)

(** The constants of probConst.h, which is not among the sources: every
    general result below holds for all their values. *)
Class ProbConst := {
  NUMPLAYERS : Z;
  NUMTEAMPLAYERS : Z
}.

(** Modelled from the spec: the player states of probConst.h, as listed for
    playerStatus in the data model. *)
Inductive PlayerState :=
| ARRIVING | WAITING_TEAMS | FORMING_TEAM
| WAITING_START_1 | WAITING_START_2
| PLAYING_1 | PLAYING_2 | LATE.

(** Modelled from the spec: the goalie states mirror the player states. *)
Inductive GoalieState :=
| G_ARRIVING | G_WAITING_TEAMS | G_LATE.

#[global] Instance PlayerState_eq_dec : EqDecision PlayerState.
Proof. solve_decision. Defined.

(** The part of FULL_STAT (probDataStruct.h) that the player reads and
    writes: [sh->fSt.st.playerStat], [sh->fSt.playersArrived],
    [sh->fSt.playersFree], [sh->fSt.goaliesFree], [sh->fSt.teamId];
    [goalieStat] is the goalies' status array. *)
Record FULL_STAT := mkFullStat {
  playerStat : list PlayerState;
  goalieStat : list GoalieState;
  playersArrived : Z;
  playersFree : Z;
  goaliesFree : Z;
  teamId : Z
}.

(** The semaphores of the set [semgid], named as the fields of SHARED_DATA
    that hold their indices. *)
Inductive Sem :=
| mutex | playersWaitTeam | goaliesWaitTeam | playerRegistered
| refereeWaitTeams | playersWaitReferee | playing | playersWaitEnd.

#[global] Instance Sem_eq_dec : EqDecision Sem.
Proof. solve_decision. Defined.

(** The value of every semaphore of the set. *)
Record SemSet := mkSemSet {
  v_mutex : nat;
  v_playersWaitTeam : nat;
  v_goaliesWaitTeam : nat;
  v_playerRegistered : nat;
  v_refereeWaitTeams : nat;
  v_playersWaitReferee : nat;
  v_playing : nat;
  v_playersWaitEnd : nat
}.

Definition semval (s : Sem) (S : SemSet) : nat :=
  match s with
  | mutex => v_mutex S
  | playersWaitTeam => v_playersWaitTeam S
  | goaliesWaitTeam => v_goaliesWaitTeam S
  | playerRegistered => v_playerRegistered S
  | refereeWaitTeams => v_refereeWaitTeams S
  | playersWaitReferee => v_playersWaitReferee S
  | playing => v_playing S
  | playersWaitEnd => v_playersWaitEnd S
  end.

Definition semset (s : Sem) (n : nat) (S : SemSet) : SemSet :=
  match s with
  | mutex => mkSemSet n (v_playersWaitTeam S) (v_goaliesWaitTeam S) (v_playerRegistered S) (v_refereeWaitTeams S) (v_playersWaitReferee S) (v_playing S) (v_playersWaitEnd S)
  | playersWaitTeam => mkSemSet (v_mutex S) n (v_goaliesWaitTeam S) (v_playerRegistered S) (v_refereeWaitTeams S) (v_playersWaitReferee S) (v_playing S) (v_playersWaitEnd S)
  | goaliesWaitTeam => mkSemSet (v_mutex S) (v_playersWaitTeam S) n (v_playerRegistered S) (v_refereeWaitTeams S) (v_playersWaitReferee S) (v_playing S) (v_playersWaitEnd S)
  | playerRegistered => mkSemSet (v_mutex S) (v_playersWaitTeam S) (v_goaliesWaitTeam S) n (v_refereeWaitTeams S) (v_playersWaitReferee S) (v_playing S) (v_playersWaitEnd S)
  | refereeWaitTeams => mkSemSet (v_mutex S) (v_playersWaitTeam S) (v_goaliesWaitTeam S) (v_playerRegistered S) n (v_playersWaitReferee S) (v_playing S) (v_playersWaitEnd S)
  | playersWaitReferee => mkSemSet (v_mutex S) (v_playersWaitTeam S) (v_goaliesWaitTeam S) (v_playerRegistered S) (v_refereeWaitTeams S) n (v_playing S) (v_playersWaitEnd S)
  | playing => mkSemSet (v_mutex S) (v_playersWaitTeam S) (v_goaliesWaitTeam S) (v_playerRegistered S) (v_refereeWaitTeams S) (v_playersWaitReferee S) n (v_playersWaitEnd S)
  | playersWaitEnd => mkSemSet (v_mutex S) (v_playersWaitTeam S) (v_goaliesWaitTeam S) (v_playerRegistered S) (v_refereeWaitTeams S) (v_playersWaitReferee S) (v_playing S) n
  end.

(** What the processes share: the record [sh->fSt] in the shared memory
    region and the semaphore set [semgid]. *)
Record Mem := mkMem {
  fSt : FULL_STAT;
  semgid : SemSet
}.

Definition with_fSt (f : FULL_STAT -> FULL_STAT) (m : Mem) : Mem :=
  mkMem (f (fSt m)) (semgid m).

Definition set_playerStat (l : list PlayerState) (s : FULL_STAT) : FULL_STAT :=
  mkFullStat l (goalieStat s) (playersArrived s) (playersFree s) (goaliesFree s) (teamId s).
Definition set_goalieStat (l : list GoalieState) (s : FULL_STAT) : FULL_STAT :=
  mkFullStat (playerStat s) l (playersArrived s) (playersFree s) (goaliesFree s) (teamId s).
Definition set_playersArrived (v : Z) (s : FULL_STAT) : FULL_STAT :=
  mkFullStat (playerStat s) (goalieStat s) v (playersFree s) (goaliesFree s) (teamId s).
Definition set_playersFree (v : Z) (s : FULL_STAT) : FULL_STAT :=
  mkFullStat (playerStat s) (goalieStat s) (playersArrived s) v (goaliesFree s) (teamId s).
Definition set_goaliesFree (v : Z) (s : FULL_STAT) : FULL_STAT :=
  mkFullStat (playerStat s) (goalieStat s) (playersArrived s) (playersFree s) v (teamId s).
Definition set_teamId (v : Z) (s : FULL_STAT) : FULL_STAT :=
  mkFullStat (playerStat s) (goalieStat s) (playersArrived s) (playersFree s) (goaliesFree s) v.

(** ** Program points, local variables and events *)

(** One program point per statement of the life cycle, named by its line. *)
Inductive PC :=
(* arrive, lines 140-156 *)
| L142 | L147 | L148 | L150 | L155
(* playerConstituteTeam, lines 173-253 *)
| L175 | L177 | L181 | L182 | L183 | L184
| L186 | L187 | L188 | L189 | L190 | L191
| L193 | L197 | L201 | L202 | L203 | L207 | L212 | L213
| L217 | L218 | L219 | L220
| L223 | L227 | L231 | L237 | L242 | L243 | L249 | L252
(* main, line 119: team = playerConstituteTeam(n), tested against 0 *)
| L119
(* waitReferee, lines 264-284 *)
| L266 | L271 | L272 | L274 | L279
(* playUntilEnd, lines 295-320 *)
| L297 | L302 | L303 | L305 | L310 | L315
(* main, line 125: shmemDettach, then the process ends *)
| L125
| Exited (code : Z).

#[global] Instance PC_eq_dec : EqDecision PC.
Proof. solve_decision. Defined.

Definition EXIT_SUCCESS : Z := 0.
Definition EXIT_FAILURE : Z := 1.

(** The local variables: [ret], [count] and [player_type] of
    playerConstituteTeam, [team] of main. *)
Record Config := mkConfig {
  pc : PC;
  ret : Z;
  count : Z;
  player_type : Z;
  team : Z
}.

Definition goto (l : PC) (c : Config) : Config :=
  mkConfig l (ret c) (count c) (player_type c) (team c).
Definition set_ret (v : Z) (c : Config) : Config :=
  mkConfig (pc c) v (count c) (player_type c) (team c).
Definition set_count (v : Z) (c : Config) : Config :=
  mkConfig (pc c) (ret c) v (player_type c) (team c).
Definition set_player_type (v : Z) (c : Config) : Config :=
  mkConfig (pc c) (ret c) (count c) v (team c).
Definition set_team (v : Z) (c : Config) : Config :=
  mkConfig (pc c) (ret c) (count c) (player_type c) v.

(** The fields of [sh->fSt] a statement can touch. *)
Inductive Loc :=
| LplayersArrived | LplayersFree | LgoaliesFree | LteamId
| LplayerStat (id : Z).

(** What one statement does that another process, or the outside, can see. *)
Inductive Event :=
| EvDown (s : Sem)                 (* semDown came back with 0 *)
| EvUp (s : Sem)                   (* semUp came back with 0 *)
| EvSemError (s : Sem)             (* semDown or semUp came back with -1 *)
| EvRead (l : Loc) (v : Z)         (* a read of a counter of sh->fSt *)
| EvWrite (l : Loc) (v : Z)        (* a write of a counter of sh->fSt *)
| EvStat (id : Z) (st : PlayerState)  (* sh->fSt.st.playerStat[id] = st *)
| EvGoalieStat (id : Z) (st : GoalieState)  (* a goalie's store into goalieStat *)
| EvSave (snapshot : FULL_STAT)    (* saveState (nFic, &sh->fSt) *)
| EvPerror
| EvExit (code : Z)
| EvUsleep
| EvReturn (v : Z)                 (* return ret, line 252 *)
| EvDettach.

(** The result of asking a process for its next statement. *)
Inductive Outcome :=
| Next (evs : list Event) (c : Config) (m : Mem)
| Blocked          (* semDown on a semaphore whose value is 0 *)
| Halted           (* the process has ended *)
| Undefined.       (* playerStat indexed outside the array *)

(** ** The range of an [int]

    The counters of the record and the locals are C [int]s.  The statements
    compute in [Z]: they agree with the code as long as no [++] or [--]
    leaves the range of an [int], and a result about a state that could
    reach its limits says so in a hypothesis. *)
Definition INT_MAX : Z := 2 ^ 31 - 1.
Definition INT_MIN : Z := - 2 ^ 31.

(** ** The statements *)

(** [semDown (semgid, s)]: with [ok] the call succeeds, taking one unit of
    the semaphore or blocking while there is none; without, it returns -1
    and the caller reports the error and exits. *)
Definition semDown (s : Sem) (ok : bool) (next : PC) (c : Config) (m : Mem) : Outcome :=
  if ok then
    match semval s (semgid m) with
    | O => Blocked
    | S n => Next [EvDown s] (goto next c) (mkMem (fSt m) (semset s n (semgid m)))
    end
  else Next [EvSemError s; EvPerror; EvExit EXIT_FAILURE] (goto (Exited EXIT_FAILURE) c) m.

(** [semUp (semgid, s)]. *)
Definition semUp (s : Sem) (ok : bool) (next : PC) (c : Config) (m : Mem) : Outcome :=
  if ok then
    Next [EvUp s] (goto next c) (mkMem (fSt m) (semset s (S (semval s (semgid m))) (semgid m)))
  else Next [EvSemError s; EvPerror; EvExit EXIT_FAILURE] (goto (Exited EXIT_FAILURE) c) m.

Definition in_bounds {A} (id : Z) (l : list A) : bool :=
  (0 <=? id) && (id <? Z.of_nat (length l)).

(** [sh->fSt.st.playerStat[id] = st]: a C array store, undefined outside
    the array. *)
Definition setStat (id : Z) (st : PlayerState) (next : PC) (c : Config) (m : Mem) : Outcome :=
  if in_bounds id (playerStat (fSt m)) then
    Next [EvStat id st] (goto next c)
         (with_fSt (set_playerStat (<[Z.to_nat id := st]> (playerStat (fSt m)))) m)
  else Undefined.

(** [saveState (nFic, &sh->fSt)]: the trace recorder is handed the record
    as it stands. *)
Definition saveState (next : PC) (c : Config) (m : Mem) : Outcome :=
  Next [EvSave (fSt m)] (goto next c) m.

(** The [switch (player_type)] of line 227: the statement control goes to. *)
Definition switch_target (player_type : Z) : PC :=
  match player_type with
  | 0 => L252       (* case 0: break *)
  | 1 => L231       (* case 1: semUp refereeWaitTeams *)
  | 2 => L237       (* case 2: semDown playersWaitTeam *)
  | _ => L249       (* default: perror *)
  end.

Section Player.
Context {PCst : ProbConst}.

(** The statement at the program point of [c], run by the player [id] on
    the memory [m]; [ok] tells whether the system call of that statement, if
    it has one, succeeds.  The counters and [count] are computed in [Z]
    (see the range of an [int] above). *)
Definition pstep (id : Z) (ok : bool) (c : Config) (m : Mem) : Outcome :=
  match pc c with
  (* arrive *)
  | L142 => semDown mutex ok L147 c m
  | L147 => setStat id ARRIVING L148 c m
  | L148 => saveState L150 c m
  | L150 => semUp mutex ok L155 c m
  | L155 => Next [EvUsleep] (goto L175 c) m
  (* playerConstituteTeam *)
  | L175 => Next [] (goto L177 (set_ret 0 c)) m
  | L177 => semDown mutex ok L181 c m
  | L181 => Next [] (goto L182 (set_player_type 0 c)) m
  | L182 =>
      let v := playersArrived (fSt m) + 1 in
      Next [EvRead LplayersArrived (playersArrived (fSt m)); EvWrite LplayersArrived v]
           (goto (if 8 <? v then L183 else L186) c)
           (with_fSt (set_playersArrived v) m)
  | L183 => setStat id LATE L184 c m
  | L184 => saveState L223 c m
  | L186 =>
      if 3 <=? playersFree (fSt m) then
        Next [EvRead LplayersFree (playersFree (fSt m)); EvRead LgoaliesFree (goaliesFree (fSt m))]
             (goto (if goaliesFree (fSt m) =? 0 then L217 else L187) c) m
      else Next [EvRead LplayersFree (playersFree (fSt m))] (goto L217 c) m
  | L187 =>
      Next [EvRead LplayersFree (playersFree (fSt m)); EvWrite LplayersFree (playersFree (fSt m) - 3)]
           (goto L188 c) (with_fSt (set_playersFree (playersFree (fSt m) - 3)) m)
  | L188 =>
      Next [EvRead LgoaliesFree (goaliesFree (fSt m)); EvWrite LgoaliesFree (goaliesFree (fSt m) - 1)]
           (goto L189 c) (with_fSt (set_goaliesFree (goaliesFree (fSt m) - 1)) m)
  | L189 => setStat id FORMING_TEAM L190 c m
  | L190 => saveState L191 c m
  | L191 => Next [] (goto L193 (set_count 0 c)) m
  | L193 => semUp playersWaitTeam ok L197 c m
  | L197 => semDown playerRegistered ok L201 c m
  | L201 => Next [] (goto L202 (set_count (count c + 1) c)) m
  | L202 => Next [] (goto (if count c =? NUMTEAMPLAYERS - 1 then L203 else L193) c) m
  | L203 => semUp goaliesWaitTeam ok L207 c m
  | L207 => semDown playerRegistered ok L212 c m
  | L212 =>
      Next [EvRead LteamId (teamId (fSt m)); EvWrite LteamId (teamId (fSt m) + 1)]
           (goto L213 (set_ret (teamId (fSt m)) c))
           (with_fSt (set_teamId (teamId (fSt m) + 1)) m)
  | L213 => Next [] (goto L223 (set_player_type 1 c)) m
  | L217 =>
      Next [EvRead LplayersFree (playersFree (fSt m)); EvWrite LplayersFree (playersFree (fSt m) + 1)]
           (goto L218 c) (with_fSt (set_playersFree (playersFree (fSt m) + 1)) m)
  | L218 => setStat id WAITING_TEAMS L219 c m
  | L219 => saveState L220 c m
  | L220 => Next [] (goto L223 (set_player_type 2 c)) m
  | L223 => semUp mutex ok L227 c m
  | L227 => Next [] (goto (switch_target (player_type c)) c) m
  | L231 => semUp refereeWaitTeams ok L252 c m
  | L237 => semDown playersWaitTeam ok L242 c m
  | L242 => Next [EvRead LteamId (teamId (fSt m))] (goto L243 (set_ret (teamId (fSt m)) c)) m
  | L243 => semUp playerRegistered ok L252 c m
  | L249 => Next [EvPerror] (goto L252 c) m
  | L252 => Next [EvReturn (ret c)] (goto L119 c) m
  (* main: if ((team = playerConstituteTeam (n)) != 0) *)
  | L119 => Next [] (goto (if ret c =? 0 then L125 else L266) (set_team (ret c) c)) m
  (* waitReferee *)
  | L266 => semDown mutex ok L271 c m
  | L271 => setStat id (if team c =? 1 then WAITING_START_1 else WAITING_START_2) L272 c m
  | L272 => saveState L274 c m
  | L274 => semUp mutex ok L279 c m
  | L279 => semDown playersWaitReferee ok L297 c m
  (* playUntilEnd *)
  | L297 => semDown mutex ok L302 c m
  | L302 => setStat id (if team c =? 1 then PLAYING_1 else PLAYING_2) L303 c m
  | L303 => saveState L305 c m
  | L305 => semUp playing ok L310 c m
  | L310 => semUp mutex ok L315 c m
  | L315 => semDown playersWaitEnd ok L125 c m
  (* main: shmemDettach (sh), then return *)
  | L125 =>
      if ok then Next [EvDettach; EvExit EXIT_SUCCESS] (goto (Exited EXIT_SUCCESS) c) m
      else Next [EvPerror; EvExit EXIT_FAILURE] (goto (Exited EXIT_FAILURE) c) m
  | Exited _ => Halted
  end.

(** The player running alone, every system call succeeding, for at most
    [fuel] statements or until it blocks or ends: the events of each
    statement, the locals and the memory it leaves. *)
Fixpoint run (fuel : nat) (id : Z) (c : Config) (m : Mem) : list (list Event) * Config * Mem :=
  match fuel with
  | O => ([], c, m)
  | S fuel' =>
      match pstep id true c m with
      | Next evs c' m' =>
          let '(tr, c'', m'') := run fuel' id c' m' in (evs :: tr, c'', m'')
      | _ => ([], c, m)
      end
  end.

(** The locals of a process about to call [arrive]. *)
Definition start : Config := mkConfig L142 0 0 0 0.

(** ** One player under arbitrary interference

    [ptrace id tr c]: the player [id] can have executed the statements
    whose events are [tr], oldest first, and stand at [c]; before each
    statement the memory may be anything at all, so every behaviour of the
    player in any environment is covered. *)
Inductive ptrace (id : Z) : list (list Event) -> Config -> Prop :=
| ptrace_start : ptrace id [] start
| ptrace_step tr c ok m evs c' m' :
    ptrace id tr c ->
    pstep id ok c m = Next evs c' m' ->
    ptrace id (tr ++ [evs]) c'.

End Player.

(** Whether the process holds the mutex after an event, given whether it
    held it before. *)
Definition lock_after (held : bool) (e : Event) : bool :=
  match e with
  | EvDown mutex => true
  | EvUp mutex => false
  | _ => held
  end.

Definition holding_from (held : bool) (evs : list Event) : bool :=
  fold_left lock_after evs held.

(** Whether the process holds the mutex after the events [evs] of its life. *)
Definition holding (evs : list Event) : bool := holding_from false evs.

(** The waits on rendezvous channels (every semaphore but the mutex) among
    [evs], each with whether the mutex was held when it was made. *)
Fixpoint waits_from (held : bool) (evs : list Event) : list (bool * Sem) :=
  match evs with
  | [] => []
  | e :: evs' =>
      match e with
      | EvDown s => if decide (s = mutex) then [] else [(held, s)]
      | _ => []
      end ++ waits_from (lock_after held e) evs'
  end.

Definition waits (evs : list Event) : list (bool * Sem) := waits_from false evs.

(** Reads and writes of [sh->fSt]: counters, status array, and the whole
    record handed to saveState. *)
Definition is_access (e : Event) : bool :=
  match e with
  | EvRead _ _ | EvWrite _ _ | EvStat _ _ | EvGoalieStat _ _ | EvSave _ => true
  | _ => false
  end.

(** The accesses to [sh->fSt] among [evs], each with whether the mutex was
    held when it was made. *)
Fixpoint accesses_from (held : bool) (evs : list Event) : list (bool * Event) :=
  match evs with
  | [] => []
  | e :: evs' =>
      (if is_access e then [(held, e)] else []) ++ accesses_from (lock_after held e) evs'
  end.

Definition accesses (evs : list Event) : list (bool * Event) := accesses_from false evs.

(** The statements between a semDown and the semUp of the mutex: the
    critical regions of the four operations. *)
Definition critical (l : PC) : bool :=
  match l with
  | L147 | L148 | L150
  | L181 | L182 | L183 | L184 | L186 | L187 | L188 | L189 | L190 | L191
  | L193 | L197 | L201 | L202 | L203 | L207 | L212 | L213
  | L217 | L218 | L219 | L220 | L223
  | L271 | L272 | L274
  | L302 | L303 | L305 | L310 => true
  | _ => false
  end.

(** The statements of waitReferee and playUntilEnd. *)
Definition in_match (l : PC) : bool :=
  match l with
  | L266 | L271 | L272 | L274 | L279
  | L297 | L302 | L303 | L305 | L310 | L315 => true
  | _ => false
  end.

(** The rendezvous channels (every semaphore but the mutex) that the events
    [evs] signal or wait on. *)
Definition rendezvous_ops (evs : list Event) : list Sem :=
  omap (fun e => match e with
                 | EvDown s | EvUp s => if decide (s = mutex) then None else Some s
                 | _ => None
                 end) evs.

(** The statements of playerConstituteTeam that make a team: the leader's
    mark FORMING_TEAM (line 189), a read of teamId by a process that was
    called (line 242), the leader's wait for a registration (lines 197 and
    207) and its claim [ret = sh->fSt.teamId++] (line 212). *)
Inductive Kind :=
| KMark | KRead (v : Z) | KAck | KClaim (v : Z) | KOther.

Definition kind (evs : list Event) : Kind :=
  match evs with
  | [EvStat _ FORMING_TEAM] => KMark
  | [EvRead LteamId v] => KRead v
  | [EvDown playerRegistered] => KAck
  | [EvRead LteamId v; EvWrite LteamId _] => KClaim v
  | _ => KOther
  end.

(** The team ids a process claimed as leader: the value read by each
    statement [ret = sh->fSt.teamId++]. *)
Definition claims (tr : list (list Event)) : list Z :=
  omap (fun evs => match kind evs with
                   | KClaim v => Some v
                   | _ => None
                   end) tr.

(** The values playerConstituteTeam returned. *)
Definition returns (tr : list (list Event)) : list Z :=
  omap (fun evs => match evs with
                   | [EvReturn r] => Some r
                   | _ => None
                   end) tr.

(** The statements that marked the player LATE. *)
Definition late_marks (tr : list (list Event)) : list Z :=
  omap (fun evs => match evs with
                   | [EvStat id LATE] => Some id
                   | _ => None
                   end) tr.

(** Whether the process has ended. *)
Definition ended (l : PC) : bool :=
  match l with
  | Exited _ => true
  | _ => false
  end.

(** The statements main runs once playerConstituteTeam has returned. *)
Definition returned_pc (l : PC) : bool :=
  match l with
  | L119 | L125 | Exited _ => true
  | _ => in_match l
  end.

(** The statements of the critical region of playerConstituteTeam that
    run while [ret] still holds the 0 of line 175. *)
Definition ret_untouched (l : PC) : bool :=
  match l with
  | L177 | L181 | L182 | L183 | L184 | L186 | L187 | L188 | L189 | L190 | L191
  | L193 | L197 | L201 | L202 | L203 | L207 | L212
  | L217 | L218 | L219 | L220 => true
  | _ => false
  end.

(** Where a player that has claimed a team id can stand. *)
Definition after_claim (c : Config) : Prop :=
  pc c = L213 \/ ((pc c = L223 \/ pc c = L227) /\ player_type c = 1) \/
  pc c = L231 \/ pc c = L252 \/ returned_pc (pc c) = true.

(** Where a player that was marked LATE can stand. *)
Definition after_late (c : Config) : Prop :=
  pc c = L184 \/ ((pc c = L223 \/ pc c = L227) /\ player_type c = 0) \/
  pc c = L252 \/ returned_pc (pc c) = true.

(** What the events of a player's life say about where it stands and what
    its locals hold. *)
Definition life_inv (tr : list (list Event)) (c : Config) : Prop :=
  (forall r, r ∈ returns tr -> r = ret c /\ returned_pc (pc c) = true) /\
  (forall v, v ∈ claims tr -> v = ret c /\ after_claim c) /\
  (forall i, i ∈ late_marks tr -> ret c = 0 /\ after_late c) /\
  (in_match (pc c) = true -> ret c <> 0) /\
  (ret_untouched (pc c) = true -> ret c = 0) /\
  (pc c = L182 \/ pc c = L183 \/ pc c = L184 -> player_type c = 0) /\
  (pc c = L223 \/ pc c = L227 -> player_type c = 0 \/ player_type c = 1 \/ player_type c = 2) /\
  pc c <> L249.

(** ** The start of main: validation of the command line (lines 70-82) *)

(** The C library's [isspace] on the characters of the C locale. *)
Definition isspace (c : ascii) : bool :=
  let n := Z.of_nat (nat_of_ascii c) in
  (n =? 32) || ((9 <=? n) && (n <=? 13)).

(** The value of a character as a digit, letters counting from 10. *)
Definition digit_of (c : ascii) : option Z :=
  let n := Z.of_nat (nat_of_ascii c) in
  if (48 <=? n) && (n <=? 57) then Some (n - 48)
  else if (97 <=? n) && (n <=? 122) then Some (n - 87)
  else if (65 <=? n) && (n <=? 90) then Some (n - 55)
  else None.

Fixpoint skip_space (s : string) : string :=
  match s with
  | String c s' => if isspace c then skip_space s' else s
  | EmptyString => s
  end.

(** The longest run of digits of [base] at the head of [s]: its value on
    top of [acc], whether it has a digit at all, and what follows it. *)
Fixpoint digits (base acc : Z) (any : bool) (s : string) : Z * bool * string :=
  match s with
  | String c s' =>
      match digit_of c with
      | Some d => if d <? base then digits base (acc * base + d) true s' else (acc, any, s)
      | None => (acc, any, s)
      end
  | EmptyString => (acc, any, s)
  end.

Definition LONG_MAX : Z := 2 ^ 63 - 1.
Definition LONG_MIN : Z := - 2 ^ 63.

(** The C library's [strtol (nptr, &endptr, 0)] for a 64-bit [long]: the
    value and the text [endptr] is left at.  White space, a sign, then a
    number in base 16 after 0x, base 8 after 0, base 10 otherwise; with no
    digit nothing is converted; a value out of range is clamped. *)
Definition strtol (nptr : string) : Z * string :=
  let s := skip_space nptr in
  let '(neg, s1) :=
    match s with
    | String "-" r => (true, r)
    | String "+" r => (false, r)
    | _ => (false, s)
    end in
  let '(base, s2) :=
    match s1 with
    | String "0" (String x (String h r)) =>
        if ((x =? "x") || (x =? "X"))%char &&
           match digit_of h with Some d => d <? 16 | None => false end
        then (16, String h r) else (8, s1)
    | String "0" _ => (8, s1)
    | _ => (10, s1)
    end in
  let '(v, any, rest) := digits base 0 false s2 in
  if any then (Z.max LONG_MIN (Z.min LONG_MAX (if neg then - v else v)), rest)
  else (0, nptr).

(** The conversions of [n = (unsigned int) strtol (...)], [n] an [int]:
    to [unsigned int] modulo 2^32, then to [int] by two's complement. *)
Definition to_unsigned_int (v : Z) : Z := v mod 2 ^ 32.
Definition to_int (v : Z) : Z :=
  let w := v mod 2 ^ 32 in if w <? 2 ^ 31 then w else w - 2 ^ 32.

(** How the validation ends: with EXIT_FAILURE and a message, or with the
    player number that the life cycle is then run for. *)
Inductive Startup :=
| StartFailure (message : string)
| StartLifeCycle (n : Z).

Section Main.
Context {PCst : ProbConst}.

(** Lines 70-82 of main on [argv] ([argc] is its length).  NUMPLAYERS is an
    [int] constant, so [n >= NUMPLAYERS] compares two [int]s. *)
Definition main_validate (argv : list string) : Startup :=
  if negb (length argv =? 4)%nat then
    StartFailure "Number of parameters is incorrect!"
  else
    match argv !! 1%nat with
    | Some arg =>
        let '(v, tinp) := strtol arg in
        let n := to_int (to_unsigned_int v) in
        if negb (tinp =? "")%string || (NUMPLAYERS <=? n) then
          StartFailure "Player process identification is wrong!"
        else StartLifeCycle n
    | None => StartFailure "Number of parameters is incorrect!"
    end.

End Main.

(** ** The players among their peers

    The processes of one game: the players, numbered by their position in
    [players], each running the life cycle on the shared memory, and their
    peers (goalies, referee), whose code is not among the sources and which
    are a parameter: a state [E] and the steps [peer_step] they can take on
    the shared memory. *)

Inductive Actor := Player (i : nat) | Peer.

Record Sys (E : Type) := mkSys {
  players : list Config;
  peers : E;
  mem : Mem
}.
Arguments mkSys {E} _ _ _.
Arguments players {E} _.
Arguments peers {E} _.
Arguments mem {E} _.

(** How many of the processes [ps] stand at a statement of [P]. *)
Definition standing (P : PC -> bool) (ps : list Config) : nat :=
  sum_list_with (fun c => Nat.b2n (P (pc c))) ps.

Section System.
Context {PCst : ProbConst} {E : Type}.
Variable peer_step : E -> Mem -> list Event -> E -> Mem -> Prop.
Variable peer_holds : E -> nat.

(** One statement of one process; a system call of a player may fail. *)
Inductive sys_step : Sys E -> Actor * list Event -> Sys E -> Prop :=
| step_player σ i c ok evs c' m' :
    players σ !! i = Some c ->
    pstep (Z.of_nat i) ok c (mem σ) = Next evs c' m' ->
    sys_step σ (Player i, evs) (mkSys (<[i := c']> (players σ)) (peers σ) m')
| step_peer σ evs e' m' :
    peer_step (peers σ) (mem σ) evs e' m' ->
    sys_step σ (Peer, evs) (mkSys (players σ) e' m').

(** The states the game can be in after the statements [tr], oldest first. *)
Inductive reach (σ0 : Sys E) : list (Actor * list Event) -> Sys E -> Prop :=
| reach_init : reach σ0 [] σ0
| reach_step tr σ lbl σ' :
    reach σ0 tr σ -> sys_step σ lbl σ' -> reach σ0 (tr ++ [lbl]) σ'.

(** What the players rely on from their peers: they take and give back the
    mutex through its semaphore ([peer_holds] counts the peers inside their
    critical regions), they touch [sh->fSt] only inside a critical region,
    and they keep the two counters of free team members from going
    negative. *)
Record disciplined : Prop := {
  peers_mutex : forall e m evs e' m',
    peer_step e m evs e' m' ->
    (peer_holds e' + v_mutex (semgid m') <= peer_holds e + v_mutex (semgid m))%nat;
  peers_write_locked : forall e m evs e' m',
    peer_step e m evs e' m' -> peer_holds e = 0%nat -> fSt m' = fSt m;
  peers_keep_free : forall e m evs e' m',
    peer_step e m evs e' m' ->
    0 <= playersFree (fSt m) -> 0 <= goaliesFree (fSt m) ->
    0 <= playersFree (fSt m') /\ 0 <= goaliesFree (fSt m')
}.

(** The game before any process has run: every player about to call
    arrive, no peer inside a critical region, the mutex free, no signal
    pending, nobody arrived and nobody free.  The first team id is whatever
    the initialisation, which is not among the sources, stored. *)
Definition initial (σ : Sys E) : Prop :=
  Forall (fun c => c = start) (players σ) /\
  peer_holds (peers σ) = 0%nat /\
  semgid (mem σ) = mkSemSet 1 0 0 0 0 0 0 0 /\
  playersArrived (fSt (mem σ)) = 0 /\
  playersFree (fSt (mem σ)) = 0 /\
  goaliesFree (fSt (mem σ)) = 0.

(** At most one process is inside a critical region. *)
Definition mutex_inv (σ : Sys E) : Prop :=
  (standing critical (players σ) + peer_holds (peers σ) + v_mutex (semgid (mem σ)) <= 1)%nat.

(** The counters of free players and goalies are not negative, and what a
    leader is about to take is there. *)
Definition free_inv (σ : Sys E) : Prop :=
  0 <= playersFree (fSt (mem σ)) /\ 0 <= goaliesFree (fSt (mem σ)) /\
  forall i c, players σ !! i = Some c ->
    (pc c = L187 -> 3 <= playersFree (fSt (mem σ)) /\ 1 <= goaliesFree (fSt (mem σ))) /\
    (pc c = L188 -> 1 <= goaliesFree (fSt (mem σ))).

End System.

(** The team ids a process learnt as a waiting player: the value read by
    each statement [ret = sh->fSt.teamId] (line 242). *)
Definition reads (tr : list (list Event)) : list Z :=
  omap (fun evs => match kind evs with
                   | KRead v => Some v
                   | _ => None
                   end) tr.

(** How many times a process signalled refereeWaitTeams (line 231). *)
Definition referee_signals (tr : list (list Event)) : nat :=
  length (omap (fun evs => match evs with
                           | [EvUp refereeWaitTeams] => Some tt
                           | _ => None
                           end) tr).

(** The two statements around the semUp of the mutex at the end of the
    critical region of playerConstituteTeam, where [player_type] tells the
    role. *)
Definition at_switch (l : PC) : bool :=
  match l with
  | L223 | L227 => true
  | _ => false
  end.

(** Where a player that has read its team id can stand. *)
Definition read_pc (l : PC) : bool :=
  match l with
  | L243 | L252 => true
  | _ => returned_pc l
  end.

(** Where a player that has signalled refereeWaitTeams can stand. *)
Definition signalled_pc (l : PC) : bool :=
  match l with
  | L252 => true
  | _ => returned_pc l
  end.

(** Where a leader that has not signalled refereeWaitTeams can stand. *)
Definition unsignalled_pc (l : PC) : bool :=
  match l with
  | L213 | L223 | L227 | L231 => true
  | _ => ended l
  end.

(** What the events of a player's life say about its role. *)
Definition roles_inv (tr : list (list Event)) (c : Config) : Prop :=
  (forall v, v ∈ reads tr -> v = ret c /\ read_pc (pc c) = true) /\
  (referee_signals tr <= 1)%nat /\
  (referee_signals tr = 1%nat ->
     (0 < length (claims tr))%nat /\ signalled_pc (pc c) = true) /\
  ((0 < length (claims tr))%nat -> referee_signals tr = 0%nat ->
     unsignalled_pc (pc c) = true) /\
  (pc c = L213 -> (0 < length (claims tr))%nat) /\
  (pc c = L231 -> (0 < length (claims tr))%nat) /\
  (at_switch (pc c) = true -> player_type c = 1 -> (0 < length (claims tr))%nat).

(** The statements of player [i] among those of the game. *)
Definition of_player (i : nat) (tr : list (Actor * list Event)) : list (list Event) :=
  omap (fun lbl => match lbl with
                   | (Player j, evs) => if decide (j = i) then Some evs else None
                   | (Peer, _) => None
                   end) tr.

(** ** The goalies *)

Inductive GPC :=
| G_lock | G_free | G_mark | G_save | G_unlock | G_wait | G_read | G_register | G_done.

Record GConfig := mkGConfig {
  gpc : GPC;
  g_ret : Z
}.

Definition gstart : GConfig := mkGConfig G_lock 0.

(** Modelled from the spec: the goalie, whose code is not among the
    sources.  It mirrors the waiting player: under the lock it counts
    itself in goaliesFree, marks itself waiting and has the record saved;
    after releasing the lock it waits on goaliesWaitTeam, reads teamId,
    signals playerRegistered and returns that id. *)
Definition gstep (id : Z) (g : GConfig) (m : Mem) : option (list Event * GConfig * Mem) :=
  match gpc g with
  | G_lock =>
      match v_mutex (semgid m) with
      | O => None
      | S n => Some ([EvDown mutex], mkGConfig G_free (g_ret g),
                     mkMem (fSt m) (semset mutex n (semgid m)))
      end
  | G_free =>
      Some ([EvRead LgoaliesFree (goaliesFree (fSt m));
             EvWrite LgoaliesFree (goaliesFree (fSt m) + 1)],
            mkGConfig G_mark (g_ret g),
            with_fSt (set_goaliesFree (goaliesFree (fSt m) + 1)) m)
  | G_mark =>
      if in_bounds id (goalieStat (fSt m)) then
        Some ([EvGoalieStat id G_WAITING_TEAMS], mkGConfig G_save (g_ret g),
              with_fSt (set_goalieStat (<[Z.to_nat id := G_WAITING_TEAMS]> (goalieStat (fSt m)))) m)
      else None
  | G_save => Some ([EvSave (fSt m)], mkGConfig G_unlock (g_ret g), m)
  | G_unlock =>
      Some ([EvUp mutex], mkGConfig G_wait (g_ret g),
            mkMem (fSt m) (semset mutex (S (v_mutex (semgid m))) (semgid m)))
  | G_wait =>
      match v_goaliesWaitTeam (semgid m) with
      | O => None
      | S n => Some ([EvDown goaliesWaitTeam], mkGConfig G_read (g_ret g),
                     mkMem (fSt m) (semset goaliesWaitTeam n (semgid m)))
      end
  | G_read =>
      Some ([EvRead LteamId (teamId (fSt m))], mkGConfig G_register (teamId (fSt m)), m)
  | G_register =>
      Some ([EvUp playerRegistered], mkGConfig G_done (g_ret g),
            mkMem (fSt m) (semset playerRegistered (S (v_playerRegistered (semgid m))) (semgid m)))
  | G_done => None
  end.

Definition gcritical (l : GPC) : bool :=
  match l with
  | G_free | G_mark | G_save | G_unlock => true
  | _ => false
  end.

(** How many of the goalies [gs] stand at a statement of [P]. *)
Definition gstanding (P : GPC -> bool) (gs : list GConfig) : nat :=
  sum_list_with (fun g => Nat.b2n (P (gpc g))) gs.

(** The goalies as the peers of the players: one of them runs a statement. *)
Definition goalies_step (gs : list GConfig) (m : Mem) (evs : list Event)
    (gs' : list GConfig) (m' : Mem) : Prop :=
  exists j g g', gs !! j = Some g /\ gstep (Z.of_nat j) g m = Some (evs, g', m') /\
                 gs' = <[j := g']> gs.

Definition goalies_hold (gs : list GConfig) : nat := gstanding gcritical gs.

(** A game of players and goalies. *)
Abbreviation Game := (Sys (list GConfig)).

(** ** Running a game by a schedule *)

Inductive Who := P (i : nat) | G (j : nat).

Section Schedule.
Context {PCst : ProbConst}.

(** The next statement of [w], every system call succeeding. *)
Definition turn (w : Who) (σ : Game) : option (Actor * list Event * Game) :=
  match w with
  | P i =>
      match players σ !! i with
      | Some c =>
          match pstep (Z.of_nat i) true c (mem σ) with
          | Next evs c' m' => Some (Player i, evs, mkSys (<[i := c']> (players σ)) (peers σ) m')
          | _ => None
          end
      | None => None
      end
  | G j =>
      match peers σ !! j with
      | Some g =>
          match gstep (Z.of_nat j) g (mem σ) with
          | Some (evs, g', m') => Some (Peer, evs, mkSys (players σ) (<[j := g']> (peers σ)) m')
          | None => None
          end
      | None => None
      end
  end.

(** [w] runs until it blocks or ends, for at most [fuel] statements. *)
Fixpoint burst (fuel : nat) (w : Who) (σ : Game) : list (Actor * list Event) * Game :=
  match fuel with
  | O => ([], σ)
  | S fuel' =>
      match turn w σ with
      | Some (a, evs, σ') => let '(tr, σ'') := burst fuel' w σ' in ((a, evs) :: tr, σ'')
      | None => ([], σ)
      end
  end.

(** The processes of [sched] run one after the other, each for as many
    statements as the schedule gives it (fewer if it blocks or ends). *)
Fixpoint play (sched : list (Who * nat)) (σ : Game) : list (Actor * list Event) * Game :=
  match sched with
  | [] => ([], σ)
  | (w, n) :: sched' =>
      let '(tr, σ') := burst n w σ in
      let '(tr', σ'') := play sched' σ' in (tr ++ tr', σ'')
  end.

End Schedule.

(** The schedule that lets each of [ws] in turn run until it blocks or
    ends. *)
Definition freely (ws : list Who) : list (Who * nat) := map (fun w => (w, 64%nat)) ws.

(** A game of [np] players and [ng] goalies before any of them has run,
    the first team to be numbered [tid]. *)
Definition kickoff (np ng : nat) (tid : Z) : Game :=
  mkSys (replicate np start) (replicate ng gstart)
        (mkMem (mkFullStat (replicate np ARRIVING) (replicate ng G_ARRIVING) 0 0 0 tid)
               (mkSemSet 1 0 0 0 0 0 0 0)).

(** ** The formations of a game, read off its statements *)

(** A team in the making: the player that marked itself FORMING_TEAM, the
    waiting players that have read teamId since, each with the value it
    read, the values the goalies read, and how many registrations the
    leader has waited for. *)
Record Formation := mkFormation {
  f_leader : nat;
  f_players : list (nat * Z);
  f_goalies : list Z;
  f_acks : nat
}.

(** What the statements of a game amount to: the formation under way, the
    formations completed, each with the id its leader claimed, and the
    statements of a formation that came out of turn. *)
Record History := mkHistory {
  forming : option Formation;
  formed : list (Formation * Z);
  strays : list (Actor * list Event)
}.

Definition stray (h : History) (lbl : Actor * list Event) : History :=
  mkHistory (forming h) (formed h) (strays h ++ [lbl]).

Definition observe (h : History) (lbl : Actor * list Event) : History :=
  match lbl.1, kind lbl.2, forming h with
  | Player i, KMark, None =>
      mkHistory (Some (mkFormation i [] [] 0)) (formed h) (strays h)
  | Player i, KRead v, Some F =>
      mkHistory (Some (mkFormation (f_leader F) (f_players F ++ [(i, v)])
                                   (f_goalies F) (f_acks F)))
                (formed h) (strays h)
  | Peer, KRead v, Some F =>
      mkHistory (Some (mkFormation (f_leader F) (f_players F)
                                   (f_goalies F ++ [v]) (f_acks F)))
                (formed h) (strays h)
  | Player i, KAck, Some F =>
      if decide (i = f_leader F) then
        mkHistory (Some (mkFormation (f_leader F) (f_players F) (f_goalies F)
                                     (S (f_acks F))))
                  (formed h) (strays h)
      else stray h lbl
  | Player i, KClaim v, Some F =>
      if decide (i = f_leader F) then
        mkHistory None (formed h ++ [(F, v)]) (strays h)
      else stray h lbl
  | _, KOther, _ => h
  | _, _, _ => stray h lbl
  end.

Definition history (tr : list (Actor * list Event)) : History :=
  fold_left observe tr (mkHistory None [] []).

(** No system call of the game failed. *)
Definition no_failure (tr : list (Actor * list Event)) : Prop :=
  forall a evs s, (a, evs) ∈ tr -> EvSemError s ∉ evs.

(** How many times player [i] signalled refereeWaitTeams in the game. *)
Definition signals_of (i : nat) (tr : list (Actor * list Event)) : nat :=
  referee_signals (of_player i tr).

Definition forming_pc (l : PC) : bool :=
  match l with
  | L190 | L191 | L193 | L197 | L201 | L202 | L203 | L207 | L212 => true
  | _ => false
  end.

Definition is_L242 (l : PC) : bool := match l with L242 => true | _ => false end.
Definition is_L243 (l : PC) : bool := match l with L243 => true | _ => false end.
Definition is_G_read (l : GPC) : bool := match l with G_read => true | _ => false end.
Definition is_G_register (l : GPC) : bool := match l with G_register => true | _ => false end.

(** The signals and the called processes of a handshake: signals pending on
    playersWaitTeam, goaliesWaitTeam and playerRegistered, players called
    that have not read teamId yet and that have read it and not registered,
    goalies likewise. *)
Record Census := mkCensus {
  n_pw : nat; n_gw : nat; n_pr : nat;
  n_called : nat; n_read : nat;
  n_gcalled : nat; n_gread : nat
}.

Definition census (σ : Game) : Census :=
  mkCensus (v_playersWaitTeam (semgid (mem σ))) (v_goaliesWaitTeam (semgid (mem σ)))
           (v_playerRegistered (semgid (mem σ)))
           (standing is_L242 (players σ)) (standing is_L243 (players σ))
           (gstanding is_G_read (peers σ)) (gstanding is_G_register (peers σ)).

Definition quiet (k : Census) : Prop :=
  (n_pw k + n_gw k + n_pr k + n_called k + n_read k + n_gcalled k + n_gread k = 0)%nat.

Section Formations.
Context {PCst : ProbConst}.

(** Where the leader stands, against what the formation has so far and
    what is in flight. *)
Definition phase (l : PC) (cnt : Z) (F : Formation) (k : Census) : Prop :=
  let np := length (f_players F) in
  let ng := length (f_goalies F) in
  match l with
  | L190 | L191 => np = 0%nat /\ ng = 0%nat /\ f_acks F = 0%nat /\ quiet k
  | L193 | L202 => Z.of_nat np = cnt /\ ng = 0%nat /\ f_acks F = np /\ quiet k
  | L197 =>
      (n_pw k + n_called k + n_read k + n_pr k = 1)%nat /\
      (n_gw k + n_gcalled k + n_gread k = 0)%nat /\
      Z.of_nat np = cnt + Z.of_nat (n_read k + n_pr k) /\ ng = 0%nat /\
      Z.of_nat (f_acks F) = cnt
  | L201 => Z.of_nat np = cnt + 1 /\ ng = 0%nat /\ f_acks F = np /\ quiet k
  | L203 =>
      Z.of_nat np = cnt /\ cnt = NUMTEAMPLAYERS - 1 /\ ng = 0%nat /\ f_acks F = np /\ quiet k
  | L207 =>
      (n_gw k + n_gcalled k + n_gread k + n_pr k = 1)%nat /\
      (n_pw k + n_called k + n_read k = 0)%nat /\
      Z.of_nat np = cnt /\ cnt = NUMTEAMPLAYERS - 1 /\
      ng = (n_gread k + n_pr k)%nat /\ f_acks F = np
  | L212 =>
      Z.of_nat np = NUMTEAMPLAYERS - 1 /\ ng = 1%nat /\ f_acks F = S np /\ quiet k
  | _ => False
  end.

(** A completed formation: everyone called read the id the leader claimed,
    NUMTEAMPLAYERS-1 players and one goalie were called, and the leader had
    waited for all their registrations when it claimed the id. *)
Definition complete (Fv : Formation * Z) : Prop :=
  Forall (fun jw => jw.2 = Fv.2) (f_players Fv.1) /\
  Forall (fun w => w = Fv.2) (f_goalies Fv.1) /\
  Z.of_nat (length (f_players Fv.1)) = NUMTEAMPLAYERS - 1 /\
  length (f_goalies Fv.1) = 1%nat /\
  Z.of_nat (f_acks Fv.1) = NUMTEAMPLAYERS.

(** The invariant of team formation, [tid] the first team id. *)
Definition form_inv (tid : Z) (σ : Game) (h : History) : Prop :=
  strays h = [] /\
  teamId (fSt (mem σ)) = tid + Z.of_nat (length (formed h)) /\
  Forall complete (formed h) /\
  match forming h with
  | None => standing forming_pc (players σ) = 0%nat /\ quiet (census σ)
  | Some F =>
      exists c, players σ !! f_leader F = Some c /\
        Forall (fun jw => jw.2 = teamId (fSt (mem σ))) (f_players F) /\
        Forall (fun w => w = teamId (fSt (mem σ))) (f_goalies F) /\
        phase (pc c) (count c) F (census σ)
  end.

End Formations.

(** ** Arrivals *)

(** The rank of its arrival that a player learns: the value its statement
    [++sh->fSt.playersArrived] (line 182) writes. *)
Definition arrival_rank (evs : list Event) : option Z :=
  match evs with
  | [EvRead LplayersArrived _; EvWrite LplayersArrived w] => Some w
  | _ => None
  end.

Definition ranks (tr : list (list Event)) : list Z := omap arrival_rank tr.

(** The players of a game in the order of their arrival statements, each
    with the rank it learnt. *)
Definition arrivals_ranked (tr : list (Actor * list Event)) : list (nat * Z) :=
  omap (fun lbl => match lbl with
                   | (Player i, evs) =>
                       match arrival_rank evs with
                       | Some w => Some (i, w)
                       | None => None
                       end
                   | (Peer, _) => None
                   end) tr.

Definition arrivals (tr : list (Actor * list Event)) : list nat :=
  (arrivals_ranked tr).*1.

(** The statements after the arrival statement of line 182. *)
Definition arrived_pc (l : PC) : bool :=
  match l with
  | L142 | L147 | L148 | L150 | L155 | L175 | L177 | L181 | L182 => false
  | _ => true
  end.

(** Where a player that arrived in time can stand. *)
Definition on_time_pc (l : PC) : bool :=
  match l with
  | L183 | L184 => false
  | _ => arrived_pc l
  end.

(** Where a player that arrived late can stand. *)
Definition late_pc (l : PC) : bool :=
  match l with
  | L183 | L184 | L223 | L227 | L252 | L119 | L125 | Exited _ => true
  | _ => false
  end.

(** Where a late player stands once it has marked itself. *)
Definition marked_pc (l : PC) : bool :=
  match l with
  | L183 => false
  | _ => late_pc l
  end.

(** What the rank of its arrival makes of a player. *)
Definition lateness_inv (id : Z) (tr : list (list Event)) (c : Config) : Prop :=
  (arrived_pc (pc c) = false ->
     ranks tr = [] /\ claims tr = [] /\ reads tr = [] /\ late_marks tr = []) /\
  (forall w, w ∈ ranks tr -> w <= 8 -> late_marks tr = [] /\ on_time_pc (pc c) = true) /\
  (forall w, w ∈ ranks tr -> 8 < w ->
     late_pc (pc c) = true /\ ret c = 0 /\ claims tr = [] /\ reads tr = [] /\
     (at_switch (pc c) = true -> player_type c = 0) /\
     (marked_pc (pc c) = true -> id ∈ late_marks tr)).

(** The invariant of arrivals: playersArrived counts the arrival
    statements run so far, and the k-th of them learnt rank k. *)
Definition arrivals_inv (σ : Game) (tr : list (Actor * list Event)) : Prop :=
  playersArrived (fSt (mem σ)) = Z.of_nat (length (arrivals_ranked tr)) /\
  forall k i w, arrivals_ranked tr !! k = Some (i, w) -> w = Z.of_nat k + 1.

(** Nine players and two goalies, the goalies first, then the players in
    the order of their numbers; each process runs until it blocks, a player
    that was called, and a leader that has been registered with by all,
    until it returns from playerConstituteTeam. *)
Definition nine_players : list (Who * nat) :=
  freely [G 0; G 1; P 0; P 1; P 2; P 3]%nat ++
  [(P 0, 4); (P 3, 64); (P 1, 4); (P 3, 64); (P 2, 4); (P 3, 64); (G 0, 64); (P 3, 7)]%nat ++
  freely [P 4; P 5; P 6; P 7]%nat ++
  [(P 4, 4); (P 7, 64); (P 5, 4); (P 7, 64); (P 6, 4); (P 7, 64); (G 1, 64); (P 7, 7)]%nat ++
  freely [P 8]%nat.

(** ** Constants and memories for the examples *)

(** The values that the literals of playerConstituteTeam are written for:
    the arrival that leads takes 3 waiting players with it (teams of 4 field
    players) and the arrivals after the 8th are sent away (two teams). *)
#[global] Instance soccer : ProbConst := {| NUMPLAYERS := 10; NUMTEAMPLAYERS := 4 |}.

(** A memory with the given counters, every player [ARRIVING], the mutex
    free and the given numbers of signals pending on playersWaitTeam and
    playerRegistered. *)
Definition mem_with (arrived free goalies tid : Z) (waitTeam registered : nat) : Mem :=
  mkMem (mkFullStat (replicate 10 ARRIVING) (replicate 3 G_ARRIVING) arrived free goalies tid)
        (mkSemSet 1 waitTeam 0 registered 0 0 0 0).

(** The behaviour of player 3 that arrives, finds 3 free players and a free
    goalie, and leads: it stands after its first wait on playerRegistered. *)
Definition leader_run :=
  Eval vm_compute in run 19 3 start (mem_with 3 3 1 1 0 1).

(** The behaviour of player 0 that arrives first, finds nobody free, waits
    for a team and is called by a leader: it stands after its read of
    teamId (line 242). *)
Definition follower_run :=
  Eval vm_compute in run 19 0 start (mem_with 0 0 0 1 1 0).

(** The behaviour of a player that leads while teamId is 0, with the four
    registrations it waits for already signalled. *)
Definition leader_zero_run :=
  Eval vm_compute in run 40 3 start (mem_with 3 3 1 0 0 4).

(** Four players and a goalie: the goalie and players 0, 1 and 2 wait for
    a team, player 3 has come back from arrive and is about to call
    playerConstituteTeam. *)
Definition before_leading : list (Actor * list Event) * Game :=
  let '(tr, σ) := play (freely [G 0; P 0; P 1; P 2])%nat (kickoff 4 1 1) in
  let '(tr', σ') := burst 5 (P 3) σ in (tr ++ tr', σ').

(** Nine players and a goalie: players 0 to 7 arrived before the goalie and
    wait for a team, the goalie waits too, player 8 is about to call
    playerConstituteTeam. *)
Definition ninth_arrival : list (Actor * list Event) * Game :=
  let '(tr, σ) := play (freely [P 0; P 1; P 2; P 3; P 4; P 5; P 6; P 7; G 0])%nat (kickoff 9 1 1) in
  let '(tr', σ') := burst 5 (P 8) σ in (tr ++ tr', σ').

(** Where the entries of the history come from. *)
Definition sourced (tr : list (Actor * list Event)) (F : Formation) : Prop :=
  forall j w, (j, w) ∈ f_players F -> w ∈ reads (of_player j tr).

(** The game of [nine_players] when the first team is to be numbered
    [tid]: its statements and the state it ends in. *)
Abbreviation nine_run tid := (play nine_players (kickoff 9 2 tid)).

(** ** The discipline of the mutex *)

(** Whether the semDowns and semUps of the mutex among [evs] alternate,
    given whether the process holds it at first: no semDown of the mutex by
    a process that holds it, no semUp by one that does not. *)
Fixpoint locking_from (held : bool) (evs : list Event) : bool :=
  match evs with
  | [] => true
  | e :: evs' =>
      match e with
      | EvDown mutex => negb held
      | EvUp mutex => held
      | _ => true
      end && locking_from (lock_after held e) evs'
  end.

Definition locking (evs : list Event) : bool := locking_from false evs.

(** The behaviour of player 3 that arrives, finds 3 free players and a free
    goalie, and leads: it stands at its first call of a waiting player
    (line 193). *)
Definition leader_calling :=
  Eval vm_compute in run 15 3 start (mem_with 3 3 1 1 0 0).

(** ** The statuses of a player's life *)

(** The statuses that the process stored in the status array, oldest
    first. *)
Definition stats (tr : list (list Event)) : list PlayerState :=
  omap (fun evs => match evs with
                   | [EvStat _ st] => Some st
                   | _ => None
                   end) tr.

(** The status by which playerConstituteTeam shows the role that
    [player_type] stands for (line 181: 0 late, 1 forming, 2 waiting). *)
Definition role_of (player_type : Z) : PlayerState :=
  match player_type with
  | 1 => FORMING_TEAM
  | 2 => WAITING_TEAMS
  | _ => LATE
  end.

(** The statuses of waitReferee and playUntilEnd for a team (lines 271 and
    302): those of team 1 for the id 1, those of team 2 for any other. *)
Definition waiting_start (team : Z) : PlayerState :=
  if team =? 1 then WAITING_START_1 else WAITING_START_2.
Definition playing_for (team : Z) : PlayerState :=
  if team =? 1 then PLAYING_1 else PLAYING_2.

(** The statuses of a whole life: arrival, role, and the match unless
    playerConstituteTeam returned 0. *)
Definition life_statuses (role : PlayerState) (team : Z) : list PlayerState :=
  [ARRIVING; role] ++
  (if team =? 0 then [] else [waiting_start team; playing_for team]).

(** What the statuses stored so far are, by the statement the player stands
    at. *)
Definition status_inv (tr : list (list Event)) (c : Config) : Prop :=
  match pc c with
  | L142 | L147 => stats tr = []
  | L148 | L150 | L155 | L175 | L177 | L181 | L182 | L183
  | L186 | L187 | L188 | L189 | L217 | L218 => stats tr = [ARRIVING]
  | L184 => stats tr = [ARRIVING; LATE] /\ player_type c = 0
  | L190 | L191 | L193 | L197 | L201 | L202 | L203 | L207 | L212 | L213 =>
      stats tr = [ARRIVING; FORMING_TEAM]
  | L219 | L220 => stats tr = [ARRIVING; WAITING_TEAMS]
  | L231 => stats tr = [ARRIVING; FORMING_TEAM] /\ player_type c = 1
  | L237 | L242 | L243 => stats tr = [ARRIVING; WAITING_TEAMS] /\ player_type c = 2
  | L249 => False
  | L223 | L227 | L252 | L119 =>
      stats tr = [ARRIVING; role_of (player_type c)] /\
      (player_type c = 0 \/ player_type c = 1 \/ player_type c = 2) /\
      (player_type c = 0 -> ret c = 0)
  | L266 | L271 =>
      stats tr = [ARRIVING; role_of (player_type c)] /\
      (player_type c = 1 \/ player_type c = 2) /\ team c = ret c /\ ret c <> 0
  | L272 | L274 | L279 | L297 | L302 =>
      stats tr = [ARRIVING; role_of (player_type c); waiting_start (ret c)] /\
      (player_type c = 1 \/ player_type c = 2) /\ team c = ret c /\ ret c <> 0
  | L303 | L305 | L310 | L315 =>
      stats tr = life_statuses (role_of (player_type c)) (ret c) /\
      (player_type c = 1 \/ player_type c = 2) /\ team c = ret c /\ ret c <> 0
  | L125 | Exited 0 =>
      stats tr = life_statuses (role_of (player_type c)) (ret c) /\
      (player_type c = 0 \/ player_type c = 1 \/ player_type c = 2) /\
      (player_type c = 0 -> ret c = 0)
  | Exited _ =>
      exists role, role ∈ [LATE; FORMING_TEAM; WAITING_TEAMS] /\
                   stats tr `prefix_of` life_statuses role (ret c)
  end.

(** ** The leader's calls *)

(** How many of the statements [tr] are of the kind [P]. *)
Definition count_steps (P : list Event -> bool) (tr : list (list Event)) : nat :=
  length (filter (fun evs => P evs = true) tr).

(** A call of a waiting player (line 193), a call of a goalie (line 203), a
    registration waited for (lines 197 and 207). *)
Definition is_call (evs : list Event) : bool :=
  match evs with
  | [EvUp playersWaitTeam] => true
  | _ => false
  end.
Definition is_goalie_call (evs : list Event) : bool :=
  match evs with
  | [EvUp goaliesWaitTeam] => true
  | _ => false
  end.
Definition is_registration (evs : list Event) : bool :=
  match evs with
  | [EvDown playerRegistered] => true
  | _ => false
  end.

Definition calls := count_steps is_call.
Definition goalie_calls := count_steps is_goalie_call.
Definition registrations := count_steps is_registration.

Section Calls.
Context {PCst : ProbConst}.

(** The process has led a whole team. *)
Definition led (tr : list (list Event)) : Prop :=
  Z.of_nat (calls tr) = NUMTEAMPLAYERS - 1 /\ goalie_calls tr = 1%nat /\
  registrations tr = S (calls tr) /\ 2 <= NUMTEAMPLAYERS /\ length (claims tr) = 1%nat.

(** The process has called nobody. *)
Definition idle (tr : list (list Event)) : Prop :=
  calls tr = 0%nat /\ goalie_calls tr = 0%nat /\ registrations tr = 0%nat /\ claims tr = [].

(** In the loop of lines 192 to 202: [n] rounds are complete, and the loop
    has not ended yet. *)
Definition calling (tr : list (list Event)) (n : Z) : Prop :=
  0 <= n /\ Z.of_nat (registrations tr) = n /\ goalie_calls tr = 0%nat /\ claims tr = [] /\
  (NUMTEAMPLAYERS - 1 < 1 \/ n < NUMTEAMPLAYERS - 1).

(** The calls made so far, by the statement the player stands at. *)
Definition calls_inv (tr : list (list Event)) (c : Config) : Prop :=
  match pc c with
  | L193 => calling tr (count c) /\ calls tr = registrations tr
  | L197 => calling tr (count c) /\ calls tr = S (registrations tr)
  | L201 =>
      0 <= count c /\ Z.of_nat (registrations tr) = count c + 1 /\
      calls tr = registrations tr /\ goalie_calls tr = 0%nat /\ claims tr = [] /\
      (NUMTEAMPLAYERS - 1 < 1 \/ count c < NUMTEAMPLAYERS - 1)
  | L202 =>
      1 <= count c /\ Z.of_nat (registrations tr) = count c /\
      calls tr = registrations tr /\ goalie_calls tr = 0%nat /\ claims tr = [] /\
      (NUMTEAMPLAYERS - 1 < 1 \/ count c <= NUMTEAMPLAYERS - 1)
  | L203 =>
      Z.of_nat (calls tr) = NUMTEAMPLAYERS - 1 /\ goalie_calls tr = 0%nat /\
      registrations tr = calls tr /\ 2 <= NUMTEAMPLAYERS /\ claims tr = []
  | L207 =>
      Z.of_nat (calls tr) = NUMTEAMPLAYERS - 1 /\ goalie_calls tr = 1%nat /\
      registrations tr = calls tr /\ 2 <= NUMTEAMPLAYERS /\ claims tr = []
  | L212 =>
      Z.of_nat (calls tr) = NUMTEAMPLAYERS - 1 /\ goalie_calls tr = 1%nat /\
      registrations tr = S (calls tr) /\ 2 <= NUMTEAMPLAYERS /\ claims tr = []
  | L213 | L231 => led tr
  | L142 | L147 | L148 | L150 | L155 | L175 | L177 | L181 | L182 | L183 | L184
  | L186 | L187 | L188 | L189 | L190 | L191 | L217 | L218 | L219 | L220
  | L237 | L242 | L243 => idle tr
  | L223 | L227 => (player_type c = 1 -> led tr) /\ (player_type c <> 1 -> idle tr)
  | L249 => False
  | Exited _ =>
      (goalie_calls tr <> 0%nat ->
         Z.of_nat (calls tr) = NUMTEAMPLAYERS - 1 /\ 2 <= NUMTEAMPLAYERS) /\
      (claims tr <> [] -> led tr)
  | _ => led tr \/ idle tr
  end.

End Calls.

(** ** The match *)

(** The rendezvous of waitReferee and playUntilEnd among the events. *)
Definition is_match_event (e : Event) : bool :=
  match e with
  | EvDown playersWaitReferee | EvUp playing | EvDown playersWaitEnd => true
  | _ => false
  end.

Definition match_events (tr : list (list Event)) : list Event :=
  filter (fun e => is_match_event e = true) (concat tr).

(** The rendezvous of a whole match, in the order of the life cycle. *)
Definition whole_match : list Event :=
  [EvDown playersWaitReferee; EvUp playing; EvDown playersWaitEnd].

(** The rendezvous of the match made so far, by the statement the player
    stands at. *)
Definition match_inv (tr : list (list Event)) (c : Config) : Prop :=
  match pc c with
  | L297 | L302 | L303 | L305 => match_events tr = take 1 whole_match
  | L310 | L315 => match_events tr = take 2 whole_match
  | L125 | Exited 0 => match_events tr = if ret c =? 0 then [] else whole_match
  | Exited _ => match_events tr `prefix_of` whole_match /\
                (ret c = 0 -> match_events tr = [])
  | _ => match_events tr = []
  end.

(** The life of player 0 that arrives first, waits for a team, is called
    into team 1 and finds the referee's signals there: from arrive to the
    end of the process. *)
Definition follower_life :=
  Eval vm_compute in
    run 64 0 start
        (mkMem (mkFullStat (replicate 10 ARRIVING) (replicate 3 G_ARRIVING) 0 0 0 1)
               (mkSemSet 1 1 0 0 0 1 0 1)).

(** ** The status array and the counters in a game *)

(** The status player [i] stored last in the game, if it stored any. *)
Definition shown (i : nat) (tr : list (Actor * list Event)) : option PlayerState :=
  last (stats (of_player i tr)).

(** The team ids claimed in the game (line 212), each with the player that
    claimed it, oldest first. *)
Definition claimed (tr : list (Actor * list Event)) : list (nat * Z) :=
  omap (fun lbl => match lbl with
                   | (Player i, evs) =>
                       match kind evs with
                       | KClaim v => Some (i, v)
                       | _ => None
                       end
                   | (Peer, _) => None
                   end) tr.

(** Four players and a goalie: player 0 has taken the mutex and stored
    ARRIVING (line 147); its next statement is the saveState of line 148. *)
Definition first_store : list (Actor * list Event) * Game :=
  play [(P 0%nat, 2%nat)] (kickoff 4 1 1).

(** The statements of playerConstituteTeam (lines 175 to 252). *)
Definition in_constitute (l : PC) : bool :=
  match l with
  | L175 | L177 | L181 | L182 | L183 | L184
  | L186 | L187 | L188 | L189 | L190 | L191
  | L193 | L197 | L201 | L202 | L203 | L207 | L212 | L213
  | L217 | L218 | L219 | L220
  | L223 | L227 | L231 | L237 | L242 | L243 | L249 | L252 => true
  | _ => false
  end.

(** ** Arguments of main *)

(** The character of a decimal digit, and the numeral that writes the
    digits [ds], most significant first. *)
Definition digit_char (d : Z) : ascii := ascii_of_nat (Z.to_nat (48 + d)).

Fixpoint numeral (ds : list Z) : string :=
  match ds with
  | [] => EmptyString
  | d :: ds' => String (digit_char d) (numeral ds')
  end.

(** The number that the digits [ds] write in [base], on top of [acc]. *)
Definition value_from (base acc : Z) (ds : list Z) : Z :=
  fold_left (fun a d => a * base + d) ds acc.

(** Whether [s] does not start with a digit of [base]. *)
Definition stops (base : Z) (s : string) : bool :=
  match s with
  | String c _ =>
      match digit_of c with
      | Some d => negb (d <? base)
      | None => true
      end
  | EmptyString => true
  end.

(** Whether [s] is made of white space only. *)
Fixpoint blank (s : string) : bool :=
  match s with
  | String c s' => isspace c && blank s'
  | EmptyString => true
  end.

(** ** The name of the log file (line 85 of main)

    [strcpy (nFic, argv[2])] with [static char nFic[51]] (line 35). *)

Definition NUL : ascii := ascii_of_nat 0.

(** The C library's [strcpy (dst, src)] on the array [dst], from index [i]
    on: the characters of [src], then the terminating NUL; the behaviour is
    undefined as soon as one of them falls outside the array. *)
Fixpoint strcpy_at (i : nat) (dst : list ascii) (src : string) : option (list ascii) :=
  match src with
  | EmptyString =>
      if decide (i < length dst)%nat then Some (<[i := NUL]> dst) else None
  | String c s =>
      if decide (i < length dst)%nat then strcpy_at (S i) (<[i := c]> dst) s else None
  end.

Definition strcpy (dst : list ascii) (src : string) : option (list ascii) :=
  strcpy_at 0 dst src.

(** The string that a character array holds: its characters up to the
    first NUL. *)
Fixpoint c_str (buf : list ascii) : string :=
  match buf with
  | [] => EmptyString
  | c :: buf' => if decide (c = NUL) then EmptyString else String c (c_str buf')
  end.

(** [static char nFic[51]], zeroed as every static object is, after line 85
    of main. *)
Definition nFic_after (argv : list string) : option (list ascii) :=
  match argv !! 2%nat with
  | Some name => strcpy (replicate 51 NUL) name
  | None => None
  end.

(** ** Accesses without the mutex *)

(** The statements of [tr] that touch [sh->fSt] while the process does not
    hold the mutex, given whether it holds it at first. *)
Fixpoint unlocked_from (held : bool) (tr : list (list Event)) : list (list Event) :=
  match tr with
  | [] => []
  | evs :: tr' =>
      (if existsb (fun he => negb he.1) (accesses_from held evs) then [evs] else []) ++
      unlocked_from (holding_from held evs) tr'
  end.

Definition unlocked (tr : list (list Event)) : list (list Event) := unlocked_from false tr.

(** The statements from which the read of line 242 can still be reached. *)
Definition before_read_pc (l : PC) : bool :=
  match l with
  | L231 | L243 | L249 | L252 | L119 | L125 | Exited _ => false
  | _ => negb (in_match l)
  end.


(** What is known of the read of line 242, by the statement the player
    stands at. *)
Definition read_inv (tr : list (list Event)) (c : Config) : Prop :=
  unlocked tr = map (fun v => [EvRead LteamId v]) (reads tr) /\
  (before_read_pc (pc c) = true -> reads tr = []) /\
  (length (reads tr) <= 1)%nat /\
  (pc c = L242 -> last tr = Some [EvDown playersWaitTeam]) /\
  (forall v, last tr = Some [EvRead LteamId v] -> pc c = L243).

(** ** System calls *)


(** ** Roles and teams in a game *)

(** No system call among the statements [tr] failed. *)
Definition clean (tr : list (list Event)) : Prop :=
  forall evs s, evs ∈ tr -> EvSemError s ∉ evs.

(** The statements of a leader between its claim of a team id (line 212)
    and its signal on refereeWaitTeams (line 231). *)
Definition awaiting_signal (l : PC) : bool :=
  match l with
  | L213 | L223 | L227 | L231 => true
  | _ => false
  end.

(** What a player that has got to the end of playerConstituteTeam has
    done, by the statement it stands at: it marked itself LATE, or claimed
    a team id, or read one. *)
Definition role_inv (tr : list (list Event)) (c : Config) : Prop :=
  match pc c with
  | L184 => late_marks tr <> []
  | L213 | L231 => claims tr <> []
  | L243 => reads tr <> []
  | L223 | L227 =>
      (player_type c = 0 -> late_marks tr <> []) /\
      (player_type c = 1 -> claims tr <> [])
  | L252 | L119 | L125 | L266 | L271 | L272 | L274 | L279
  | L297 | L302 | L303 | L305 | L310 | L315 =>
      late_marks tr <> [] \/ claims tr <> [] \/ reads tr <> []
  | Exited _ => clean tr -> late_marks tr <> [] \/ claims tr <> [] \/ reads tr <> []
  | _ => True
  end.

(** The team ids read by waiting players in the game (line 242), each with
    the player that read it, oldest first. *)
Definition joined (tr : list (Actor * list Event)) : list (nat * Z) :=
  omap (fun lbl => match lbl with
                   | (Player i, evs) =>
                       match kind evs with
                       | KRead v => Some (i, v)
                       | _ => None
                       end
                   | (Peer, _) => None
                   end) tr.

(** The players that the formations of a history have enrolled, each with
    the id it read: those of the completed formations, then those of the
    formation under way. *)
Definition enrolled (h : History) : list (nat * Z) :=
  concat (map (fun Fv => f_players Fv.1) (formed h)) ++
  match forming h with
  | Some F => f_players F
  | None => []
  end.

(** The players that have taken a place in a team, as leader (line 212) or
    as a player called (line 242), in the order in which they did. *)
Definition teamed (tr : list (Actor * list Event)) : list nat :=
  omap (fun lbl => match lbl with
                   | (Player i, evs) =>
                       match kind evs with
                       | KClaim _ | KRead _ => Some i
                       | _ => None
                       end
                   | (Peer, _) => None
                   end) tr.


(** * Properties *)

(** ** Reading one statement *)

Lemma holding_app (tr evs : list Event) :
  holding (tr ++ evs) = holding_from (holding tr) evs.
Proof. unfold holding, holding_from. apply fold_left_app. Qed.

Lemma waits_from_app (h : bool) (tr evs : list Event) :
  waits_from h (tr ++ evs) = waits_from h tr ++ waits_from (holding_from h tr) evs.
Proof.
  revert h. induction tr as [|e tr IH]; intros h; simpl; [done|].
  rewrite IH, app_assoc. done.
Qed.

Lemma accesses_from_app (h : bool) (tr evs : list Event) :
  accesses_from h (tr ++ evs) = accesses_from h tr ++ accesses_from (holding_from h tr) evs.
Proof.
  revert h. induction tr as [|e tr IH]; intros h; simpl; [done|].
  rewrite IH, app_assoc. done.
Qed.

Lemma concat_snoc {A} (tr : list (list A)) (evs : list A) :
  concat (tr ++ [evs]) = concat tr ++ evs.
Proof. rewrite concat_app. simpl. by rewrite app_nil_r. Qed.

Lemma switch_target_cases (pt : Z) :
  (pt = 0 /\ switch_target pt = L252) \/
  (pt = 1 /\ switch_target pt = L231) \/
  (pt = 2 /\ switch_target pt = L237) \/
  (pt <> 0 /\ pt <> 1 /\ pt <> 2 /\ switch_target pt = L249).
Proof.
  destruct pt as [|[[]|[]|]|]; simpl; intuition congruence.
Qed.

(** Case analysis on the branch a statement took. *)
Ltac branches :=
  repeat match goal with
  | |- context [switch_target ?pt] =>
      let H := fresh "Hsw" in
      destruct (switch_target_cases pt) as [[? H]|[[? H]|[[? H]|(? & ? & ? & H)]]];
      rewrite H in *; clear H
  | H : context [switch_target ?pt] |- _ =>
      let H := fresh "Hsw" in
      destruct (switch_target_cases pt) as [[? H]|[[? H]|[[? H]|(? & ? & ? & H)]]];
      rewrite H in *; clear H
  | |- context [if ?b then _ else _] => destruct b eqn:?Hbr
  | H : context [if ?b then _ else _] |- _ => destruct b eqn:?Hbr
  end.

(** Membership in a list that is written out. *)
Ltac in_list H :=
  simpl in H;
  repeat match type of H with
  | _ ∈ [] => apply elem_of_nil in H; destruct H
  | _ ∈ _ :: _ => apply elem_of_cons in H as [H|H]
  end.

(** An element of a list that is written out. *)
Ltac find_in_list :=
  repeat first [apply list_elem_of_here | apply list_elem_of_further].

(** Case analysis on the statement a step executed. *)
Ltac step_inv H :=
  unfold pstep in H;
  match type of H with
  | context [pc ?c] => destruct (pc c) eqn:?Hpc
  end;
  unfold semDown, semUp, setStat, saveState in H; cbv zeta in H;
  repeat match type of H with
  | context [match semval ?s ?S with _ => _ end] => destruct (semval s S) eqn:?Hsem
  | (if ?b then _ else _) = _ => destruct b eqn:?Hif
  end;
  try discriminate H;
  inversion H; subst; clear H.

Section PlayerAlone.
Context {PCst : ProbConst}.

(** The mutex is held exactly inside the critical regions. *)
Lemma ptrace_holding (id : Z) tr c :
  ptrace id tr c ->
  (exists code, pc c = Exited code) \/ holding (concat tr) = critical (pc c).
Proof.
  induction 1 as [|tr c ok m evs c' m' Htr IH Hstep].
  - right. reflexivity.
  - rewrite concat_snoc, holding_app.
    destruct IH as [[code Hex]|IH].
    { unfold pstep in Hstep. rewrite Hex in Hstep. discriminate. }
    rewrite IH.
    step_inv Hstep; simpl; branches; try (right; reflexivity); left; eauto.
Qed.

End PlayerAlone.

Section PlayerTraces.
Context {PCst : ProbConst}.

(** A run of the player alone is one of its behaviours. *)
Lemma run_ptrace (id : Z) (fuel : nat) : forall tr c m tr' c' m',
  ptrace id tr c -> run fuel id c m = (tr', c', m') -> ptrace id (tr ++ tr') c'.
Proof.
  induction fuel as [|fuel IH]; intros tr c m tr' c' m' Htr Hrun; simpl in Hrun.
  - inversion Hrun; subst. by rewrite app_nil_r.
  - destruct (pstep id true c m) as [evs c1 m1| | |] eqn:Hstep;
      try (inversion Hrun; subst; by rewrite app_nil_r).
    destruct (run fuel id c1 m1) as [[tr1 c2] m2] eqn:Hrest.
    inversion Hrun; subst.
    replace (tr ++ evs :: tr1) with ((tr ++ [evs]) ++ tr1) by (by rewrite <- app_assoc).
    eapply IH; [|exact Hrest]. econstructor; eauto.
Qed.

Lemma run_from_start (id : Z) (fuel : nat) m tr c m' :
  run fuel id start m = (tr, c, m') -> ptrace id tr c.
Proof. intros H. apply (run_ptrace id fuel [] start m tr c m' (ptrace_start id) H). Qed.

End PlayerTraces.

(** ** C4: waits and the mutex *)

Lemma leader_run_ptrace : ptrace 3 (leader_run.1.1) (leader_run.1.2).
Proof. apply (run_from_start 3 19 (mem_with 3 3 1 1 0 1) _ _ (leader_run.2)). reflexivity. Qed.

(** C4, as stated, fails: the leader waits on playerRegistered (line 197)
    between its semDown of the mutex (line 177) and its semUp (line 223). *)
Lemma wait_while_holding_mutex :
  ~ (forall (id : Z) tr c, ptrace id tr c ->
       forall s, (true, s) ∉ waits (concat tr)).
Proof.
  intros H. apply (H 3 _ _ leader_run_ptrace playerRegistered).
  vm_compute. find_in_list.
Qed.

Section Waits.
Context {PCst : ProbConst}.

(** C4 (amended).  In every behaviour of the player, a wait on a rendezvous
    channel is made with the mutex held exactly when it is a wait on
    playerRegistered, the leader's wait for a registration (lines 197 and
    207, before the semUp of line 223): the waits on playersWaitTeam,
    playersWaitReferee and playersWaitEnd are all made with the mutex
    released. *)
Theorem waits_and_mutex (id : Z) tr c :
  ptrace id tr c ->
  forall (h : bool) (s : Sem), (h, s) ∈ waits (concat tr) ->
    (h = true <-> s = playerRegistered).
Proof.
  induction 1 as [|tr c ok m evs c' m' Htr IH Hstep]; intros h s Hin.
  - unfold waits in Hin. in_list Hin.
  - rewrite concat_snoc in Hin. unfold waits in Hin.
    rewrite waits_from_app in Hin. apply elem_of_app in Hin as [Hin|Hin].
    { by apply IH. }
    fold (holding (concat tr)) in Hin.
    destruct (ptrace_holding id tr c Htr) as [[code Hex]|Hh].
    { unfold pstep in Hstep. rewrite Hex in Hstep. discriminate. }
    rewrite Hh in Hin. clear IH Hh.
    step_inv Hstep; in_list Hin; inversion Hin; subst; split; congruence.
Qed.

End Waits.

Lemma waits_and_mutex_witness :
  ptrace 3 (leader_run.1.1) (leader_run.1.2) /\
  (true, playerRegistered) ∈ waits (concat (leader_run.1.1)) /\
  forall (h : bool) (s : Sem), (h, s) ∈ waits (concat (leader_run.1.1)) ->
    (h = true <-> s = playerRegistered).
Proof.
  split; [exact leader_run_ptrace|]. split.
  - vm_compute. find_in_list.
  - exact (waits_and_mutex 3 _ _ leader_run_ptrace).
Defined.

(** ** C5: accesses to the shared record and the mutex *)

Lemma follower_run_ptrace : ptrace 0 (follower_run.1.1) (follower_run.1.2).
Proof. apply (run_from_start 0 19 (mem_with 0 0 0 1 1 0) _ _ (follower_run.2)). reflexivity. Qed.

(** C5, as stated, fails: the waiting player reads teamId (line 242) after
    its semUp of the mutex (line 223). *)
Lemma read_outside_critical_region :
  ~ (forall (id : Z) tr c, ptrace id tr c ->
       forall (h : bool) (e : Event), (h, e) ∈ accesses (concat tr) -> h = true).
Proof.
  intros H.
  assert (Hin : (false, EvRead LteamId 1) ∈ accesses (concat (follower_run.1.1))).
  { vm_compute. find_in_list. }
  specialize (H 0 _ _ follower_run_ptrace _ _ Hin). discriminate.
Qed.

Lemma reads_snoc tr evs :
  reads (tr ++ [evs]) = reads tr ++ match kind evs with KRead v => [v] | _ => [] end.
Proof.
  unfold reads. rewrite omap_app. f_equal. simpl.
  destruct (kind evs); reflexivity.
Qed.

Lemma holding_from_app (h : bool) (tr evs : list Event) :
  holding_from h (tr ++ evs) = holding_from (holding_from h tr) evs.
Proof. unfold holding_from. apply fold_left_app. Qed.

Lemma unlocked_from_snoc (tr : list (list Event)) : forall (h : bool) (evs : list Event),
  unlocked_from h (tr ++ [evs]) =
  unlocked_from h tr ++
  (if existsb (fun he => negb he.1) (accesses_from (holding_from h (concat tr)) evs)
   then [evs] else []).
Proof.
  induction tr as [|e tr IH]; intros h evs; simpl.
  - by rewrite app_nil_r.
  - rewrite IH, holding_from_app, app_assoc. done.
Qed.

Lemma unlocked_snoc (tr : list (list Event)) (evs : list Event) :
  unlocked (tr ++ [evs]) =
  unlocked tr ++
  (if existsb (fun he => negb he.1) (accesses_from (holding (concat tr)) evs)
   then [evs] else []).
Proof. apply unlocked_from_snoc. Qed.

Section ReadOfTeamId.
Context {PCst : ProbConst}.

Lemma ptrace_read (id : Z) tr c : ptrace id tr c -> read_inv tr c.
Proof.
  induction 1 as [|tr c ok m evs c' m' Htr IH Hstep].
  { unfold read_inv; simpl. repeat split; try done. lia. }
  destruct IH as (Hun & Hbefore & Hlen & H242 & H243).
  destruct (ptrace_holding id tr c Htr) as [[code Hex]|Hh].
  { unfold pstep in Hstep. rewrite Hex in Hstep. discriminate. }
  unfold read_inv.
  rewrite unlocked_snoc, reads_snoc, Hh, last_snoc, length_app, map_app, Hun.
  step_inv Hstep; simpl in *; branches; simpl in *; rewrite ?app_nil_r, ?Nat.add_0_r.
  all: repeat match goal with
       | H : true = true -> _ |- _ => specialize (H eq_refl)
       | H : ?x = ?x -> _ |- _ => specialize (H eq_refl)
       end.
  all: repeat split; try done; try lia; try (intros; congruence).
  rewrite Hbefore. simpl. lia.
Qed.

(** C5 (amended).  In every behaviour of the player, the accesses to the
    shared record made without the mutex are those of one kind of statement,
    the read [ret = sh->fSt.teamId] of line 242 by which a waiting player
    learns its team: a player makes it at most once, right after its wait on
    playersWaitTeam has come back and before anything else, its signal on
    playerRegistered included.  Every write, every access to the status
    array, every snapshot and every other read, the read of teamId in the
    leader's [ret = sh->fSt.teamId++] of line 212 with them, is made
    between a semDown and the semUp of the mutex. *)
Theorem accesses_and_mutex (id : Z) tr c :
  ptrace id tr c ->
  (forall (h : bool) (e : Event), (h, e) ∈ accesses (concat tr) ->
     h = true \/ (exists v, e = EvRead LteamId v /\ v ∈ reads tr)) /\
  unlocked tr = map (fun v => [EvRead LteamId v]) (reads tr) /\
  (length (reads tr) <= 1)%nat /\
  (forall k v w, tr !! k = Some [EvRead LteamId v; EvWrite LteamId w] ->
     holding (concat (take k tr)) = true) /\
  (forall k v, tr !! k = Some [EvRead LteamId v] ->
     holding (concat (take k tr)) = false /\
     (exists k', k = S k' /\ tr !! k' = Some [EvDown playersWaitTeam]) /\
     (forall evs, tr !! S k = Some evs ->
        evs = [EvUp playerRegistered] \/
        evs = [EvSemError playerRegistered; EvPerror; EvExit EXIT_FAILURE])).
Proof.
  intros Htr.
  destruct (ptrace_read id tr c Htr) as (Hun & _ & Hlen & _).
  split; [|split; [exact Hun|split; [exact Hlen|]]].
  - clear Hun Hlen.
    induction Htr as [|tr c ok m evs c' m' Htr IH Hstep]; intros h e Hin.
    { unfold accesses in Hin. in_list Hin. }
    rewrite concat_snoc in Hin. unfold accesses in Hin.
    rewrite accesses_from_app in Hin. rewrite reads_snoc.
    apply elem_of_app in Hin as [Hin|Hin].
    { destruct (IH h e Hin) as [?|(v & ? & ?)]; [by left|].
      right. exists v. split; [done|]. apply elem_of_app. by left. }
    fold (holding (concat tr)) in Hin.
    destruct (ptrace_holding id tr c Htr) as [[code Hex]|Hh].
    { unfold pstep in Hstep. rewrite Hex in Hstep. discriminate. }
    rewrite Hh in Hin. clear IH Hh.
    step_inv Hstep; in_list Hin; inversion Hin; subst; try (by left).
    right. eexists. split; [reflexivity|]. apply elem_of_app. right. apply list_elem_of_here.
  - clear Hun Hlen.
    induction Htr as [|tr c ok m evs c' m' Htr [IHc IHr] Hstep].
    { split; [intros k v w H|intros k v H]; done. }
    destruct (ptrace_read id tr c Htr) as (_ & _ & _ & H242 & H243).
    destruct (ptrace_holding id tr c Htr) as [[code Hex]|Hh].
    { unfold pstep in Hstep. rewrite Hex in Hstep. discriminate. }
    split.
    + intros k v w Hk. apply lookup_app_Some in Hk as [Hk|[Hge Hk]].
      * rewrite take_app_le by (apply lookup_lt_Some in Hk; lia). by eapply IHc.
      * apply list_lookup_singleton_Some in Hk as [Hk0 ->].
        assert (k = length tr) by lia. subst k.
        rewrite take_app_le, firstn_all by lia. rewrite Hh.
        step_inv Hstep; reflexivity.
    + intros k v Hk. apply lookup_app_Some in Hk as [Hk|[Hge Hk]].
      * pose proof (lookup_lt_Some _ _ _ Hk) as Hlt.
        destruct (IHr k v Hk) as (Hk1 & (k' & -> & Hk2) & Hk3).
        rewrite take_app_le by lia. split; [done|]. split.
        { exists k'. split; [done|]. apply lookup_app_l_Some. done. }
        intros evs' Hnext. apply lookup_app_Some in Hnext as [Hnext|[Hge Hnext]];
          [by apply Hk3|].
        apply list_lookup_singleton_Some in Hnext as [Hn0 <-].
        assert (Hlast : last tr = Some [EvRead LteamId v]).
        { rewrite last_lookup. replace (Nat.pred (length tr)) with (S k') by lia. done. }
        specialize (H243 v Hlast).
        step_inv Hstep; try discriminate; auto.
      * apply list_lookup_singleton_Some in Hk as [Hk0 Hevs].
        assert (k = length tr) by lia. subst k.
        rewrite take_app_le, firstn_all by lia. rewrite Hh.
        assert (Hpc : pc c = L242).
        { step_inv Hstep; try discriminate; reflexivity. }
        rewrite Hpc. split; [reflexivity|]. specialize (H242 Hpc). split.
        { rewrite last_lookup in H242.
          destruct tr as [|e0 tr0]; [done|]. simpl in H242.
          exists (length tr0). split; [done|]. apply lookup_app_l_Some. done. }
        intros evs' Hnext. apply lookup_lt_Some in Hnext.
        rewrite length_app in Hnext. simpl in Hnext. lia.
Qed.
End ReadOfTeamId.

Lemma accesses_and_mutex_witness :
  ptrace 0 (follower_run.1.1) (follower_run.1.2) /\
  reads (follower_run.1.1) = [1] /\
  unlocked (follower_run.1.1) = [[EvRead LteamId 1]] /\
  (forall (h : bool) (e : Event), (h, e) ∈ accesses (concat (follower_run.1.1)) ->
     h = true \/ (exists v, e = EvRead LteamId v /\ v ∈ reads (follower_run.1.1))) /\
  (forall k v, follower_run.1.1 !! k = Some [EvRead LteamId v] ->
     holding (concat (take k (follower_run.1.1))) = false /\
     exists k', k = S k' /\ follower_run.1.1 !! k' = Some [EvDown playersWaitTeam]).
Proof.
  split; [exact follower_run_ptrace|]. split; [reflexivity|].
  destruct (accesses_and_mutex 0 _ _ follower_run_ptrace) as (Hacc & Hun & _ & _ & Hread).
  split; [exact Hun|]. split; [exact Hacc|].
  intros k v Hk. destruct (Hread k v Hk) as (Hh & Hprev & _). split; [exact Hh|exact Hprev].
Defined.

(** ** C2: the late player *)

Section Late.
Context {PCst : ProbConst}.

(** C2.  A call of playerConstituteTeam that finds, after its increment of
    playersArrived (which stays within the range of an int), more than 8
    arrivals: the player is marked LATE, the record with that mark is saved,
    the mutex is given back, no rendezvous channel is signalled or waited
    on, and the call returns 0. *)
Theorem late_player_leaves (id : Z) (c : Config) (m : Mem) :
  pc c = L175 ->
  (0 < v_mutex (semgid m))%nat ->
  in_bounds id (playerStat (fSt m)) = true ->
  8 < playersArrived (fSt m) + 1 ->
  playersArrived (fSt m) + 1 <= INT_MAX ->
  exists c' m',
    run 9 id c m =
      ([ []; [EvDown mutex]; [];
         [EvRead LplayersArrived (playersArrived (fSt m));
          EvWrite LplayersArrived (playersArrived (fSt m) + 1)];
         [EvStat id LATE]; [EvSave (fSt m')]; [EvUp mutex]; [];
         [EvReturn 0] ], c', m')
    /\ rendezvous_ops (concat (run 9 id c m).1.1) = []
    /\ pc c' = L119 /\ ret c' = 0
    /\ playerStat (fSt m') !! Z.to_nat id = Some LATE
    /\ playersArrived (fSt m') = playersArrived (fSt m) + 1
    /\ 8 < playersArrived (fSt m') <= INT_MAX
    /\ semgid m' = semgid m.
Proof.
  intros Hpc Hmutex Hid Hlate Hmax.
  destruct c as [l r k pt t]; simpl in Hpc; subst l.
  destruct m as [f S]; simpl in *.
  destruct S as [mx pw gw pr rw pwr pl pwe]; simpl in *.
  destruct mx as [|mx]; [lia|].
  apply Z.ltb_lt in Hlate.
  unfold run, pstep, semDown, semUp, setStat, saveState; simpl.
  rewrite Hlate; simpl. rewrite Hid; simpl.
  eexists _, (mkMem _ _). split; [reflexivity|]. simpl.
  apply Z.ltb_lt in Hlate.
  repeat split; try done.
  apply list_lookup_insert_eq.
  unfold in_bounds in Hid. apply andb_prop in Hid as [H0 H1].
  apply Z.leb_le in H0. apply Z.ltb_lt in H1. lia.
Qed.

End Late.

Lemma late_player_leaves_witness :
  exists c' m',
    run 9 8 (mkConfig L175 0 0 0 0) (mem_with 8 2 0 3 0 0) =
      ([ []; [EvDown mutex]; [];
         [EvRead LplayersArrived 8; EvWrite LplayersArrived 9];
         [EvStat 8 LATE]; [EvSave (fSt m')]; [EvUp mutex]; [];
         [EvReturn 0] ], c', m')
    /\ rendezvous_ops (concat (run 9 8 (mkConfig L175 0 0 0 0) (mem_with 8 2 0 3 0 0)).1.1) = []
    /\ pc c' = L119 /\ ret c' = 0
    /\ playerStat (fSt m') !! Z.to_nat 8 = Some LATE
    /\ playersArrived (fSt m') = 8 + 1
    /\ 8 < playersArrived (fSt m') <= INT_MAX
    /\ semgid m' = semgid (mem_with 8 2 0 3 0 0).
Proof.
  apply (late_player_leaves 8 (mkConfig L175 0 0 0 0) (mem_with 8 2 0 3 0 0)).
  - reflexivity.
  - simpl. lia.
  - reflexivity.
  - simpl. lia.
  - by vm_compute.
Defined.

(** ** C9 and C10: what the call returns and what main does with it *)

Lemma returns_snoc tr evs :
  returns (tr ++ [evs]) = returns tr ++ match evs with [EvReturn r] => [r] | _ => [] end.
Proof.
  unfold returns. rewrite omap_app. f_equal.
  destruct evs as [|[] [|]]; reflexivity.
Qed.

Lemma claims_snoc tr evs :
  claims (tr ++ [evs]) =
  claims tr ++ match kind evs with KClaim v => [v] | _ => [] end.
Proof.
  unfold claims. rewrite omap_app. f_equal. simpl.
  destruct (kind evs); reflexivity.
Qed.

Lemma late_marks_snoc tr evs :
  late_marks (tr ++ [evs]) =
  late_marks tr ++ match evs with [EvStat id LATE] => [id] | _ => [] end.
Proof.
  unfold late_marks. rewrite omap_app. f_equal.
  destruct evs as [|[| | | | |? []| | | | | | |] [|]]; reflexivity.
Qed.

Section Life.
Context {PCst : ProbConst}.

Lemma ptrace_life (id : Z) tr c : ptrace id tr c -> life_inv tr c.
Proof.
  induction 1 as [|tr c ok m evs c' m' Htr IH Hstep].
  - unfold life_inv, returns, claims, late_marks; simpl.
    repeat split; intros; try in_list H; try discriminate; try (destruct H as [|[|]]; discriminate).
    destruct H; discriminate.
  - destruct IH as (Hret & Hcl & Hlate & Hmatch & H0 & Hpt0 & Hpt & H249).
    unfold life_inv. rewrite returns_snoc, claims_snoc, late_marks_snoc.
    step_inv Hstep; simpl in *; branches; simpl in *; rewrite ?app_nil_r.
    all: unfold after_claim, after_late in *; simpl in *.
    all: repeat match goal with |- _ /\ _ => split end; intros.
    all: repeat match goal with
         | H : _ ∈ _ ++ _ |- _ => apply elem_of_app in H as [H|H]
         | H : _ ∈ returns _ |- _ => apply Hret in H; rewrite ?Hpc in H; simpl in H
         | H : _ ∈ claims _ |- _ => apply Hcl in H; rewrite ?Hpc in H; simpl in H
         | H : _ ∈ late_marks _ |- _ => apply Hlate in H; rewrite ?Hpc in H; simpl in H
         end.
    all: try (in_list H).
    all: rewrite ?Hpc in *; simpl in *.
    all: try (intuition (subst; simpl in *; try congruence; try lia); fail).
Qed.


(** C10.  In every behaviour of the player: main goes on to waitReferee
    exactly when the call returned a value other than 0, and to the end of
    the process when it returned 0; a leader returns the value of teamId it
    read before incrementing it; so a leader that claims team id 0 returns
    0 and, like a player marked LATE, never runs waitReferee or
    playUntilEnd. *)
Theorem leader_of_team_zero_skips_match (id : Z) tr c :
  ptrace id tr c ->
  (pc c = L119 -> forall ok m, exists c',
     pstep id ok c m = Next [] c' m /\ team c' = ret c /\
     (ret c = 0 -> pc c' = L125) /\ (ret c <> 0 -> pc c' = L266)) /\
  (in_match (pc c) = true -> forall r, r ∈ returns tr -> r <> 0) /\
  (forall v r, v ∈ claims tr -> r ∈ returns tr -> r = v) /\
  (0 ∈ claims tr ->
     in_match (pc c) = false /\ forall r, r ∈ returns tr -> r = 0) /\
  (forall i, i ∈ late_marks tr ->
     in_match (pc c) = false /\ forall r, r ∈ returns tr -> r = 0).
Proof.
  intros Htr.
  destruct (ptrace_life id tr c Htr) as (Hret & Hcl & Hlate & Hmatch & _).
  repeat split.
  - intros Hpc ok m. unfold pstep. rewrite Hpc. eexists. split; [reflexivity|]. simpl.
    repeat split; intros H.
    + by rewrite H.
    + apply Z.eqb_neq in H. by rewrite H.
  - intros Hm r Hr. apply Hret in Hr as [-> _]. by apply Hmatch.
  - intros v r Hv Hr. apply Hret in Hr as [-> _]. apply Hcl in Hv as [-> _]. done.
  - apply Hcl in H as [H0 _]. destruct (in_match (pc c)) eqn:Hm; [|done].
    exfalso. apply Hmatch; [reflexivity|congruence].
  - intros r Hr. apply Hret in Hr as [-> _]. apply Hcl in H as [H0 _]. done.
  - apply Hlate in H as [H0 _]. destruct (in_match (pc c)) eqn:Hm; [|done].
    exfalso. apply Hmatch; [reflexivity|congruence].
  - intros r Hr. apply Hret in Hr as [-> _]. apply Hlate in H as [H0 _]. done.
Qed.

(** The default branch of the switch of line 227.  Its text reports a
    diagnostic and then returns [ret] like the other branches, without the
    exit that follows every other perror of the function; and the branch is
    dead: every behaviour of the player that stands at the switch has a
    player_type of 0, 1 or 2. *)
Lemma default_branch_text (id : Z) (c : Config) (m : Mem) :
  pc c = L227 ->
  player_type c <> 0 -> player_type c <> 1 -> player_type c <> 2 ->
  run 3 id c m = ([ []; [EvPerror]; [EvReturn (ret c)] ], goto L119 c, m).
Proof.
  intros Hpc H0 H1 H2. unfold run, pstep. rewrite Hpc. simpl.
  destruct (switch_target_cases (player_type c)) as [[? _]|[[? _]|[[? _]|(_ & _ & _ & ->)]]];
    try done.
Qed.

Lemma default_branch_is_dead (id : Z) tr c :
  ptrace id tr c -> pc c = L227 ->
  player_type c = 0 \/ player_type c = 1 \/ player_type c = 2.
Proof.
  intros Htr Hpc. apply ptrace_life in Htr.
  destruct Htr as (_ & _ & _ & _ & _ & _ & Hpt & _). auto.
Qed.

End Life.

Lemma leader_zero_run_ptrace : ptrace 3 (leader_zero_run.1.1) (leader_zero_run.1.2).
Proof. apply (run_from_start 3 40 (mem_with 3 3 1 0 0 4) _ _ (leader_zero_run.2)). reflexivity. Qed.

Lemma leader_of_team_zero_skips_match_witness :
  claims (leader_zero_run.1.1) = [0] /\
  returns (leader_zero_run.1.1) = [0] /\
  pc (leader_zero_run.1.2) = Exited EXIT_SUCCESS /\
  (0 ∈ claims (leader_zero_run.1.1) ->
     in_match (pc (leader_zero_run.1.2)) = false /\
     forall r, r ∈ returns (leader_zero_run.1.1) -> r = 0).
Proof.
  split; [reflexivity|]. split; [reflexivity|]. split; [reflexivity|].
  exact (proj1 (proj2 (proj2 (proj2
    (leader_of_team_zero_skips_match 3 _ _ leader_zero_run_ptrace))))).
Defined.

(** ** C8: the validation of the command line *)

Section MainValidation.
Context {PCst : ProbConst}.

(** A wrong number of arguments ends the process before the life cycle. *)
Lemma wrong_argc_is_fatal (argv : list string) :
  length argv <> 4%nat ->
  main_validate argv = StartFailure "Number of parameters is incorrect!".
Proof.
  intros H. unfold main_validate.
  destruct (length argv =? 4)%nat eqn:E; [|done].
  apply Nat.eqb_eq in E. done.
Qed.

(** Text after the number, or a number of NUMPLAYERS or more, ends the
    process too: the player number the life cycle is run for is below
    NUMPLAYERS. *)
Lemma validated_id_below_NUMPLAYERS (argv : list string) (n : Z) :
  main_validate argv = StartLifeCycle n ->
  length argv = 4%nat /\ n < NUMPLAYERS /\ - 2 ^ 31 <= n < 2 ^ 31.
Proof.
  unfold main_validate. intros H.
  destruct (length argv =? 4)%nat eqn:E; [|done]. simpl in H.
  apply Nat.eqb_eq in E.
  destruct (argv !! 1%nat) as [arg|]; [|done].
  destruct (strtol arg) as [v tinp].
  destruct (negb (tinp =? "")%string || (NUMPLAYERS <=? to_int (to_unsigned_int v))) eqn:E2;
    [done|].
  inversion H; subst. apply orb_false_elim in E2 as [_ E2].
  apply Z.leb_gt in E2. split; [done|]. split; [done|].
  unfold to_int. set (w := to_unsigned_int v mod 2 ^ 32).
  assert (0 <= w < 2 ^ 32) by (apply Z.mod_pos_bound; lia).
  destruct (w <? 2 ^ 31) eqn:E3; [apply Z.ltb_lt in E3|apply Z.ltb_ge in E3]; lia.
Qed.

(** C8 fails on the code.  With the argument "-1", strtol gives -1, the
    cast to unsigned int 4294967295, and the store into the [int] n makes it
    -1 again; -1 >= NUMPLAYERS is false, so the validation lets the process
    through with player number -1, and the first store of arrive,
    playerStat[-1] = ARRIVING, falls outside the status array. *)
Theorem negative_id_passes_validation :
  0 <= NUMPLAYERS ->
  main_validate ["player"; "-1"; "log"; "err"]%string = StartLifeCycle (-1) /\
  ~ (0 <= -1 < NUMPLAYERS) /\
  forall m : Mem, pstep (-1) true (mkConfig L147 0 0 0 0) m = Undefined.
Proof.
  intros H. split; [|split].
  - unfold main_validate. simpl.
    replace (NUMPLAYERS <=? to_int (to_unsigned_int (-1))) with false; [done|].
    symmetry. apply Z.leb_gt. vm_compute to_int. lia.
  - lia.
  - intros m. reflexivity.
Qed.

End MainValidation.

Lemma negative_id_passes_validation_witness :
  main_validate ["player"; "-1"; "log"; "err"]%string = StartLifeCycle (-1) /\
  ~ (0 <= -1 < NUMPLAYERS) /\
  forall m : Mem, pstep (-1) true (mkConfig L147 0 0 0 0) m = Undefined.
Proof. apply negative_id_passes_validation. simpl. lia. Defined.

(** ** The game: mutual exclusion and the counters of free members *)

Lemma standing_insert (P : PC -> bool) (ps : list Config) (i : nat) (c c' : Config) :
  ps !! i = Some c ->
  (standing P (<[i := c']> ps) + Nat.b2n (P (pc c)) =
   standing P ps + Nat.b2n (P (pc c')))%nat.
Proof.
  unfold standing. revert i.
  induction ps as [|d ps IH]; intros [|i] H; simpl in *; try done.
  - inversion H; subst. lia.
  - specialize (IH i H). lia.
Qed.

Lemma standing_one (P : PC -> bool) (ps : list Config) (i : nat) (c : Config) :
  ps !! i = Some c -> P (pc c) = true -> (1 <= standing P ps)%nat.
Proof.
  unfold standing. revert i.
  induction ps as [|d ps IH]; intros [|i] H HP; simpl in *; try done.
  - inversion H; subst. rewrite HP. simpl. lia.
  - specialize (IH i H HP). lia.
Qed.

Lemma standing_two (P : PC -> bool) (ps : list Config) (i j : nat) (c d : Config) :
  ps !! i = Some c -> ps !! j = Some d -> i <> j ->
  P (pc c) = true -> P (pc d) = true -> (2 <= standing P ps)%nat.
Proof.
  revert i j. unfold standing.
  induction ps as [|e ps IH]; intros [|i] [|j] Hi Hj Hij Hc Hd; simpl in *; try done.
  - inversion Hi; subst. rewrite Hc. simpl.
    pose proof (standing_one P ps j d Hj Hd). unfold standing in *. lia.
  - inversion Hj; subst. rewrite Hd. simpl.
    pose proof (standing_one P ps i c Hi Hc). unfold standing in *. lia.
  - assert (i <> j) by congruence.
    specialize (IH i j Hi Hj H Hc Hd). lia.
Qed.

Lemma standing_none (P : PC -> bool) (ps : list Config) :
  Forall (fun c => c = start) ps -> P L142 = false -> standing P ps = 0%nat.
Proof.
  unfold standing. induction 1 as [|c ps Hc _ IH]; intros HP; simpl; [done|].
  subst c. simpl. rewrite HP. simpl. by apply IH.
Qed.

Section Statements.
Context {PCst : ProbConst}.

(** A statement enters a critical region by taking the mutex and leaves it
    by giving it back. *)
Lemma pstep_mutex id ok c m evs c' m' :
  pstep id ok c m = Next evs c' m' ->
  (Nat.b2n (critical (pc c')) + v_mutex (semgid m') <=
   Nat.b2n (critical (pc c)) + v_mutex (semgid m))%nat.
Proof.
  intros H. step_inv H; simpl in *; branches; simpl; lia.
Qed.

(** Outside the critical regions no statement writes [sh->fSt]. *)
Lemma pstep_outside_fSt id ok c m evs c' m' :
  pstep id ok c m = Next evs c' m' -> critical (pc c) = false -> fSt m' = fSt m.
Proof.
  intros H Hc. step_inv H; simpl in *; try discriminate; reflexivity.
Qed.

(** What one statement does to the counters of free players and goalies:
    nothing, or the +1 of line 217, or the -3 of line 187, or the -1 of
    line 188. *)
Lemma pstep_free_delta id ok c m evs c' m' :
  pstep id ok c m = Next evs c' m' ->
  (playersFree (fSt m') = playersFree (fSt m) /\ goaliesFree (fSt m') = goaliesFree (fSt m)) \/
  (pc c = L217 /\ playersFree (fSt m') = playersFree (fSt m) + 1 /\
   goaliesFree (fSt m') = goaliesFree (fSt m)) \/
  (pc c = L187 /\ playersFree (fSt m') = playersFree (fSt m) - 3 /\
   goaliesFree (fSt m') = goaliesFree (fSt m)) \/
  (pc c = L188 /\ playersFree (fSt m') = playersFree (fSt m) /\
   goaliesFree (fSt m') = goaliesFree (fSt m) - 1).
Proof.
  intros H. step_inv H; simpl in *; auto 10.
Qed.

(** A player reaches the reservation of line 187 only through the test of
    line 186. *)
Lemma pstep_reserve id ok c m evs c' m' :
  pstep id ok c m = Next evs c' m' ->
  0 <= goaliesFree (fSt m) ->
  (pc c' = L187 -> pc c = L186 /\ fSt m' = fSt m /\
                   3 <= playersFree (fSt m) /\ 1 <= goaliesFree (fSt m)) /\
  (pc c' = L188 -> pc c = L187).
Proof.
  intros H Hg. step_inv H; simpl in *; branches; split; intros; try discriminate; try done.
  apply Z.leb_le in Hif. apply Z.eqb_neq in Hbr. repeat split; try done; lia.
Qed.

End Statements.

Section Game.
Context {PCst : ProbConst} {E : Type}.
Variable peer_step : E -> Mem -> list Event -> E -> Mem -> Prop.
Variable peer_holds : E -> nat.
Hypothesis peers_ok : disciplined peer_step peer_holds.

Lemma initial_inv (σ : Sys E) :
  initial peer_holds σ -> mutex_inv peer_holds σ /\ free_inv σ.
Proof.
  intros (Hps & Hpeers & Hsem & Ha & Hf & Hg). split.
  - unfold mutex_inv. rewrite Hpeers, Hsem. simpl.
    rewrite (standing_none critical _ Hps); [lia|done].
  - unfold free_inv. rewrite Hf, Hg. split; [lia|]. split; [lia|].
    intros i c Hi. rewrite Forall_lookup in Hps. apply Hps in Hi. subst c.
    split; intros; discriminate.
Qed.

Lemma step_inv_preserved (σ σ' : Sys E) lbl :
  sys_step peer_step σ lbl σ' ->
  mutex_inv peer_holds σ -> free_inv σ ->
  mutex_inv peer_holds σ' /\ free_inv σ'.
Proof.
  intros Hstep Hmx (Hpf & Hgf & Hres).
  destruct Hstep as [σ i c ok evs c' m' Hi Hstep|σ evs e' m' Hstep]; unfold mutex_inv, free_inv in *; simpl.
  - pose proof (standing_insert critical _ i c c' Hi) as Hins.
    pose proof (pstep_mutex _ _ _ _ _ _ _ Hstep) as Hm.
    split; [lia|].
    destruct (Hres i c Hi) as [H187 H188].
    pose proof (pstep_free_delta _ _ _ _ _ _ _ Hstep) as Hd.
    pose proof (pstep_reserve _ _ _ _ _ _ _ Hstep Hgf) as [Hr187 Hr188].
    assert (Hfree : 0 <= playersFree (fSt m') /\ 0 <= goaliesFree (fSt m')).
    { destruct Hd as [[-> ->]|[(_ & -> & ->)|[(Hpc & -> & ->)|(Hpc & -> & ->)]]];
        try (split; lia).
      - destruct (H187 Hpc). lia.
      - specialize (H188 Hpc). lia. }
    destruct Hfree as [Hpf' Hgf']. split; [done|]. split; [done|].
    intros j d Hj.
    destruct (decide (j = i)) as [->|Hne].
    + rewrite list_lookup_insert_eq in Hj by (by eapply lookup_lt_Some).
      inversion Hj; subst d. split.
      * intros Hpc. destruct (Hr187 Hpc) as (_ & -> & ? & ?). done.
      * intros Hpc. specialize (Hr188 Hpc). destruct (H187 Hr188) as [_ ?].
        destruct Hd as [[_ ->]|[(? & _)|[(_ & _ & ->)|(? & _)]]]; congruence.
    + rewrite list_lookup_insert_ne in Hj by done.
      destruct (critical (pc c)) eqn:Hc.
      * assert (critical (pc d) = false) as Hd'.
        { destruct (critical (pc d)) eqn:Hcd; [|done].
          pose proof (standing_two critical _ i j c d Hi Hj (not_eq_sym Hne) Hc Hcd). lia. }
        split; intros Hpc; rewrite Hpc in Hd'; discriminate.
      * rewrite (pstep_outside_fSt _ _ _ _ _ _ _ Hstep Hc). by apply (Hres j).
  - pose proof (peers_mutex _ _ peers_ok _ _ _ _ _ Hstep) as Hm.
    split; [lia|].
    destruct (peers_keep_free _ _ peers_ok _ _ _ _ _ Hstep Hpf Hgf) as [Hpf' Hgf'].
    split; [done|]. split; [done|].
    intros j d Hj.
    assert (Hcrit : pc d = L187 \/ pc d = L188 -> fSt m' = fSt (mem σ)).
    { intros Hpc. apply (peers_write_locked _ _ peers_ok _ _ _ _ _ Hstep).
      assert (critical (pc d) = true) as Hcd by (destruct Hpc as [->| ->]; done).
      pose proof (standing_one critical _ j d Hj Hcd). lia. }
    destruct (Hres j d Hj) as [H187 H188].
    split; intros Hpc; rewrite Hcrit by auto; auto.
Qed.

Lemma reach_inv (σ0 σ : Sys E) tr :
  initial peer_holds σ0 -> reach peer_step σ0 tr σ ->
  mutex_inv peer_holds σ /\ free_inv σ.
Proof.
  intros Hinit. induction 1 as [|tr σ lbl σ' _ IH Hstep].
  - by apply initial_inv.
  - destruct IH. by eapply step_inv_preserved.
Qed.

(** C6.  In every state the game can reach, playersFree and goaliesFree
    are not negative.  A statement of a player changes them only by the +1
    of line 217, by the -3 of line 187 and by the -1 of line 188; the last
    two are made inside one critical region, and when the -3 is made
    playersFree is at least 3 and goaliesFree at least 1. *)
Theorem free_counters_not_negative (σ0 σ : Sys E) tr :
  initial peer_holds σ0 -> reach peer_step σ0 tr σ ->
  0 <= playersFree (fSt (mem σ)) /\ 0 <= goaliesFree (fSt (mem σ)) /\
  forall i evs σ', sys_step peer_step σ (Player i, evs) σ' ->
    let pf := playersFree (fSt (mem σ)) in
    let gf := goaliesFree (fSt (mem σ)) in
    let pf' := playersFree (fSt (mem σ')) in
    let gf' := goaliesFree (fSt (mem σ')) in
    (pf' = pf /\ gf' = gf) \/
    (pf' = pf + 1 /\ gf' = gf) \/
    (pf' = pf - 3 /\ gf' = gf /\ 3 <= pf /\ 1 <= gf /\
     exists c, players σ !! i = Some c /\ pc c = L187 /\ critical (pc c) = true) \/
    (pf' = pf /\ gf' = gf - 1 /\ 1 <= gf /\
     exists c, players σ !! i = Some c /\ pc c = L188 /\ critical (pc c) = true).
Proof.
  intros Hinit Hreach.
  destruct (reach_inv _ _ _ Hinit Hreach) as [Hmx (Hpf & Hgf & Hres)].
  split; [done|]. split; [done|].
  intros i evs σ' Hstep. inversion Hstep as [σ1 i1 c ok evs1 c' m' Hi Hp|]; subst; simpl.
  destruct (Hres i c Hi) as [H187 H188].
  destruct (pstep_free_delta _ _ _ _ _ _ _ Hp)
    as [[-> ->]|[(_ & -> & ->)|[(Hpc & -> & ->)|(Hpc & -> & ->)]]]; auto.
  - right; right; left. destruct (H187 Hpc). repeat split; try done.
    exists c. rewrite Hpc. done.
  - right; right; right. specialize (H188 Hpc). repeat split; try done.
    exists c. rewrite Hpc. done.
Qed.

End Game.

(** ** Games of players and goalies *)

Lemma gstanding_insert (P : GPC -> bool) (gs : list GConfig) (j : nat) (g g' : GConfig) :
  gs !! j = Some g ->
  (gstanding P (<[j := g']> gs) + Nat.b2n (P (gpc g)) =
   gstanding P gs + Nat.b2n (P (gpc g')))%nat.
Proof.
  unfold gstanding. revert j.
  induction gs as [|d gs IH]; intros [|j] H; simpl in *; try done.
  - inversion H; subst. lia.
  - specialize (IH j H). lia.
Qed.

Lemma gstanding_one (P : GPC -> bool) (gs : list GConfig) (j : nat) (g : GConfig) :
  gs !! j = Some g -> P (gpc g) = true -> (1 <= gstanding P gs)%nat.
Proof.
  unfold gstanding. revert j.
  induction gs as [|d gs IH]; intros [|j] H HP; simpl in *; try done.
  - inversion H; subst. rewrite HP. simpl. lia.
  - specialize (IH j H HP). lia.
Qed.

Lemma gstanding_none (P : GPC -> bool) (gs : list GConfig) :
  Forall (fun g => g = gstart) gs -> P G_lock = false -> gstanding P gs = 0%nat.
Proof.
  unfold gstanding. induction 1 as [|g gs Hg _ IH]; intros HP; simpl; [done|].
  subst g. simpl. rewrite HP. simpl. by apply IH.
Qed.

(** Case analysis on the statement a goalie executed. *)
Ltac gstep_inv H :=
  unfold gstep in H;
  match type of H with
  | context [gpc ?g] => destruct (gpc g) eqn:?Hgpc
  end;
  repeat match type of H with
  | context [match v_mutex ?S with _ => _ end] => destruct (v_mutex S) eqn:?Hsem
  | context [match v_goaliesWaitTeam ?S with _ => _ end] =>
      destruct (v_goaliesWaitTeam S) eqn:?Hsem
  | (if ?b then _ else _) = _ => destruct b eqn:?Hif
  end;
  try discriminate H;
  inversion H; subst; clear H.

(** The goalies of the spec keep to what the players rely on. *)
Lemma goalies_disciplined : disciplined goalies_step goalies_hold.
Proof.
  split.
  - intros gs m evs gs' m' (j & g & g' & Hj & Hstep & ->).
    unfold goalies_hold.
    pose proof (gstanding_insert gcritical gs j g g' Hj) as Hins.
    gstep_inv Hstep; simpl in *; lia.
  - intros gs m evs gs' m' (j & g & g' & Hj & Hstep & ->) Hh.
    unfold goalies_hold in Hh.
    destruct (gcritical (gpc g)) eqn:Hc.
    { pose proof (gstanding_one gcritical gs j g Hj Hc). lia. }
    gstep_inv Hstep; simpl in *; try discriminate; reflexivity.
  - intros gs m evs gs' m' (j & g & g' & Hj & Hstep & ->) Hp Hg.
    gstep_inv Hstep; simpl in *; split; lia.
Qed.

Section Schedules.
Context {PCst : ProbConst}.

Lemma turn_step (w : Who) (σ σ' : Game) a evs :
  turn w σ = Some (a, evs, σ') -> sys_step goalies_step σ (a, evs) σ'.
Proof.
  destruct w as [i|j]; simpl; intros H.
  - destruct (players σ !! i) as [c|] eqn:Hi; [|done].
    destruct (pstep (Z.of_nat i) true c (mem σ)) as [evs' c' m'| | |] eqn:Hs; try done.
    inversion H; subst. by econstructor.
  - destruct (peers σ !! j) as [g|] eqn:Hj; [|done].
    destruct (gstep (Z.of_nat j) g (mem σ)) as [[[evs' g'] m']|] eqn:Hs; [|done].
    inversion H; subst. constructor. by exists j, g, g'.
Qed.

Lemma burst_reach (fuel : nat) (w : Who) : forall (σ0 σ σ' : Game) tr0 tr,
  reach goalies_step σ0 tr0 σ -> burst fuel w σ = (tr, σ') ->
  reach goalies_step σ0 (tr0 ++ tr) σ'.
Proof.
  induction fuel as [|fuel IH]; intros σ0 σ σ' tr0 tr Hr Hb; simpl in Hb.
  - inversion Hb; subst. by rewrite app_nil_r.
  - destruct (turn w σ) as [[[a evs] σ1]|] eqn:Ht.
    + destruct (burst fuel w σ1) as [tr1 σ2] eqn:Hb1. inversion Hb; subst.
      replace (tr0 ++ (a, evs) :: tr1) with ((tr0 ++ [(a, evs)]) ++ tr1)
        by (by rewrite <- app_assoc).
      eapply IH; [|exact Hb1]. econstructor; [exact Hr|]. by apply (turn_step w).
    + inversion Hb; subst. by rewrite app_nil_r.
Qed.

Lemma play_reach (sched : list (Who * nat)) : forall (σ0 σ σ' : Game) tr0 tr,
  reach goalies_step σ0 tr0 σ -> play sched σ = (tr, σ') ->
  reach goalies_step σ0 (tr0 ++ tr) σ'.
Proof.
  induction sched as [|[w n] sched IH]; intros σ0 σ σ' tr0 tr Hr Hp; cbn [play] in Hp.
  - inversion Hp; subst. by rewrite app_nil_r.
  - destruct (burst n w σ) as [tr1 σ1] eqn:Hb.
    destruct (play sched σ1) as [tr2 σ2] eqn:Hp2. inversion Hp; subst.
    rewrite app_assoc. eapply IH; [|exact Hp2]. by eapply burst_reach.
Qed.

Lemma play_from (sched : list (Who * nat)) (σ0 : Game) :
  reach goalies_step σ0 (play sched σ0).1 (play sched σ0).2.
Proof.
  destruct (play sched σ0) as [tr σ] eqn:Hp.
  apply (play_reach sched σ0 σ0 σ [] tr (reach_init _ _) Hp).
Qed.

End Schedules.

Lemma kickoff_initial (np ng : nat) (tid : Z) : initial goalies_hold (kickoff np ng tid).
Proof.
  unfold initial, kickoff; simpl. repeat split.
  - apply Forall_replicate. reflexivity.
  - unfold goalies_hold. apply gstanding_none; [|done].
    apply Forall_replicate. reflexivity.
Qed.

Lemma before_leading_reach :
  reach goalies_step (kickoff 4 1 1) before_leading.1 before_leading.2.
Proof.
  unfold before_leading.
  destruct (play (freely [G 0; P 0; P 1; P 2])%nat (kickoff 4 1 1)) as [tr σ] eqn:Hp.
  destruct (burst 5 (P 3) σ) as [tr' σ'] eqn:Hb. simpl.
  apply (burst_reach 5 (P 3) _ σ σ' tr tr'); [|exact Hb].
  apply (play_reach _ _ _ σ [] tr (reach_init _ _) Hp).
Qed.

Lemma ninth_arrival_reach :
  reach goalies_step (kickoff 9 1 1) ninth_arrival.1 ninth_arrival.2.
Proof.
  unfold ninth_arrival.
  destruct (play (freely [P 0; P 1; P 2; P 3; P 4; P 5; P 6; P 7; G 0])%nat (kickoff 9 1 1))
    as [tr σ] eqn:Hp.
  destruct (burst 5 (P 8) σ) as [tr' σ'] eqn:Hb. simpl.
  apply (burst_reach 5 (P 8) _ σ σ' tr tr'); [|exact Hb].
  apply (play_reach _ _ _ σ [] tr (reach_init _ _) Hp).
Qed.

Lemma free_counters_not_negative_witness :
  let σ := (play (freely [G 0; P 0; P 1; P 2; P 3])%nat (kickoff 4 1 1)).2 in
  (exists c, players σ !! 3%nat = Some c /\ pc c = L197) /\
  0 <= playersFree (fSt (mem σ)) /\ 0 <= goaliesFree (fSt (mem σ)).
Proof.
  split.
  - exists (mkConfig L197 0 0 0 0). split; vm_compute; reflexivity.
  - pose proof (free_counters_not_negative goalies_step goalies_hold goalies_disciplined
                  (kickoff 4 1 1) _ _ (kickoff_initial 4 1 1)
                  (play_from (freely [G 0; P 0; P 1; P 2; P 3])%nat (kickoff 4 1 1))) as (H1 & H2 & _).
    split; [exact H1|exact H2].
Defined.

(** ** C3: the arrival that leads *)

Section Leading.
Context {PCst : ProbConst} {E : Type}.
Variable peer_step : E -> Mem -> list Event -> E -> Mem -> Prop.
Variable peer_holds : E -> nat.
Hypothesis peers_ok : disciplined peer_step peer_holds.

(** C3.  A player that calls playerConstituteTeam, is not late (at most 8
    arrivals with its own: the branch is the else-if of the lateness test of
    line 182) and finds at least 3 free players and
    at least 1 free goalie leads: before it gives the mutex back (it still
    holds it when it starts the handshakes at line 193) it has taken 3 from
    playersFree and 1 from goaliesFree, marked itself FORMING_TEAM and had
    the record saved.  In every state of the game at most one process is
    inside a critical region, and what a leader is about to take at line
    187 is there: no two arrivals lead with the same free members. *)
Theorem eligible_arrival_leads (σ0 σ : Sys E) tr (i : nat) (c : Config) :
  initial peer_holds σ0 -> reach peer_step σ0 tr σ ->
  players σ !! i = Some c -> pc c = L175 ->
  (0 < v_mutex (semgid (mem σ)))%nat ->
  in_bounds (Z.of_nat i) (playerStat (fSt (mem σ))) = true ->
  playersArrived (fSt (mem σ)) + 1 <= 8 ->
  3 <= playersFree (fSt (mem σ)) -> 1 <= goaliesFree (fSt (mem σ)) ->
  (exists c' m',
     run 10 (Z.of_nat i) c (mem σ) =
       ([ []; [EvDown mutex]; [];
          [EvRead LplayersArrived (playersArrived (fSt (mem σ)));
           EvWrite LplayersArrived (playersArrived (fSt (mem σ)) + 1)];
          [EvRead LplayersFree (playersFree (fSt (mem σ)));
           EvRead LgoaliesFree (goaliesFree (fSt (mem σ)))];
          [EvRead LplayersFree (playersFree (fSt (mem σ)));
           EvWrite LplayersFree (playersFree (fSt (mem σ)) - 3)];
          [EvRead LgoaliesFree (goaliesFree (fSt (mem σ)));
           EvWrite LgoaliesFree (goaliesFree (fSt (mem σ)) - 1)];
          [EvStat (Z.of_nat i) FORMING_TEAM]; [EvSave (fSt m')]; [] ], c', m')
     /\ pc c' = L193
     /\ playersFree (fSt m') = playersFree (fSt (mem σ)) - 3
     /\ goaliesFree (fSt m') = goaliesFree (fSt (mem σ)) - 1
     /\ playerStat (fSt m') !! i = Some FORMING_TEAM
     /\ S (v_mutex (semgid m')) = v_mutex (semgid (mem σ))) /\
  (forall tr1 σ1, reach peer_step σ0 tr1 σ1 ->
     (standing critical (players σ1) + peer_holds (peers σ1) +
        v_mutex (semgid (mem σ1)) <= 1)%nat /\
     (forall j k cj ck, players σ1 !! j = Some cj -> players σ1 !! k = Some ck ->
        critical (pc cj) = true -> critical (pc ck) = true -> j = k) /\
     (forall j cj, players σ1 !! j = Some cj -> pc cj = L187 ->
        3 <= playersFree (fSt (mem σ1)) /\ 1 <= goaliesFree (fSt (mem σ1)))).
Proof.
  intros Hinit Hreach Hi Hpc Hmutex Hid Hlate Hpf Hgf. split.
  - clear Hreach Hi Hinit.
    destruct c as [l r k pt t]; simpl in Hpc; subst l.
    destruct (mem σ) as [f S]; simpl in *.
    destruct S as [mx pw gw pr rw pwr pl pwe]; simpl in *.
    destruct mx as [|mx]; [lia|].
    assert (H8 : (8 <? playersArrived f + 1) = false) by (apply Z.ltb_ge; lia).
    assert (H3 : (3 <=? playersFree f) = true) by (apply Z.leb_le; lia).
    assert (H1 : (goaliesFree f =? 0) = false) by (apply Z.eqb_neq; lia).
    unfold run, pstep, semDown, semUp, setStat, saveState; simpl.
    rewrite H8; simpl. rewrite H3; simpl. rewrite H1; simpl. rewrite Hid; simpl.
    eexists _, (mkMem _ _). split; [reflexivity|]. simpl.
    repeat split.
    rewrite Nat2Z.id. apply list_lookup_insert_eq.
    unfold in_bounds in Hid. apply andb_prop in Hid as [_ Hlt].
    apply Z.ltb_lt in Hlt. lia.
  - intros tr1 σ1 Hr1.
    destruct (reach_inv peer_step peer_holds peers_ok _ _ _ Hinit Hr1)
      as [Hmx (_ & _ & Hres)].
    split; [exact Hmx|]. split.
    + intros j k cj ck Hj Hk Hcj Hck.
      destruct (decide (j = k)) as [|Hne]; [done|].
      pose proof (standing_two critical _ j k cj ck Hj Hk Hne Hcj Hck).
      unfold mutex_inv in Hmx. lia.
    + intros j cj Hj Hpcj. by apply (Hres j cj Hj).
Qed.

End Leading.

(** The lateness test comes first: the ninth arrival finds 8 free players
    and a free goalie, and is marked LATE; it takes nothing from the
    counters. *)
Lemma ninth_arrival_does_not_lead :
  ~ (forall (σ0 σ : Game) tr (i : nat) (c : Config),
       initial goalies_hold σ0 -> reach goalies_step σ0 tr σ ->
       players σ !! i = Some c -> pc c = L175 ->
       (0 < v_mutex (semgid (mem σ)))%nat ->
       in_bounds (Z.of_nat i) (playerStat (fSt (mem σ))) = true ->
       3 <= playersFree (fSt (mem σ)) -> 1 <= goaliesFree (fSt (mem σ)) ->
       let m' := (run 10 (Z.of_nat i) c (mem σ)).2 in
       playersFree (fSt m') = playersFree (fSt (mem σ)) - 3 /\
       goaliesFree (fSt m') = goaliesFree (fSt (mem σ)) - 1 /\
       playerStat (fSt m') !! i = Some FORMING_TEAM).
Proof.
  intros H.
  assert (Hc : players ninth_arrival.2 !! 8%nat = Some (mkConfig L175 0 0 0 0))
    by (vm_compute; reflexivity).
  specialize (H (kickoff 9 1 1) _ _ 8%nat _ (kickoff_initial 9 1 1) ninth_arrival_reach
                Hc eq_refl).
  destruct H as (H & _).
  - vm_compute. lia.
  - vm_compute. reflexivity.
  - vm_compute. discriminate.
  - vm_compute. discriminate.
  - vm_compute in H. discriminate H.
Qed.

Lemma eligible_arrival_leads_witness :
  let σ := before_leading.2 in
  exists c c' m',
    players σ !! 3%nat = Some c /\
    (run 10 3 c (mem σ)).1.2 = c' /\ (run 10 3 c (mem σ)).2 = m' /\
    pc c' = L193 /\ playersFree (fSt m') = 0 /\ goaliesFree (fSt m') = 0 /\
    playerStat (fSt m') !! 3%nat = Some FORMING_TEAM.
Proof.
  assert (Hc : players before_leading.2 !! 3%nat = Some (mkConfig L175 0 0 0 0))
    by (vm_compute; reflexivity).
  pose proof (eligible_arrival_leads goalies_step goalies_hold goalies_disciplined
                (kickoff 4 1 1) before_leading.2 before_leading.1 3
                (mkConfig L175 0 0 0 0) (kickoff_initial 4 1 1) before_leading_reach
                Hc eq_refl) as H.
  destruct H as [(c' & m' & Hrun & Hpc & Hpf & Hgf & Hst & _) _].
  - vm_compute. lia.
  - reflexivity.
  - vm_compute. discriminate.
  - vm_compute. discriminate.
  - vm_compute. discriminate.
  - exists (mkConfig L175 0 0 0 0), c', m'.
    split; [exact Hc|]. change (Z.of_nat 3) with 3 in Hrun.
    rewrite Hrun. simpl. repeat split; try done.
Defined.

(** ** Team formation: roles and the invariant *)

Lemma referee_signals_snoc tr evs :
  referee_signals (tr ++ [evs]) =
  (referee_signals tr + match evs with [EvUp refereeWaitTeams] => 1 | _ => 0 end)%nat.
Proof.
  unfold referee_signals. rewrite omap_app, length_app. f_equal.
  destruct evs as [|[|[]| | | | | | | | | | |] [|]]; reflexivity.
Qed.

(** Closing the cases of an invariant indexed by program points. *)
Ltac tidy :=
  repeat match goal with
  | H : false = true |- _ => discriminate H
  | H : true = false |- _ => discriminate H
  | H : _ /\ _ |- _ => destruct H
  | H : true = true -> _ |- _ => specialize (H eq_refl)
  | H : false = true -> _ |- _ => clear H
  | H : ?l = ?l -> _ |- _ => specialize (H eq_refl)
  | H : ?P -> _, H' : ?P |- _ => specialize (H H')
  | H : ?A \/ ?B -> ?C |- _ =>
      assert (A -> C) by (intro; apply H; left; assumption);
      assert (B -> C) by (intro; apply H; right; assumption);
      clear H
  | |- _ /\ _ => split
  | |- true = true => reflexivity
  | |- _ -> _ => intro
  end; subst; try done; try lia; try congruence.

Section Roles.
Context {PCst : ProbConst}.

Lemma claimed_role tr c :
  life_inv tr c -> (0 < length (claims tr))%nat ->
  at_switch (pc c) = true -> player_type c = 1.
Proof.
  intros (_ & Hcl & _) Hlen Hsw.
  destruct (claims tr) as [|v l]; simpl in Hlen; [lia|].
  destruct (Hcl v (list_elem_of_here _ _)) as [_ Hac]. unfold after_claim in Hac.
  destruct (pc c); simpl in *; try discriminate;
    destruct Hac as [H|[[_ H]|[H|[H|H]]]]; done.
Qed.

Lemma ptrace_roles (id : Z) tr c : ptrace id tr c -> roles_inv tr c.
Proof.
  induction 1 as [|tr c ok m evs c' m' Htr IH Hstep].
  - unfold roles_inv, reads, claims, referee_signals; simpl.
    repeat split; intros; try in_list H; try lia; try discriminate.
  - pose proof (ptrace_life id tr c Htr) as Hlife.
    pose proof (claimed_role tr c Hlife) as Hrole.
    destruct Hlife as (_ & _ & _ & _ & _ & Hpt0 & _ & _).
    destruct IH as (Hrd & Hrs & Hrs1 & Hcl0 & H213 & H231 & Hsw).
    unfold roles_inv.
    rewrite reads_snoc, referee_signals_snoc, claims_snoc.
    step_inv Hstep; simpl in *; branches; simpl in *;
      rewrite ?app_nil_r, ?length_app, ?Nat.add_0_r in *; simpl in *.
    all: repeat match goal with |- _ /\ _ => split end; intros.
    all: repeat match goal with
         | H : _ ∈ _ ++ _ |- _ => apply elem_of_app in H as [H|H]
         | H : _ ∈ reads _ |- _ => apply Hrd in H
         end.
    all: try (in_list H).
    all: try (tidy; fail).
Qed.
End Roles.

Lemma standing_ge (P : PC -> bool) (ps : list Config) (i : nat) (c : Config) :
  ps !! i = Some c -> (Nat.b2n (P (pc c)) <= standing P ps)%nat.
Proof.
  intros Hi. destruct (P (pc c)) eqn:HP; simpl; [|lia].
  by apply (standing_one P ps i c).
Qed.

Lemma gstanding_ge (P : GPC -> bool) (gs : list GConfig) (j : nat) (g : GConfig) :
  gs !! j = Some g -> (Nat.b2n (P (gpc g)) <= gstanding P gs)%nat.
Proof.
  intros Hj. destruct (P (gpc g)) eqn:HP; simpl; [|lia].
  by apply (gstanding_one P gs j g).
Qed.

Lemma standing_mono (P Q : PC -> bool) (ps : list Config) :
  (forall l, P l = true -> Q l = true) -> (standing P ps <= standing Q ps)%nat.
Proof.
  intros H. unfold standing. induction ps as [|c ps IH]; simpl; [lia|].
  specialize (H (pc c)). destruct (P (pc c)); simpl; [rewrite H by done; simpl|]; lia.
Qed.

Lemma forming_critical (l : PC) : forming_pc l = true -> critical l = true.
Proof. destruct l; simpl; congruence. Qed.

Lemma history_snoc tr lbl : history (tr ++ [lbl]) = observe (history tr) lbl.
Proof. unfold history. by rewrite fold_left_app. Qed.

(** Closing a case of the invariant of team formation. *)
Ltac form_close :=
  unfold quiet, complete in *; simpl in *;
  repeat match goal with
  | |- _ /\ _ => split
  | |- Forall _ (_ ++ _) => apply Forall_app; split
  | |- Forall _ [_] => apply Forall_cons; split; [|apply Forall_nil]; simpl
  | |- Forall _ _ => assumption
  end; simpl in *; rewrite ?length_app in *; simpl in *; try done; try lia.

Section FormationSteps.
Context {PCst : ProbConst}.

Lemma phase_forming l cnt F k : phase l cnt F k -> forming_pc l = true.
Proof. destruct l; simpl; tauto. Qed.

(** A statement of a player keeps the invariant of team formation. *)
Lemma player_step_form (tid : Z) (σ : Game) (h : History) i c ok evs c' m' :
  mutex_inv goalies_hold σ -> form_inv tid σ h ->
  players σ !! i = Some c ->
  pstep (Z.of_nat i) ok c (mem σ) = Next evs c' m' ->
  (forall s, EvSemError s ∉ evs) ->
  form_inv tid (mkSys (<[i := c']> (players σ)) (peers σ) m') (observe h (Player i, evs)).
Proof.
  intros Hmx (Hst & Htid & Hdone & Hform) Hi Hstep Hnf.
  destruct σ as [ps gs m]. unfold mutex_inv, form_inv, census in *. simpl in *.
  assert (Hlen : (i < length ps)%nat) by (by eapply lookup_lt_Some).
  pose proof (standing_insert critical ps i c c' Hi) as Ic.
  pose proof (standing_insert forming_pc ps i c c' Hi) as If.
  pose proof (standing_insert is_L242 ps i c c' Hi) as Ia.
  pose proof (standing_insert is_L243 ps i c c' Hi) as Ib.
  pose proof (standing_ge critical ps i c Hi) as Gc.
  pose proof (standing_ge forming_pc ps i c Hi) as Gf.
  pose proof (standing_ge is_L242 ps i c Hi) as Ga.
  pose proof (standing_ge is_L243 ps i c Hi) as Gb.
  pose proof (standing_mono forming_pc critical ps forming_critical) as Hfc.
  destruct (forming h) as [F|] eqn:HF.
  - destruct Hform as (cL & HL & Hfp & Hfg & Hph).
    pose proof (phase_forming _ _ _ _ Hph) as HLf.
    pose proof (forming_critical _ HLf) as HLc.
    destruct (decide (i = f_leader F)) as [->|Hne].
    + rewrite HL in Hi. inversion Hi; subst cL. clear Hi.
      step_inv Hstep; simpl in *; try done.
      all: try (exfalso; eapply Hnf; find_in_list; fail).
      all: branches; unfold observe; simpl; rewrite ?HF; simpl;
        rewrite ?decide_True by done; simpl.
      all: repeat match goal with |- _ /\ _ => split end; try done.
      all: try (eexists; split; [by apply list_lookup_insert_eq|]; simpl).
      all: form_close.
    + assert (Hc : critical (pc c) = false).
      { destruct (critical (pc c)) eqn:E; [|done].
        pose proof (standing_two critical ps i (f_leader F) c cL Hi HL Hne E HLc). lia. }
      assert (HL' : <[i := c']> ps !! f_leader F = Some cL)
        by (by rewrite list_lookup_insert_ne).
      step_inv Hstep; simpl in *; try done.
      all: try (exfalso; eapply Hnf; find_in_list; fail).
      all: try (exfalso; lia).
      all: branches; unfold observe; simpl; rewrite ?HF; simpl.
      all: repeat match goal with |- _ /\ _ => split end; try done.
      all: exists cL; split; [exact HL'|].
      all: destruct (pc cL); simpl in Hph; try (destruct Hph; fail); simpl.
      all: form_close.
  - destruct Hform as [Hnone Hq]. unfold quiet in Hq. simpl in Hq.
    step_inv Hstep; simpl in *; try done.
    all: try (exfalso; eapply Hnf; find_in_list; fail).
    all: try (exfalso; lia).
    all: branches; unfold observe; simpl; rewrite ?HF; simpl.
    all: repeat match goal with |- _ /\ _ => split end; try done.
    all: try (eexists; split; [by apply list_lookup_insert_eq|]; simpl).
    all: form_close.
Qed.

(** So does a statement of a goalie. *)
Lemma goalie_step_form (tid : Z) (σ : Game) (h : History) j g evs g' m' :
  mutex_inv goalies_hold σ -> form_inv tid σ h ->
  peers σ !! j = Some g ->
  gstep (Z.of_nat j) g (mem σ) = Some (evs, g', m') ->
  form_inv tid (mkSys (players σ) (<[j := g']> (peers σ)) m') (observe h (Peer, evs)).
Proof.
  intros Hmx (Hst & Htid & Hdone & Hform) Hj Hstep.
  destruct σ as [ps gs m]. unfold mutex_inv, form_inv, census, goalies_hold in *. simpl in *.
  pose proof (gstanding_insert gcritical gs j g g' Hj) as Ic.
  pose proof (gstanding_insert is_G_read gs j g g' Hj) as Ia.
  pose proof (gstanding_insert is_G_register gs j g g' Hj) as Ib.
  pose proof (gstanding_ge gcritical gs j g Hj) as Gc.
  pose proof (gstanding_ge is_G_read gs j g Hj) as Ga.
  pose proof (gstanding_ge is_G_register gs j g Hj) as Gb.
  destruct (forming h) as [F|] eqn:HF.
  - destruct Hform as (cL & HL & Hfp & Hfg & Hph).
    pose proof (phase_forming _ _ _ _ Hph) as HLf.
    pose proof (forming_critical _ HLf) as HLc.
    pose proof (standing_one critical ps _ cL HL HLc) as H1.
    gstep_inv Hstep; simpl in *; try done.
    all: try (exfalso; lia).
    all: unfold observe; simpl; rewrite ?HF; simpl.
    all: repeat match goal with |- _ /\ _ => split end; try done.
    all: exists cL; split; [exact HL|].
    all: destruct (pc cL); simpl in Hph; try (destruct Hph; fail); simpl.
    all: form_close.
  - destruct Hform as [Hnone Hq]. unfold quiet in Hq. simpl in Hq.
    gstep_inv Hstep; simpl in *; try done.
    all: try (exfalso; lia).
    all: unfold observe; simpl; rewrite ?HF; simpl.
    all: repeat match goal with |- _ /\ _ => split end; try done.
    all: form_close.
Qed.

End FormationSteps.

Lemma of_player_snoc (i : nat) tr a evs :
  of_player i (tr ++ [(a, evs)]) =
  of_player i tr ++ match a with
                    | Player j => if decide (j = i) then [evs] else []
                    | Peer => []
                    end.
Proof.
  unfold of_player. rewrite omap_app. f_equal. simpl.
  destruct a as [j|]; [|done]. by destruct (decide (j = i)).
Qed.

Lemma reads_mono (i : nat) tr lbl w :
  w ∈ reads (of_player i tr) -> w ∈ reads (of_player i (tr ++ [lbl])).
Proof.
  intros H. destruct lbl as [a evs]. rewrite of_player_snoc.
  unfold reads. rewrite omap_app. apply elem_of_app. by left.
Qed.

Lemma claims_mono (i : nat) tr lbl v :
  v ∈ claims (of_player i tr) -> v ∈ claims (of_player i (tr ++ [lbl])).
Proof.
  intros H. destruct lbl as [a evs]. rewrite of_player_snoc.
  unfold claims. rewrite omap_app. apply elem_of_app. by left.
Qed.

Lemma reads_here (i : nat) tr evs w :
  kind evs = KRead w -> w ∈ reads (of_player i (tr ++ [(Player i, evs)])).
Proof.
  intros K. rewrite of_player_snoc, decide_True by done.
  rewrite reads_snoc, K. apply elem_of_app. right. apply list_elem_of_here.
Qed.

Lemma claims_here (i : nat) tr evs v :
  kind evs = KClaim v -> v ∈ claims (of_player i (tr ++ [(Player i, evs)])).
Proof.
  intros K. rewrite of_player_snoc, decide_True by done.
  rewrite claims_snoc, K. apply elem_of_app. right. apply list_elem_of_here.
Qed.

(** A statement out of turn stays on record. *)
Lemma strays_observe (h : History) lbl : strays (observe h lbl) = [] -> strays h = [].
Proof.
  unfold observe, stray. destruct lbl as [[i|] evs]; simpl.
  all: destruct (kind evs); destruct (forming h) as [F|]; simpl; try done.
  all: try (destruct (decide (i = f_leader F)); simpl; try done).
  all: intros H; by apply app_eq_nil in H as [? _].
Qed.

Lemma history_sources tr :
  (forall F, forming (history tr) = Some F -> sourced tr F) /\
  (forall F v, (F, v) ∈ formed (history tr) ->
     v ∈ claims (of_player (f_leader F) tr) /\ sourced tr F).
Proof.
  induction tr as [|lbl tr IH] using rev_ind.
  - split; [done|]. intros F v H. simpl in H. by apply elem_of_nil in H.
  - destruct IH as [IHf IHd]. rewrite history_snoc.
    assert (Hmono : forall F, sourced tr F -> sourced (tr ++ [lbl]) F).
    { intros F H j w Hjw. apply reads_mono. by apply H. }
    assert (Hold : forall F v, (F, v) ∈ formed (history tr) ->
              v ∈ claims (of_player (f_leader F) (tr ++ [lbl])) /\ sourced (tr ++ [lbl]) F).
    { intros F v H. destruct (IHd F v H). split; [by apply claims_mono|by apply Hmono]. }
    unfold observe, stray. destruct lbl as [[i|] evs]; simpl.
    all: destruct (kind evs) eqn:K; destruct (forming (history tr)) as [F0|] eqn:HF; simpl.
    all: try (destruct (decide (i = f_leader F0)) as [->|]; simpl).
    all: split; [intros F HF'; inversion HF'; subst; clear HF'|intros F v' Hin]; auto.
    all: try (by apply Hold).
    all: try (by apply Hmono; apply IHf).
    all: try (intros j w Hjw; simpl in Hjw;
              first [ by apply elem_of_nil in Hjw
                    | apply elem_of_app in Hjw as [Hjw|Hjw];
                      [ apply reads_mono; by apply (IHf F0)
                      | apply list_elem_of_singleton in Hjw; inversion Hjw; subst;
                        by apply reads_here ]
                    | apply reads_mono; by apply (IHf F0) ]).
    apply elem_of_app in Hin as [Hin|Hin]; [by apply Hold|].
    apply list_elem_of_singleton in Hin. inversion Hin; subst.
    split; [by apply claims_here|]. apply Hmono. by apply IHf.
Qed.

(** Every claim of a team id completes a formation led by the claimant. *)
Lemma history_claims tr (i : nat) (v : Z) :
  strays (history tr) = [] -> v ∈ claims (of_player i tr) ->
  exists F, (F, v) ∈ formed (history tr) /\ f_leader F = i.
Proof.
  induction tr as [|lbl tr IH] using rev_ind; intros Hs Hv.
  - simpl in Hv. by apply elem_of_nil in Hv.
  - rewrite history_snoc in Hs |- *.
    pose proof (strays_observe _ _ Hs) as Hs'.
    assert (Hold : v ∈ claims (of_player i tr) ->
              exists F, (F, v) ∈ formed (observe (history tr) lbl) /\ f_leader F = i).
    { intros H. destruct (IH Hs' H) as (F & HF & <-). exists F. split; [|done].
      unfold observe, stray. destruct lbl as [[k|] evs]; simpl.
      all: destruct (kind evs); destruct (forming (history tr)) as [F0|]; simpl; try done.
      all: try (destruct (decide (k = f_leader F0)); simpl; try done).
      apply elem_of_app. by left. }
    destruct lbl as [a evs]. rewrite of_player_snoc in Hv.
    unfold claims in Hv. rewrite omap_app in Hv.
    apply elem_of_app in Hv as [Hv|Hv]; [by apply Hold|].
    destruct a as [k|]; [|by apply elem_of_nil in Hv].
    destruct (decide (k = i)) as [->|]; [|by apply elem_of_nil in Hv].
    simpl in Hv. destruct (kind evs) eqn:K; simpl in Hv; try (by apply elem_of_nil in Hv).
    apply list_elem_of_singleton in Hv. subst v0.
    unfold observe, stray in Hs |- *. simpl in *. rewrite K in *.
    destruct (forming (history tr)) as [F0|]; simpl in *.
    + destruct (decide (i = f_leader F0)) as [->|]; simpl in *.
      * exists F0. split; [|done]. apply elem_of_app. right. apply list_elem_of_here.
      * by apply app_eq_nil in Hs as [_ ?].
    + by apply app_eq_nil in Hs as [_ ?].
Qed.

Section Projection.
Context {PCst : ProbConst} {E : Type}.
Variable peer_step : E -> Mem -> list Event -> E -> Mem -> Prop.

(** What a player does in a game is one of its behaviours. *)
Lemma reach_ptrace (σ0 σ : Sys E) tr (i : nat) (c : Config) :
  Forall (fun c => c = start) (players σ0) ->
  reach peer_step σ0 tr σ -> players σ !! i = Some c ->
  ptrace (Z.of_nat i) (of_player i tr) c.
Proof.
  intros H0 Hr. revert c.
  induction Hr as [|tr σ lbl σ' _ IH Hstep]; intros c Hi.
  - rewrite Forall_lookup in H0. rewrite (H0 i c Hi). constructor.
  - destruct Hstep as [σ j d ok evs d' m' Hj Hstep|σ evs e' m' Hstep];
      rewrite of_player_snoc; simpl in *.
    + destruct (decide (j = i)) as [->|Hne].
      * rewrite list_lookup_insert_eq in Hi by (by eapply lookup_lt_Some).
        inversion Hi; subst. econstructor; [by apply IH|exact Hstep].
      * rewrite list_lookup_insert_ne in Hi by done.
        rewrite app_nil_r. by apply IH.
    + rewrite app_nil_r. by apply IH.
Qed.

(** A player that has run a statement is one of the players. *)
Lemma reach_actor (σ0 σ : Sys E) tr (i : nat) :
  reach peer_step σ0 tr σ -> of_player i tr <> [] -> is_Some (players σ !! i).
Proof.
  induction 1 as [|tr σ lbl σ' _ IH Hstep]; intros Hne; [done|].
  destruct Hstep as [σ j d ok evs d' m' Hj Hstep|σ evs e' m' Hstep];
    rewrite of_player_snoc in Hne; simpl in *.
  - destruct (decide (j = i)) as [->|Hji].
    + rewrite list_lookup_insert_eq by (by eapply lookup_lt_Some). eauto.
    + rewrite list_lookup_insert_ne by done. rewrite app_nil_r in Hne. by apply IH.
  - rewrite app_nil_r in Hne. by apply IH.
Qed.

End Projection.

Section TeamFormation.
Context {PCst : ProbConst}.

Lemma no_failure_snoc tr lbl :
  no_failure (tr ++ [lbl]) -> no_failure tr /\ forall s, EvSemError s ∉ lbl.2.
Proof.
  intros H. split.
  - intros a evs s Hin. apply (H a evs s). apply elem_of_app. by left.
  - intros s. destruct lbl as [a evs]. apply (H a evs s).
    apply elem_of_app. right. apply list_elem_of_here.
Qed.

Lemma reach_form (σ0 σ : Game) tr :
  initial goalies_hold σ0 -> Forall (fun g => g = gstart) (peers σ0) ->
  reach goalies_step σ0 tr σ -> no_failure tr ->
  form_inv (teamId (fSt (mem σ0))) σ (history tr).
Proof.
  intros Hinit Hg Hr. induction Hr as [|tr σ lbl σ' Hr IH Hstep]; intros Hnf.
  - destruct Hinit as (Hps & _ & Hsem & _). unfold form_inv, history; simpl.
    split; [done|]. split; [lia|]. split; [constructor|]. split.
    + by apply standing_none.
    + unfold quiet, census; simpl. rewrite Hsem; simpl.
      rewrite !(standing_none _ _ Hps), !(gstanding_none _ _ Hg) by done. done.
  - apply no_failure_snoc in Hnf as [Hnf Hlbl]. specialize (IH Hnf).
    destruct (reach_inv goalies_step goalies_hold goalies_disciplined _ _ _ Hinit Hr)
      as [Hmx _].
    rewrite history_snoc.
    destruct Hstep as [σ i c ok evs c' m' Hi Hstep|σ evs gs' m' (j & g & g' & Hj & Hstep & ->)].
    + by eapply player_step_form.
    + by eapply goalie_step_form.
Qed.

(** A game run by a schedule has no failing system call. *)
Lemma pstep_true_no_failure id c m evs c' m' :
  pstep id true c m = Next evs c' m' -> forall s, EvSemError s ∉ evs.
Proof.
  intros H s Hin. step_inv H; in_list Hin; try discriminate.
Qed.

Lemma gstep_no_failure id g m evs g' m' :
  gstep id g m = Some (evs, g', m') -> forall s, EvSemError s ∉ evs.
Proof.
  intros H s Hin. gstep_inv H; in_list Hin; discriminate.
Qed.

Lemma turn_no_failure w (σ σ' : Game) a evs :
  turn w σ = Some (a, evs, σ') -> forall s, EvSemError s ∉ evs.
Proof.
  destruct w as [i|j]; simpl; intros H.
  - destruct (players σ !! i) as [c|]; [|done].
    destruct (pstep (Z.of_nat i) true c (mem σ)) as [evs' c' m'| | |] eqn:Hs; try done.
    inversion H; subst. by eapply pstep_true_no_failure.
  - destruct (peers σ !! j) as [g|]; [|done].
    destruct (gstep (Z.of_nat j) g (mem σ)) as [[[evs' g'] m']|] eqn:Hs; [|done].
    inversion H; subst. by eapply gstep_no_failure.
Qed.

Lemma no_failure_app tr1 tr2 : no_failure tr1 -> no_failure tr2 -> no_failure (tr1 ++ tr2).
Proof.
  intros H1 H2 a evs s Hin. apply elem_of_app in Hin as [Hin|Hin]; eauto.
Qed.

Lemma burst_no_failure fuel w : forall (σ : Game), no_failure (burst fuel w σ).1.
Proof.
  induction fuel as [|fuel IH]; intros σ; simpl.
  - intros a evs s Hin. by apply elem_of_nil in Hin.
  - destruct (turn w σ) as [[[a evs] σ1]|] eqn:Ht; simpl.
    + specialize (IH σ1). destruct (burst fuel w σ1) as [tr σ2]. simpl in *.
      intros a' evs' s Hin. apply elem_of_cons in Hin as [Hin|Hin].
      * inversion Hin; subst. by eapply turn_no_failure.
      * by eapply IH.
    + intros a evs s Hin. by apply elem_of_nil in Hin.
Qed.

Lemma play_no_failure sched : forall (σ : Game), no_failure (play sched σ).1.
Proof.
  induction sched as [|[w n] sched IH]; intros σ; cbn [play].
  - intros a evs s Hin. by apply elem_of_nil in Hin.
  - pose proof (burst_no_failure n w σ) as Hb.
    destruct (burst n w σ) as [tr σ1]. specialize (IH σ1).
    destruct (play sched σ1) as [tr' σ2]. simpl in *. by apply no_failure_app.
Qed.

End TeamFormation.

(** ** Lateness *)

Lemma ranks_snoc tr evs :
  ranks (tr ++ [evs]) = ranks tr ++ match arrival_rank evs with Some w => [w] | None => [] end.
Proof.
  unfold ranks. rewrite omap_app. simpl.
  destruct (arrival_rank evs); reflexivity.
Qed.

Section Lateness.
Context {PCst : ProbConst}.

Lemma ptrace_lateness (id : Z) tr c : ptrace id tr c -> lateness_inv id tr c.
Proof.
  induction 1 as [|tr c ok m evs c' m' Htr IH Hstep].
  - unfold lateness_inv, ranks, claims, reads, late_marks; simpl.
    repeat split; intros; in_list H.
  - pose proof (ptrace_life id tr c Htr) as (_ & _ & _ & _ & H0 & Hpt0 & _ & _).
    destruct IH as (Hbefore & Hon & Hlate).
    unfold lateness_inv.
    rewrite ranks_snoc, late_marks_snoc, claims_snoc, reads_snoc.
    step_inv Hstep; simpl in *; branches; simpl in *; rewrite ?app_nil_r in *.
    all: repeat match goal with |- _ /\ _ => split end; intros.
    all: repeat match goal with
         | H : _ ∈ _ ++ _ |- _ => apply elem_of_app in H as [H|H]
         | H : _ ∈ [_] |- _ => apply list_elem_of_singleton in H; subst
         | H : _ ∈ [] |- _ => by apply elem_of_nil in H
         | H : _ ∈ ranks _, Hb : false = false -> _ |- _ =>
             destruct (Hb eq_refl) as (Hr & _); rewrite Hr in H; by apply elem_of_nil in H
         | H : _ ∈ ranks _ |- _ =>
             pose proof (Hon _ H); pose proof (Hlate _ H); clear Hon Hlate H
         end.
    all: try (tidy; fail).
    tidy. apply elem_of_app. right. apply list_elem_of_here.
Qed.
End Lateness.

(** Arrivals in the game. *)
Lemma arrivals_ranked_snoc tr a evs :
  arrivals_ranked (tr ++ [(a, evs)]) =
  arrivals_ranked tr ++
    match a, arrival_rank evs with
    | Player i, Some w => [(i, w)]
    | _, _ => []
    end.
Proof.
  unfold arrivals_ranked. rewrite omap_app. simpl.
  destruct a; [destruct (arrival_rank evs)|]; reflexivity.
Qed.

Lemma arrival_of_player i w tr :
  (i, w) ∈ arrivals_ranked tr -> w ∈ ranks (of_player i tr).
Proof.
  induction tr as [|[a evs] tr IH] using rev_ind; intros H.
  - in_list H.
  - rewrite arrivals_ranked_snoc in H. rewrite of_player_snoc.
    apply elem_of_app in H as [H|H].
    + destruct a as [j|]; [destruct (decide (j = i))|]; rewrite ?app_nil_r; auto.
      rewrite ranks_snoc. apply elem_of_app. left. auto.
    + destruct a as [j|]; [|in_list H].
      destruct (arrival_rank evs) as [v|] eqn:Hv; [|in_list H].
      apply list_elem_of_singleton in H. injection H as -> ->.
      destruct (decide (j = j)); [|done].
      rewrite ranks_snoc, Hv. apply elem_of_app. right. apply list_elem_of_here.
Qed.

Section Arrivals.
Context {PCst : ProbConst}.

Lemma pstep_arrival id ok c m evs c' m' :
  pstep id ok c m = Next evs c' m' ->
  match arrival_rank evs with
  | Some w => w = playersArrived (fSt m) + 1 /\ playersArrived (fSt m') = w
  | None => playersArrived (fSt m') = playersArrived (fSt m)
  end.
Proof.
  intros Hstep. step_inv Hstep; simpl; auto.
Qed.

Lemma gstep_arrival j g m evs g' m' :
  gstep j g m = Some (evs, g', m') ->
  playersArrived (fSt m') = playersArrived (fSt m).
Proof.
  intros Hstep. gstep_inv Hstep; simpl; auto.
Qed.

Lemma reach_arrivals (σ0 σ : Game) tr :
  playersArrived (fSt (mem σ0)) = 0 ->
  reach goalies_step σ0 tr σ -> arrivals_inv σ tr.
Proof.
  intros H0. induction 1 as [|tr σ lbl σ' _ [IHn IHk] Hstep].
  - split; [done|]. intros k i w Hk. done.
  - unfold arrivals_inv.
    destruct Hstep as [σ j d ok evs d' m' Hj Hstep|σ evs e' m' (j & g & g' & Hj & Hstep & ->)];
      rewrite arrivals_ranked_snoc; simpl.
    + apply pstep_arrival in Hstep.
      destruct (arrival_rank evs) as [w|].
      * destruct Hstep as [-> Hm']. rewrite length_app; simpl. split; [lia|].
        intros k i w Hk. apply lookup_app_Some in Hk as [Hk|[Hlen Hk]]; [by eapply IHk|].
        apply list_lookup_singleton_Some in Hk as [Hk Heq]. inversion Heq; subst. lia.
      * rewrite app_nil_r. split; [congruence|exact IHk].
    + apply gstep_arrival in Hstep. rewrite app_nil_r. split; [congruence|exact IHk].
Qed.

(** The law of lateness: in a game that starts with no arrival counted, the
    player whose arrival statement is the k-th (from 0) is late exactly when
    8 arrivals came before it.  One that is not late never marks itself LATE;
    one that is late marks itself LATE, takes part in no formation and leaves
    playerConstituteTeam with 0. *)
Lemma lateness_law (σ0 σ : Game) tr (k i : nat) (c : Config) :
  initial goalies_hold σ0 ->
  reach goalies_step σ0 tr σ ->
  arrivals tr !! k = Some i -> players σ !! i = Some c ->
  ((k < 8)%nat -> late_marks (of_player i tr) = [] /\ on_time_pc (pc c) = true) /\
  ((8 <= k)%nat ->
     late_pc (pc c) = true /\ ret c = 0 /\
     claims (of_player i tr) = [] /\ reads (of_player i tr) = [] /\
     (marked_pc (pc c) = true -> Z.of_nat i ∈ late_marks (of_player i tr))).
Proof.
  intros (Hst & _ & _ & Ha0 & _) Hr Hk Hi.
  unfold arrivals in Hk. rewrite list_lookup_fmap in Hk.
  destruct (arrivals_ranked tr !! k) as [[i' w]|] eqn:Hkw; [|done].
  simpl in Hk. inversion Hk; subst i'.
  destruct (reach_arrivals σ0 σ tr Ha0 Hr) as [_ Hrank].
  apply Hrank in Hkw as Hw.
  apply list_elem_of_lookup_2, arrival_of_player in Hkw.
  pose proof (reach_ptrace goalies_step σ0 σ tr i c Hst Hr Hi) as Hp.
  apply ptrace_lateness in Hp as (_ & Hon & Hlate).
  split; intros Hlt.
  - apply (Hon w Hkw). lia.
  - destruct (Hlate w Hkw) as (? & ? & ? & ? & ? & ?); [lia|]. auto.
Qed.
End Arrivals.


(** The game of [nine_players] is a game of the players and the goalies in
    which no system call fails. *)
Lemma nine_run_reach (tid : Z) :
  reach goalies_step (kickoff 9 2 tid) (nine_run tid).1 (nine_run tid).2.
Proof. apply play_from. Qed.

Lemma nine_run_no_failure (tid : Z) : no_failure (nine_run tid).1.
Proof. apply play_no_failure. Qed.


(** ** C7: nine players and two goalies, in the order of their numbers *)

(** C7 (as stated) does not hold.  Were players 6 and 7 LATE with team 0
    whenever the nine players have arrived in the order of their numbers and
    have all left playerConstituteTeam, no semaphore call having failed,
    they would be so at the end of [nine_run]; there player 6 has the status
    WAITING_TEAMS and player 7 the status FORMING_TEAM, and both have the
    second team's number.  (A team's field players are its leader and the
    players it called.) *)
Lemma players_6_and_7_are_not_late :
  ~ (forall (tid : Z) tr (σ : Game),
       INT_MIN <= tid -> tid + 9 <= INT_MAX ->
       reach goalies_step (kickoff 9 2 tid) tr σ ->
       no_failure tr ->
       arrivals tr = [0; 1; 2; 3; 4; 5; 6; 7; 8]%nat ->
       Forall (fun c => returned_pc (pc c) = true) (players σ) ->
       (forall i c, (6 <= i)%nat -> players σ !! i = Some c ->
          playerStat (fSt (mem σ)) !! i = Some LATE /\ ret c = 0) /\
       length (formed (history tr)) = 2%nat /\
       (forall F v, (F, v) ∈ formed (history tr) -> S (length (f_players F)) = 3%nat) /\
       teamId (fSt (mem σ)) = 2).
Proof.
  intros H.
  assert (Hlo : INT_MIN <= 0) by (by vm_compute).
  assert (Hhi : 0 + 9 <= INT_MAX) by (by vm_compute).
  destruct (H 0 (nine_run 0).1 (nine_run 0).2 Hlo Hhi (nine_run_reach 0)
              (nine_run_no_failure 0)) as (Hlate & _).
  - vm_compute; reflexivity.
  - vm_compute. repeat constructor.
  - destruct (Hlate 6%nat (mkConfig L119 1 0 2 0)) as [Hst _]; [lia|vm_compute; reflexivity|].
    vm_compute in Hst. discriminate Hst.
Qed.

(** * The operations over a whole life, and the arguments of main *)

(** ** The mutex over a player's life *)

Lemma locking_from_app (h : bool) (tr evs : list Event) :
  locking_from h (tr ++ evs) = locking_from h tr && locking_from (holding_from h tr) evs.
Proof.
  revert h. induction tr as [|e tr IH]; intros h; simpl; [done|].
  rewrite IH, andb_assoc. done.
Qed.

(** Case analysis on the system call that failed. *)
Ltac fail_inv H :=
  unfold pstep in H;
  match type of H with
  | context [pc ?c] => destruct (pc c) eqn:?Hpc
  end;
  unfold semDown, semUp, setStat, saveState in H; cbv zeta in H; cbv iota in H;
  repeat match type of H with
  | (if ?b then _ else _) = _ => destruct b eqn:?Hif
  end;
  try discriminate H;
  inversion H; subst; clear H.

Section MutexDiscipline.
Context {PCst : ProbConst}.

(** X1.  In every behaviour of the player, under any interference: it
    never waits on the mutex while it holds it and never signals the mutex
    while it does not; as long as it runs it holds the mutex exactly inside
    the critical regions of arrive, playerConstituteTeam, waitReferee and
    playUntilEnd, so each of the four returns with the mutex given back; and
    a process that ends with EXIT_SUCCESS does not hold it. *)
Theorem mutex_taken_and_given_back (id : Z) tr c :
  ptrace id tr c ->
  locking (concat tr) = true /\
  (ended (pc c) = false -> holding (concat tr) = critical (pc c)) /\
  (pc c = Exited EXIT_SUCCESS -> holding (concat tr) = false).
Proof.
  intros Htr.
  assert (Hinv : locking (concat tr) = true /\
                 (pc c = Exited EXIT_SUCCESS -> holding (concat tr) = false)).
  { induction Htr as [|tr c ok m evs c' m' Htr [IHl IHe] Hstep]; [by split|].
    rewrite concat_snoc, holding_app. unfold locking. rewrite locking_from_app.
    fold (locking (concat tr)) (holding (concat tr)). rewrite IHl. clear IHl IHe.
    destruct (ptrace_holding id tr c Htr) as [[code Hex]|Hh].
    { unfold pstep in Hstep. rewrite Hex in Hstep. discriminate. }
    rewrite Hh.
    step_inv Hstep; simpl; branches; split; try reflexivity; try discriminate. }
  destruct Hinv as [Hl He]. split; [exact Hl|]. split; [|exact He].
  intros Hne. destruct (ptrace_holding id tr c Htr) as [[code Hex]|Hh]; [|exact Hh].
  rewrite Hex in Hne. discriminate.
Qed.


End MutexDiscipline.

Lemma leader_calling_ptrace : ptrace 3 (leader_calling.1.1) (leader_calling.1.2).
Proof. apply (run_from_start 3 15 (mem_with 3 3 1 1 0 0) _ _ (leader_calling.2)). reflexivity. Qed.

Lemma mutex_taken_and_given_back_witness :
  pc (leader_calling.1.2) = L193 /\
  locking (concat (leader_calling.1.1)) = true /\
  holding (concat (leader_calling.1.1)) = true.
Proof.
  destruct (mutex_taken_and_given_back 3 _ _ leader_calling_ptrace) as (Hl & Hh & _).
  split; [reflexivity|]. split; [exact Hl|]. apply Hh. reflexivity.
Defined.


(** ** The statuses of a player's life *)

Lemma stats_snoc tr evs :
  stats (tr ++ [evs]) = stats tr ++ match evs with [EvStat _ st] => [st] | _ => [] end.
Proof.
  unfold stats. rewrite omap_app. simpl.
  destruct evs as [|[] [|]]; reflexivity.
Qed.

(** Using what is known of the locals at a program point. *)
Ltac locals :=
  repeat match goal with
  | H : _ /\ _ |- _ => destruct H
  | H : _ \/ _ |- _ => destruct H
  | H : True |- _ => clear H
  | H : False |- _ => destruct H
  | H : ?x = ?x -> _ |- _ => specialize (H eq_refl)
  | H : true = true -> _ |- _ => specialize (H eq_refl)
  | H : false = true -> _ |- _ => clear H
  | H : player_type _ = _ |- _ => rewrite H in *; clear H
  | H : stats _ = _ |- _ => rewrite H in *; clear H
  end.

(** A role whose life the statuses are the beginning of. *)
Ltac pick_role :=
  let prefix := (unfold life_statuses; simpl;
                 first [reflexivity | eexists; reflexivity | eexists; simpl; reflexivity]) in
  first [ exists LATE; split; [find_in_list | prefix]
        | exists FORMING_TEAM; split; [find_in_list | prefix]
        | exists WAITING_TEAMS; split; [find_in_list | prefix] ].

(** The statuses stored are the beginning, or the whole, of a life. *)
Ltac life_prefix :=
  unfold life_statuses, waiting_start, playing_for in *; simpl;
  repeat match goal with
  | H : (?r =? 0) = false |- _ => rewrite H in *
  end;
  simpl; split;
  [ first [reflexivity | eexists; reflexivity | eexists; simpl; reflexivity]
  | intro; first [discriminate | reflexivity] ].

Ltac status_close :=
  locals; unfold life_statuses, waiting_start, playing_for in *; simpl in *;
  repeat match goal with
  | H : team _ = ret _ |- _ => rewrite H in *; clear H
  end;
  repeat match goal with
  | H : ?r <> 0 |- context [?r =? 0] =>
      let E := fresh in destruct (r =? 0) eqn:E; [apply Z.eqb_eq in E; contradiction|]
  end;
  branches; simpl in *; rewrite ?app_nil_r in *; locals; simpl in *;
  repeat match goal with
  | H : (?r =? 0) = true |- _ => apply Z.eqb_eq in H
  | H : (?r =? 0) = false |- _ => apply Z.eqb_neq in H
  end;
  simpl in *;
  try pick_role;
  repeat split; auto; try discriminate; try congruence; try lia.

Section Statuses.
Context {PCst : ProbConst}.

Lemma ptrace_status (id : Z) tr c : ptrace id tr c -> status_inv tr c.
Proof.
  induction 1 as [|tr c ok m evs c' m' Htr IH Hstep]; [reflexivity|].
  pose proof (ptrace_life id tr c Htr) as (_ & _ & _ & _ & H0 & Hpt0 & _ & _).
  unfold status_inv in *. rewrite stats_snoc.
  step_inv Hstep; simpl in *; rewrite ?Hpc in *; simpl in *.
  all: try (status_close; fail).
Qed.

Lemma ptrace_own_entry (id : Z) tr c :
  ptrace id tr c ->
  forall evs j st, evs ∈ tr -> EvStat j st ∈ evs -> j = id.
Proof.
  induction 1 as [|tr c ok m evs c' m' Htr IH Hstep]; intros evs0 j st Hin Hev.
  - in_list Hin.
  - apply elem_of_app in Hin as [Hin|Hin]; [by eapply IH|].
    apply list_elem_of_singleton in Hin. subst evs0.
    step_inv Hstep; in_list Hev; congruence.
Qed.

Lemma late_in_stats tr : LATE ∈ stats tr -> exists i, i ∈ late_marks tr.
Proof.
  induction tr as [|evs tr IH] using rev_ind; intros H; [in_list H|].
  rewrite stats_snoc in H. rewrite late_marks_snoc.
  apply elem_of_app in H as [H|H].
  - destruct (IH H) as [i Hi]. exists i. apply elem_of_app. by left.
  - destruct evs as [|[] [|]]; try (in_list H; fail).
    in_list H. subst st. eexists. apply elem_of_app. right. apply list_elem_of_here.
Qed.

(** X3.  The statuses a player stores in the status array over its life,
    under any interference.  It stores in its own entry only.  What it has
    stored so far is always a beginning of: ARRIVING, then one of LATE,
    FORMING_TEAM and WAITING_TEAMS, then, unless playerConstituteTeam
    returned 0, WAITING_START_1 and PLAYING_1 if it returned 1, and
    WAITING_START_2 and PLAYING_2 if it returned any other team id.  A
    process that ends with EXIT_SUCCESS has stored all of them, and one that
    was marked LATE has team 0. *)
Theorem statuses_of_a_life (id : Z) tr c :
  ptrace id tr c ->
  (forall evs j st, evs ∈ tr -> EvStat j st ∈ evs -> j = id) /\
  (LATE ∈ stats tr -> ret c = 0) /\
  exists role,
    role ∈ [LATE; FORMING_TEAM; WAITING_TEAMS] /\
    stats tr `prefix_of` life_statuses role (ret c) /\
    (pc c = Exited EXIT_SUCCESS -> stats tr = life_statuses role (ret c)).
Proof.
  intros Htr. split; [exact (ptrace_own_entry id tr c Htr)|]. split.
  { intros Hl. apply late_in_stats in Hl as [i Hi].
    destruct (ptrace_life id tr c Htr) as (_ & _ & Hlate & _).
    by destruct (Hlate i Hi). }
  pose proof (ptrace_status id tr c Htr) as Hs. unfold status_inv in Hs.
  destruct (pc c) as [] eqn:Hpc;
    try match type of Hpc with _ = Exited ?z => destruct z end.
  all: try (destruct Hs as (role & Hr & Hp); exists role; split; [exact Hr|];
            split; [exact Hp|]; unfold EXIT_SUCCESS; discriminate).
  all: locals; unfold EXIT_SUCCESS.
  all: repeat match goal with
       | H : team _ = ret _ |- _ => clear H
       | H : ?r <> 0 |- _ => apply Z.eqb_neq in H
       end.
  all: first [ exists LATE; split; [find_in_list|]; life_prefix
             | exists FORMING_TEAM; split; [find_in_list|]; life_prefix
             | exists WAITING_TEAMS; split; [find_in_list|]; life_prefix ].
Qed.
End Statuses.


(** ** The leader's calls *)

Lemma count_steps_snoc (P : list Event -> bool) tr evs :
  count_steps P (tr ++ [evs]) = (count_steps P tr + Nat.b2n (P evs))%nat.
Proof.
  unfold count_steps. rewrite filter_app, length_app. f_equal.
  rewrite filter_cons, filter_nil.
  destruct (decide (P evs = true)) as [H|H]; [by rewrite H|].
  by destruct (P evs).
Qed.

Section CallsOfALeader.
Context {PCst : ProbConst}.

Lemma ptrace_calls (id : Z) tr c : ptrace id tr c -> calls_inv tr c.
Proof.
  induction 1 as [|tr c ok m evs c' m' Htr IH Hstep].
  { unfold calls_inv, idle; simpl. done. }
  pose proof (ptrace_life id tr c Htr) as (_ & _ & _ & _ & _ & Hpt0 & Hpt & _).
  unfold calls_inv, led, idle, calling, calls, goalie_calls, registrations in *.
  rewrite !count_steps_snoc, claims_snoc.
  step_inv Hstep; simpl in *; rewrite ?Hpc in *; simpl in *.
  all: branches; simpl in *; rewrite ?Nat.add_0_r, ?app_nil_r, ?length_app in *; simpl in *.
  all: repeat match goal with
       | H : _ /\ _ |- _ => destruct H
       | H : (_ =? _) = true |- _ => apply Z.eqb_eq in H
       | H : (_ =? _) = false |- _ => apply Z.eqb_neq in H
       | H : claims _ = [] |- _ => rewrite H in *
       end; simpl in *.
  all: try (intuition (try done; try lia); fail).
Qed.

(** X4.  The calls of a leader, under any interference, for teams of at
    least 2 field players (NUMTEAMPLAYERS an int).  A player that has
    claimed a team id has called exactly NUMTEAMPLAYERS-1 waiting players
    and one goalie, and has waited for a registration after each call; a
    goalie is called only after the NUMTEAMPLAYERS-1 players; a running
    player has never called more than NUMTEAMPLAYERS-1 players.  The loop
    of lines 192 to 202 counts the rounds: [count] is the number of
    registrations waited for, it is below NUMTEAMPLAYERS-1 at the
    [count++] of line 201, which therefore stays within the range of an
    int, and the loop ends when it reaches NUMTEAMPLAYERS-1. *)
Theorem leader_calls_its_team (id : Z) tr c :
  2 <= NUMTEAMPLAYERS <= INT_MAX ->
  ptrace id tr c ->
  (forall v, v ∈ claims tr ->
     Z.of_nat (calls tr) = NUMTEAMPLAYERS - 1 /\ goalie_calls tr = 1%nat /\
     registrations tr = S (calls tr)) /\
  (goalie_calls tr <> 0%nat -> Z.of_nat (calls tr) = NUMTEAMPLAYERS - 1) /\
  (ended (pc c) = false -> Z.of_nat (calls tr) <= NUMTEAMPLAYERS - 1) /\
  (pc c = L197 -> (1 <= calls tr)%nat) /\
  (pc c = L201 ->
     0 <= count c /\ count c + 1 <= NUMTEAMPLAYERS - 1 /\ count c + 1 <= INT_MAX /\
     Z.of_nat (registrations tr) = count c + 1) /\
  (pc c = L202 ->
     1 <= count c <= NUMTEAMPLAYERS - 1 /\ Z.of_nat (registrations tr) = count c).
Proof.
  intros HN Htr. pose proof (ptrace_calls id tr c Htr) as Hinv.
  assert (Hg : goalie_calls tr <> 0%nat -> Z.of_nat (calls tr) = NUMTEAMPLAYERS - 1).
  { unfold calls_inv, led, idle, calling in Hinv.
    destruct (decide (player_type c = 1));
      destruct (pc c); intuition (try done; try lia). }
  assert (Hc : claims tr <> [] -> led tr).
  { unfold calls_inv, idle, calling in Hinv.
    destruct (decide (player_type c = 1));
      destruct (pc c); intuition (try done; try lia). }
  split; [|split; [exact Hg|split; [|split; [|split]]]].
  - intros v Hv. destruct Hc as (? & ? & ? & _).
    { intros Hnil. rewrite Hnil in Hv. by apply elem_of_nil in Hv. }
    done.
  - intros Hne. unfold calls_inv, led, idle, calling in Hinv.
    destruct (decide (player_type c = 1));
      destruct (pc c); try discriminate Hne; intuition (try done; try lia).
  - intros Hpc. unfold calls_inv in Hinv. rewrite Hpc in Hinv.
    destruct Hinv as [_ ->]. lia.
  - intros Hpc. unfold calls_inv in Hinv. rewrite Hpc in Hinv. lia.
  - intros Hpc. unfold calls_inv in Hinv. rewrite Hpc in Hinv. lia.
Qed.

End CallsOfALeader.

Lemma leader_calls_its_team_witness :
  claims (leader_zero_run.1.1) = [0] /\
  calls (leader_zero_run.1.1) = 3%nat /\ goalie_calls (leader_zero_run.1.1) = 1%nat /\
  registrations (leader_zero_run.1.1) = 4%nat.
Proof.
  split; [reflexivity|].
  assert (HN : 2 <= NUMTEAMPLAYERS <= INT_MAX) by (split; by vm_compute).
  destruct (leader_calls_its_team 3 _ _ HN leader_zero_run_ptrace) as (H & _).
  destruct (H 0) as (Hc & Hg & Hr); [vm_compute; find_in_list|].
  change NUMTEAMPLAYERS with 4 in Hc.
  split; [lia|]. split; [exact Hg|]. rewrite Hr. lia.
Defined.

(** ** The match *)

Lemma match_events_snoc tr evs :
  match_events (tr ++ [evs]) =
  match_events tr ++ filter (fun e => is_match_event e = true) evs.
Proof. unfold match_events. by rewrite concat_snoc, filter_app. Qed.

Section Match.
Context {PCst : ProbConst}.

Lemma ptrace_match (id : Z) tr c : ptrace id tr c -> match_inv tr c.
Proof.
  induction 1 as [|tr c ok m evs c' m' Htr IH Hstep]; [reflexivity|].
  pose proof (ptrace_life id tr c Htr) as (_ & _ & _ & Hm & H0 & _).
  unfold match_inv in *. rewrite match_events_snoc.
  step_inv Hstep; simpl in *; rewrite ?Hpc in *; simpl in *.
  all: rewrite ?app_nil_r.
  all: try (rewrite IH; simpl).
  all: branches; simpl in *.
  all: repeat match goal with
       | H : true = true -> _ |- _ => specialize (H eq_refl)
       | H : false = true -> _ |- _ => clear H
       | H : (_ =? _) = true |- _ => apply Z.eqb_eq in H
       | H : (_ =? _) = false |- _ => apply Z.eqb_neq in H
       end.
  all: try done.
  all: try (split; [|intros; try done; try congruence]).
  all: try (by eexists).
Qed.

(** X5.  The rendezvous of the match in a player's life, under any
    interference: it waits on playersWaitReferee, then signals playing,
    then waits on playersWaitEnd, each at most once and in that order; a
    process that ends with EXIT_SUCCESS has made all three if
    playerConstituteTeam returned a team other than 0, and none if it
    returned 0. *)
Theorem match_in_order (id : Z) tr c :
  ptrace id tr c ->
  match_events tr `prefix_of` whole_match /\
  (pc c = Exited EXIT_SUCCESS ->
     match_events tr = if ret c =? 0 then [] else whole_match).
Proof.
  intros Htr. pose proof (ptrace_match id tr c Htr) as Hinv. unfold match_inv in Hinv.
  destruct (pc c) as [] eqn:Hpc;
    try match type of Hpc with _ = Exited ?z => destruct z end.
  all: unfold EXIT_SUCCESS.
  all: try (rewrite Hinv; split; [by eexists|discriminate]).
  all: try (rewrite Hinv; split; [|done]; destruct (ret c =? 0); [by eexists|done]).
  all: destruct Hinv as [Hp _]; split; [exact Hp|discriminate].
Qed.
End Match.

Lemma follower_life_ptrace : ptrace 0 (follower_life.1.1) (follower_life.1.2).
Proof.
  apply (run_from_start 0 64
           (mkMem (mkFullStat (replicate 10 ARRIVING) (replicate 3 G_ARRIVING) 0 0 0 1)
                  (mkSemSet 1 1 0 0 0 1 0 1)) _ _ (follower_life.2)).
  reflexivity.
Qed.

Lemma match_in_order_witness :
  pc (follower_life.1.2) = Exited EXIT_SUCCESS /\ ret (follower_life.1.2) = 1 /\
  match_events (follower_life.1.1) = whole_match.
Proof.
  split; [reflexivity|]. split; [reflexivity|].
  destruct (match_in_order 0 _ _ follower_life_ptrace) as [_ H].
  exact (H eq_refl).
Defined.

Lemma statuses_of_a_life_witness :
  pc (follower_life.1.2) = Exited EXIT_SUCCESS /\ ret (follower_life.1.2) = 1 /\
  exists role,
    role ∈ [LATE; FORMING_TEAM; WAITING_TEAMS] /\
    stats (follower_life.1.1) = life_statuses role 1 /\
    stats (follower_life.1.1) = [ARRIVING; WAITING_TEAMS; WAITING_START_1; PLAYING_1].
Proof.
  split; [reflexivity|]. split; [reflexivity|].
  destruct (statuses_of_a_life 0 _ _ follower_life_ptrace) as (_ & _ & role & Hr & _ & He).
  exists role. split; [exact Hr|]. split; [exact (He eq_refl)|reflexivity].
Defined.

(** ** The status array in a game *)

Section StatusArray.
Context {PCst : ProbConst}.

(** What one statement does to the status array. *)
Lemma pstep_status id ok c m evs c' m' :
  pstep id ok c m = Next evs c' m' ->
  match evs with
  | [EvStat j st] =>
      j = id /\ in_bounds id (playerStat (fSt m)) = true /\
      playerStat (fSt m') = <[Z.to_nat id := st]> (playerStat (fSt m))
  | _ => playerStat (fSt m') = playerStat (fSt m)
  end.
Proof.
  intros Hstep. step_inv Hstep; simpl; auto.
Qed.

End StatusArray.

Lemma in_bounds_lt {A} (i : nat) (l : list A) :
  in_bounds (Z.of_nat i) l = true <-> (i < length l)%nat.
Proof.
  unfold in_bounds. rewrite andb_true_iff, Z.leb_le, Z.ltb_lt. lia.
Qed.

Section StatusInGame.
Context {PCst : ProbConst} {E : Type}.
Variable peer_step : E -> Mem -> list Event -> E -> Mem -> Prop.
Hypothesis peers_keep_status : forall e m evs e' m',
  peer_step e m evs e' m' -> playerStat (fSt m') = playerStat (fSt m).

Lemma shown_snoc (i : nat) tr a evs :
  shown i (tr ++ [(a, evs)]) =
  match a, evs with
  | Player j, [EvStat _ st] => if decide (j = i) then Some st else shown i tr
  | _, _ => shown i tr
  end.
Proof.
  unfold shown. rewrite of_player_snoc.
  destruct a as [j|]; [|by rewrite app_nil_r].
  destruct (decide (j = i)); [|by destruct evs as [|[] [|]]; rewrite app_nil_r].
  rewrite stats_snoc.
  destruct evs as [|[] [|]]; rewrite ?app_nil_r; try done.
  by rewrite last_snoc.
Qed.

Lemma reach_status (σ0 σ : Sys E) tr :
  reach peer_step σ0 tr σ ->
  length (players σ) = length (players σ0) /\
  length (playerStat (fSt (mem σ))) = length (playerStat (fSt (mem σ0))) /\
  forall i, playerStat (fSt (mem σ)) !! i =
            match shown i tr with
            | Some st => Some st
            | None => playerStat (fSt (mem σ0)) !! i
            end.
Proof.
  induction 1 as [|tr σ lbl σ' _ (IHp & IHl & IHs) Hstep]; [done|].
  destruct Hstep as [σ j d ok evs d' m' Hj Hstep|σ evs e' m' Hstep]; simpl.
  - rewrite length_insert. split; [done|].
    apply pstep_status in Hstep.
    assert (Hother : playerStat (fSt m') = playerStat (fSt (mem σ)) ->
              length (playerStat (fSt m')) = length (playerStat (fSt (mem σ0))) /\
              forall i, playerStat (fSt m') !! i =
                        match shown i tr with
                        | Some st => Some st
                        | None => playerStat (fSt (mem σ0)) !! i
                        end).
    { intros ->. by split. }
    destruct evs as [|e [|]]; try destruct e;
      try (destruct (Hother Hstep) as [Hl Hs]; split; [exact Hl|];
           intros i; rewrite shown_snoc; apply Hs).
    destruct Hstep as (-> & Hb & ->). rewrite Nat2Z.id, length_insert.
    split; [done|]. intros i. rewrite shown_snoc.
    apply in_bounds_lt in Hb.
    destruct (decide (j = i)) as [->|Hne].
    + by rewrite list_lookup_insert_eq.
    + rewrite list_lookup_insert_ne by done. apply IHs.
  - split; [done|]. rewrite (peers_keep_status _ _ _ _ _ Hstep).
    split; [done|]. intros i. rewrite shown_snoc. apply IHs.
Qed.

(** X6.  In a game whose other processes leave the players' status array
    alone: the array keeps its length, and the entry of each player shows
    the status that player stored last, or what the entry held at first if
    the player has stored none; no process changes the entry of another
    player. *)
Theorem status_array_shows_last_store (σ0 σ : Sys E) tr (i : nat) :
  reach peer_step σ0 tr σ ->
  length (playerStat (fSt (mem σ))) = length (playerStat (fSt (mem σ0))) /\
  playerStat (fSt (mem σ)) !! i =
    match shown i tr with
    | Some st => Some st
    | None => playerStat (fSt (mem σ0)) !! i
    end.
Proof.
  intros Hr. destruct (reach_status σ0 σ tr Hr) as (_ & Hl & Hs). split; [exact Hl|apply Hs].
Qed.

(** X7.  In such a game where every player starts at arrive, every call
    of saveState by a player hands over the shared record as it stands, and
    in that record the player's own entry shows the status the player has
    just stored: no snapshot is taken before the status is set, and none
    shows the player in an older status. *)
Theorem snapshot_shows_own_status (σ0 σ σ' : Sys E) tr (i : nat) snap :
  Forall (fun c => c = start) (players σ0) ->
  reach peer_step σ0 tr σ ->
  sys_step peer_step σ (Player i, [EvSave snap]) σ' ->
  snap = fSt (mem σ) /\
  exists st, shown i tr = Some st /\ playerStat snap !! i = Some st /\
             stats (of_player i tr) <> [].
Proof.
  intros H0 Hr Hstep.
  inversion Hstep as [σ1 i1 c ok evs c' m' Hi Hp|]; subst.
  pose proof (reach_ptrace peer_step σ0 σ tr i c H0 Hr Hi) as Htr.
  apply ptrace_status in Htr. unfold status_inv in Htr.
  destruct (reach_status σ0 σ tr Hr) as (_ & _ & Hs). specialize (Hs i).
  assert (Hsnap : snap = fSt (mem σ) /\ stats (of_player i tr) <> []).
  { step_inv Hp; split; try reflexivity; locals; unfold life_statuses; simpl; done. }
  destruct Hsnap as [-> Hne]. split; [reflexivity|].
  unfold shown in *. destruct (last (stats (of_player i tr))) as [st|] eqn:Hlast.
  - exists st. done.
  - apply last_None in Hlast. done.
Qed.

End StatusInGame.

(** ** Arrivals and team ids in a game *)

Section ArrivedOnce.
Context {PCst : ProbConst}.

(** A running player has made its arrival statement exactly when it stands
    after line 182. *)
Lemma ptrace_arrived (id : Z) tr c :
  ptrace id tr c -> ended (pc c) = false -> arrived_pc (pc c) = true -> ranks tr <> [].
Proof.
  induction 1 as [|tr c ok m evs c' m' Htr IH Hstep]; [done|].
  rewrite ranks_snoc.
  step_inv Hstep; simpl in *; branches; simpl in *; rewrite ?app_nil_r; intros; try done.
  all: try (apply IH; done).
  all: by destruct (ranks tr).
Qed.

(** What one statement does to playersArrived and to teamId. *)
Lemma pstep_teamId id ok c m evs c' m' :
  pstep id ok c m = Next evs c' m' ->
  match kind evs with
  | KClaim v => v = teamId (fSt m) /\ teamId (fSt m') = v + 1
  | _ => teamId (fSt m') = teamId (fSt m)
  end.
Proof.
  intros Hstep. step_inv Hstep; simpl; auto.
  all: by destruct (team c =? 1).
Qed.

End ArrivedOnce.

Lemma arrival_in_game i tr :
  i ∈ arrivals tr <-> ranks (of_player i tr) <> [].
Proof.
  unfold arrivals. split.
  - intros H. apply list_elem_of_fmap in H as ([j w] & -> & H).
    apply arrival_of_player in H. simpl. intros E. rewrite E in H. by apply elem_of_nil in H.
  - induction tr as [|[a evs] tr IH] using rev_ind; [done|].
    rewrite of_player_snoc, arrivals_ranked_snoc, fmap_app, elem_of_app.
    destruct a as [j|]; [|rewrite app_nil_r; auto].
    destruct (decide (j = i)) as [->|Hne].
    + rewrite ranks_snoc. destruct (arrival_rank evs) as [w|].
      * intros _. right. apply list_elem_of_here.
      * rewrite app_nil_r. auto.
    + rewrite app_nil_r. auto.
Qed.

Section ArrivalsInGame.
Context {PCst : ProbConst} {E : Type}.
Variable peer_step : E -> Mem -> list Event -> E -> Mem -> Prop.
Hypothesis peers_keep_arrived : forall e m evs e' m',
  peer_step e m evs e' m' -> playersArrived (fSt m') = playersArrived (fSt m).

Lemma reach_counts_arrivals (σ0 σ : Sys E) tr :
  Forall (fun c => c = start) (players σ0) ->
  reach peer_step σ0 tr σ ->
  length (players σ) = length (players σ0) /\
  playersArrived (fSt (mem σ)) =
    playersArrived (fSt (mem σ0)) + Z.of_nat (length (arrivals tr)) /\
  NoDup (arrivals tr) /\
  forall i, i ∈ arrivals tr -> (i < length (players σ0))%nat.
Proof.
  intros H0 Hr. induction Hr as [|tr σ lbl σ' Hr (IHp & IHn & IHd & IHb) Hstep].
  { simpl. repeat split; [lia|constructor|]. intros i H. by apply elem_of_nil in H. }
  unfold arrivals in *.
  destruct Hstep as [σ j d ok evs d' m' Hj Hstep|σ evs e' m' Hstep];
    rewrite arrivals_ranked_snoc; simpl.
  - rewrite length_insert. split; [done|].
    pose proof (reach_ptrace peer_step σ0 σ tr j d H0 Hr Hj) as Htr.
    apply ptrace_lateness in Htr as (Hbefore & _).
    pose proof (pstep_arrival _ _ _ _ _ _ _ Hstep) as Ha.
    destruct (arrival_rank evs) as [w|] eqn:Hw.
    + destruct Ha as [-> Hm']. rewrite fmap_app, length_app; simpl.
      split; [lia|]. split.
      * apply NoDup_app. split; [done|]. split; [|apply NoDup_singleton].
        intros i Hi Hi'. apply list_elem_of_singleton in Hi'. subst i.
        apply (arrival_in_game j tr) in Hi. apply Hi.
        assert (Hpc : arrived_pc (pc d) = false).
        { step_inv Hstep; try discriminate; reflexivity. }
        by destruct (Hbefore Hpc).
      * intros i Hi. apply elem_of_app in Hi as [Hi|Hi]; [by apply IHb|].
        apply list_elem_of_singleton in Hi. subst i.
        apply lookup_lt_Some in Hj. lia.
    + rewrite app_nil_r. split; [congruence|]. split; done.
  - split; [done|]. rewrite app_nil_r.
    rewrite (peers_keep_arrived _ _ _ _ _ Hstep). split; [done|]. split; done.
Qed.

(** X9.  In a game whose other processes leave playersArrived alone and
    whose players start at arrive, playersArrived starting within the range
    of an int with room for one arrival per player: playersArrived has
    grown by one for each player that has made the arrival statement of
    line 182 and has never left the range of an int, no player is counted
    twice, so that the count never passes the number of players, and a
    running player has been counted exactly when it stands after that
    statement. *)
Theorem arrivals_counted_once (σ0 σ : Sys E) tr :
  Forall (fun c => c = start) (players σ0) ->
  INT_MIN <= playersArrived (fSt (mem σ0)) ->
  playersArrived (fSt (mem σ0)) + Z.of_nat (length (players σ0)) <= INT_MAX ->
  reach peer_step σ0 tr σ ->
  playersArrived (fSt (mem σ)) =
    playersArrived (fSt (mem σ0)) + Z.of_nat (length (arrivals tr)) /\
  INT_MIN <= playersArrived (fSt (mem σ)) <= INT_MAX /\
  NoDup (arrivals tr) /\
  (length (arrivals tr) <= length (players σ))%nat /\
  forall i c, players σ !! i = Some c -> ended (pc c) = false ->
    (i ∈ arrivals tr <-> arrived_pc (pc c) = true).
Proof.
  intros H0 Hlo Hhi Hr.
  destruct (reach_counts_arrivals σ0 σ tr H0 Hr)
    as (Hp & Hn & Hd & Hb).
  assert (Hlen : (length (arrivals tr) <= length (players σ0))%nat).
  { rewrite <- (length_seq (length (players σ0)) 0).
    apply submseteq_length, NoDup_submseteq; [exact Hd|].
    intros i Hi. apply elem_of_seq. specialize (Hb i Hi). lia. }
  split; [exact Hn|]. split; [lia|]. split; [exact Hd|]. split; [lia|].
  intros i c Hi Hne.
  pose proof (reach_ptrace peer_step σ0 σ tr i c H0 Hr Hi) as Htr.
  rewrite arrival_in_game. split.
  - intros Hr'. destruct (arrived_pc (pc c)) eqn:Hpc; [done|].
    apply ptrace_lateness in Htr as (Hbefore & _). by destruct (Hbefore Hpc).
  - by apply (ptrace_arrived _ _ _ Htr).
Qed.

End ArrivalsInGame.

Lemma claimed_snoc tr a evs :
  claimed (tr ++ [(a, evs)]) =
  claimed tr ++ match a, kind evs with
                | Player i, KClaim v => [(i, v)]
                | _, _ => []
                end.
Proof.
  unfold claimed. rewrite omap_app. simpl.
  destruct a; [destruct (kind evs)|]; reflexivity.
Qed.

Lemma joined_snoc tr a evs :
  joined (tr ++ [(a, evs)]) =
  joined tr ++ match a, kind evs with
               | Player i, KRead v => [(i, v)]
               | _, _ => []
               end.
Proof.
  unfold joined. rewrite omap_app. simpl.
  destruct a; [destruct (kind evs)|]; reflexivity.
Qed.

Lemma teamed_snoc tr a evs :
  teamed (tr ++ [(a, evs)]) =
  teamed tr ++ match a, kind evs with
               | Player i, KClaim _ | Player i, KRead _ => [i]
               | _, _ => []
               end.
Proof.
  unfold teamed. rewrite omap_app. simpl.
  destruct a; [destruct (kind evs)|]; reflexivity.
Qed.

Lemma claimed_of_player (i : nat) (v : Z) tr :
  (i, v) ∈ claimed tr <-> v ∈ claims (of_player i tr).
Proof.
  induction tr as [|[a evs] tr IH] using rev_ind; [by split; intros H; in_list H|].
  rewrite claimed_snoc, of_player_snoc, !elem_of_app, IH.
  destruct a as [j|]; simpl.
  - destruct (decide (j = i)) as [->|Hne].
    + rewrite claims_snoc, elem_of_app.
      destruct (kind evs); simpl; rewrite ?list_elem_of_singleton; split;
        intros [H|H]; auto; try (in_list H; fail); right; congruence.
    + rewrite app_nil_r.
      destruct (kind evs); simpl; rewrite ?list_elem_of_singleton; split;
        intros H; auto; destruct H as [H|H]; auto; try (in_list H; fail); congruence.
  - rewrite app_nil_r. split; [intros [H|H]; [done|in_list H]|auto].
Qed.

Lemma joined_of_player (i : nat) (v : Z) tr :
  (i, v) ∈ joined tr <-> v ∈ reads (of_player i tr).
Proof.
  induction tr as [|[a evs] tr IH] using rev_ind; [by split; intros H; in_list H|].
  rewrite joined_snoc, of_player_snoc, !elem_of_app, IH.
  destruct a as [j|]; simpl.
  - destruct (decide (j = i)) as [->|Hne].
    + rewrite reads_snoc, elem_of_app.
      destruct (kind evs); simpl; rewrite ?list_elem_of_singleton; split;
        intros [H|H]; auto; try (in_list H; fail); right; congruence.
    + rewrite app_nil_r.
      destruct (kind evs); simpl; rewrite ?list_elem_of_singleton; split;
        intros H; auto; destruct H as [H|H]; auto; try (in_list H; fail); congruence.
  - rewrite app_nil_r. split; [intros [H|H]; [done|in_list H]|auto].
Qed.

Lemma teamed_of_player (i : nat) tr :
  i ∈ teamed tr <-> claims (of_player i tr) <> [] \/ reads (of_player i tr) <> [].
Proof.
  assert (Hne : forall (A : Type) (l : list A) (x : A), l ++ [x] <> []).
  { intros A l x H. by apply app_eq_nil in H as [_ ?]. }
  induction tr as [|[a evs] tr IH] using rev_ind.
  { split; [intros H; in_list H|intros [H|H]; done]. }
  rewrite teamed_snoc, of_player_snoc, elem_of_app, IH.
  destruct a as [j|]; simpl.
  - destruct (decide (j = i)) as [->|Hji].
    + rewrite claims_snoc, reads_snoc.
      destruct (kind evs) as [|r| |v|]; simpl;
        rewrite ?app_nil_r, ?elem_of_nil, ?list_elem_of_singleton; try tauto.
      * pose proof (Hne _ (reads (of_player i tr)) r). tauto.
      * pose proof (Hne _ (claims (of_player i tr)) v). tauto.
    + rewrite !app_nil_r.
      destruct (kind evs); simpl;
        rewrite ?elem_of_nil, ?list_elem_of_singleton; intuition congruence.
  - rewrite !app_nil_r, elem_of_nil. tauto.
Qed.

Lemma teamed_length tr :
  length (teamed tr) = (length (claimed tr) + length (joined tr))%nat.
Proof.
  induction tr as [|[a evs] tr IH] using rev_ind; [done|].
  rewrite teamed_snoc, claimed_snoc, joined_snoc, !length_app, IH.
  destruct a as [j|]; [destruct (kind evs)|]; simpl; lia.
Qed.

Section TeamsInGame.
Context {PCst : ProbConst} {E : Type}.
Variable peer_step : E -> Mem -> list Event -> E -> Mem -> Prop.
Hypothesis peers_keep_teamId : forall e m evs e' m',
  peer_step e m evs e' m' -> teamId (fSt m') = teamId (fSt m).

(** teamId counts the claims, and nobody takes two places. *)
Lemma reach_teams (σ0 σ : Sys E) tr :
  Forall (fun c => c = start) (players σ0) ->
  reach peer_step σ0 tr σ ->
  length (players σ) = length (players σ0) /\
  teamId (fSt (mem σ)) = teamId (fSt (mem σ0)) + Z.of_nat (length (claimed tr)) /\
  (forall k p, claimed tr !! k = Some p -> p.2 = teamId (fSt (mem σ0)) + Z.of_nat k) /\
  NoDup (teamed tr) /\
  (forall i, i ∈ teamed tr -> (i < length (players σ0))%nat).
Proof.
  intros H0 Hr. induction Hr as [|tr σ lbl σ' Hr (IHp & IHt & IHk & IHd & IHb) Hstep].
  { split; [done|]. split; [simpl; lia|]. split; [intros k p H; done|].
    split; [apply NoDup_nil_2|]. intros i H. in_list H. }
  destruct Hstep as [σ j d ok evs d' m' Hj Hstep|σ evs e' m' Hstep];
    rewrite claimed_snoc, teamed_snoc; simpl.
  - rewrite length_insert. split; [done|].
    pose proof (reach_ptrace peer_step σ0 σ tr j d H0 Hr Hj) as Htr.
    pose proof (ptrace_life _ _ _ Htr) as (_ & Hcl & _).
    pose proof (ptrace_roles _ _ _ Htr) as (Hrd & _).
    assert (Hnew : pc d = L212 \/ pc d = L242 -> j ∉ teamed tr).
    { intros Hpc Hin. apply teamed_of_player in Hin as [Hin|Hin].
      - destruct (claims (of_player j tr)) as [|v l] eqn:Eq; [done|].
        destruct (Hcl v (list_elem_of_here _ _)) as [_ Hac]. unfold after_claim in Hac.
        destruct Hpc as [Hpc|Hpc]; rewrite Hpc in Hac; simpl in Hac;
          intuition discriminate.
      - destruct (reads (of_player j tr)) as [|v l] eqn:Eq; [done|].
        destruct (Hrd v (list_elem_of_here _ _)) as [_ Hrp].
        destruct Hpc as [Hpc|Hpc]; rewrite Hpc in Hrp; discriminate. }
    assert (Hat : match kind evs with
                  | KClaim _ => pc d = L212
                  | KRead _ => pc d = L242
                  | _ => True
                  end).
    { clear -Hstep. step_inv Hstep; simpl; auto; by destruct (team d =? 1). }
    apply pstep_teamId in Hstep.
    assert (Hj' : (j < length (players σ0))%nat) by (apply lookup_lt_Some in Hj; lia).
    destruct (kind evs) as [|r| |v|]; simpl; rewrite ?app_nil_r.
    + rewrite Hstep. done.
    + rewrite Hstep. split; [done|]. split; [done|]. split.
      * apply NoDup_app. split; [done|]. split; [|apply NoDup_singleton].
        intros i Hi Hi'. apply list_elem_of_singleton in Hi'. subst i. by apply Hnew; [right|].
      * intros i Hi. apply elem_of_app in Hi as [Hi|Hi]; [by apply IHb|].
        apply list_elem_of_singleton in Hi. by subst i.
    + rewrite Hstep. done.
    + destruct Hstep as [-> Hm']. rewrite Hm', length_app. simpl. split; [lia|]. split.
      * intros k p Hk. apply lookup_app_Some in Hk as [Hk|[Hge Hk]]; [by apply IHk|].
        apply list_lookup_singleton_Some in Hk as [Hk0 <-]. simpl. lia.
      * split.
        -- apply NoDup_app. split; [done|]. split; [|apply NoDup_singleton].
           intros i Hi Hi'. apply list_elem_of_singleton in Hi'. subst i.
           by apply Hnew; [left|].
        -- intros i Hi. apply elem_of_app in Hi as [Hi|Hi]; [by apply IHb|].
           apply list_elem_of_singleton in Hi. by subst i.
    + rewrite Hstep. done.
  - rewrite !app_nil_r. rewrite (peers_keep_teamId _ _ _ _ _ Hstep). done.
Qed.

Lemma teams_bounded (σ0 σ : Sys E) tr :
  Forall (fun c => c = start) (players σ0) ->
  reach peer_step σ0 tr σ ->
  (length (claimed tr) + length (joined tr) <= length (players σ0))%nat.
Proof.
  intros H0 Hr. destruct (reach_teams σ0 σ tr H0 Hr) as (_ & _ & _ & Hd & Hb).
  rewrite <- teamed_length, <- (length_seq (length (players σ0)) 0).
  apply submseteq_length, NoDup_submseteq; [exact Hd|].
  intros i Hi. apply elem_of_seq. specialize (Hb i Hi). lia.
Qed.

End TeamsInGame.

Lemma claimed_leaders tr : map fst (claimed tr) `sublist_of` teamed tr.
Proof.
  induction tr as [|[a evs] tr IH] using rev_ind; [done|].
  rewrite claimed_snoc, teamed_snoc, map_app.
  apply sublist_app; [exact IH|].
  destruct a as [i|]; [destruct (kind evs)|]; simpl; try done.
  by apply sublist_nil_l.
Qed.

Section TeamIds.
Context {PCst : ProbConst} {E : Type}.
Variable peer_step : E -> Mem -> list Event -> E -> Mem -> Prop.
Hypothesis peers_keep_teamId : forall e m evs e' m',
  peer_step e m evs e' m' -> teamId (fSt m') = teamId (fSt m).

(** X10.  In a game whose other processes leave teamId alone and whose
    players start at arrive, teamId starting within the range of an int
    with room for one team per player: the k-th claim of a team id (line
    212) gets the k-th id from the first, so the ids grow strictly from one
    claim to the next and all are below what teamId holds now; teamId has
    never left the range of an int; and no player claims twice: no two
    leaders ever get the same team id. *)
Theorem team_ids_are_distinct (σ0 σ : Sys E) tr :
  Forall (fun c => c = start) (players σ0) ->
  INT_MIN <= teamId (fSt (mem σ0)) ->
  teamId (fSt (mem σ0)) + Z.of_nat (length (players σ0)) <= INT_MAX ->
  reach peer_step σ0 tr σ ->
  teamId (fSt (mem σ0)) <= teamId (fSt (mem σ)) <= INT_MAX /\
  (forall k p, claimed tr !! k = Some p ->
     p.2 = teamId (fSt (mem σ0)) + Z.of_nat k /\
     teamId (fSt (mem σ0)) <= p.2 < teamId (fSt (mem σ))) /\
  (forall k1 k2 p1 p2, claimed tr !! k1 = Some p1 -> claimed tr !! k2 = Some p2 ->
     (k1 < k2)%nat -> p1.2 < p2.2) /\
  NoDup (map fst (claimed tr)).
Proof.
  intros H0 Hlo Hhi Hr.
  destruct (reach_teams peer_step peers_keep_teamId σ0 σ tr H0 Hr)
    as (_ & Hid & Hkth & Hnd & _).
  pose proof (teams_bounded peer_step peers_keep_teamId σ0 σ tr H0 Hr) as Hbound.
  split; [lia|]. split; [|split].
  - intros k p Hk. pose proof (Hkth k p Hk) as Hp. apply lookup_lt_Some in Hk. lia.
  - intros k1 k2 p1 p2 H1 H2 Hlt.
    rewrite (Hkth k1 p1 H1), (Hkth k2 p2 H2). lia.
  - apply (sublist_NoDup _ _ Hnd), claimed_leaders.
Qed.

End TeamIds.

(** The goalies leave the players' part of the record alone. *)
Lemma goalies_keep_players gs m evs gs' m' :
  goalies_step gs m evs gs' m' ->
  playerStat (fSt m') = playerStat (fSt m) /\
  playersArrived (fSt m') = playersArrived (fSt m) /\
  teamId (fSt m') = teamId (fSt m).
Proof.
  intros (j & g & g' & Hj & Hstep & ->). gstep_inv Hstep; simpl; done.
Qed.

(** ** The arguments of main *)

Lemma digit_of_digit_char (d : Z) : 0 <= d <= 9 -> digit_of (digit_char d) = Some d.
Proof.
  intros H.
  assert (Hd : d = 0 \/ d = 1 \/ d = 2 \/ d = 3 \/ d = 4 \/ d = 5 \/ d = 6 \/ d = 7 \/
               d = 8 \/ d = 9) by lia.
  repeat destruct Hd as [->|Hd]; try subst d; reflexivity.
Qed.

Lemma digits_numeral (base : Z) (ds : list Z) : forall (acc : Z) (any : bool) (rest : string),
  Forall (fun d => 0 <= d <= 9 /\ d < base) ds ->
  stops base rest = true ->
  digits base acc any (numeral ds +:+ rest) =
    (value_from base acc ds, any || negb (bool_decide (ds = [])), rest).
Proof.
  induction ds as [|d ds IH]; intros acc any rest Hds Hstop; simpl.
  - rewrite orb_false_r. destruct rest as [|c r]; [done|]. simpl in *.
    destruct (digit_of c) as [x|]; [|done].
    apply negb_true_iff in Hstop. by rewrite Hstop.
  - apply Forall_cons in Hds as [[Hd Hb] Hds].
    rewrite (digit_of_digit_char d Hd).
    apply Z.ltb_lt in Hb. rewrite Hb.
    rewrite (IH _ true rest Hds Hstop). by rewrite orb_true_r.
Qed.

Lemma to_int_small (v : Z) : 0 <= v < 2 ^ 31 -> to_int (to_unsigned_int v) = v.
Proof.
  intros H. unfold to_int, to_unsigned_int.
  rewrite Z.mod_mod by lia. rewrite Z.mod_small by lia.
  destruct (v <? 2 ^ 31) eqn:E; [done|]. apply Z.ltb_ge in E. lia.
Qed.

Lemma value_from_ge (base : Z) (ds : list Z) : forall acc,
  0 <= base -> 0 <= acc -> Forall (fun d => 0 <= d <= 9) ds -> 0 <= value_from base acc ds.
Proof.
  induction ds as [|d ds IH]; intros acc Hb Ha Hds; simpl; [done|].
  apply Forall_cons in Hds as [Hd Hds]. apply IH; [done| |done]. nia.
Qed.

(** strtol on a decimal numeral that does not start with 0, followed by
    something that is not a decimal digit. *)
Lemma strtol_decimal (d : Z) (ds : list Z) (rest : string) :
  1 <= d <= 9 -> Forall (fun x => 0 <= x <= 9) ds -> stops 10 rest = true ->
  strtol (numeral (d :: ds) +:+ rest) =
    (Z.max LONG_MIN (Z.min LONG_MAX (value_from 10 0 (d :: ds))), rest).
Proof.
  intros Hd Hds Hstop.
  assert (Hall : Forall (fun x => 0 <= x <= 9 /\ x < 10) ds).
  { eapply Forall_impl; [exact Hds|]. simpl. lia. }
  assert (Hdig : forall acc, digits 10 acc true (numeral ds +:+ rest) =
                             (value_from 10 acc ds, true, rest)).
  { intros acc. by rewrite (digits_numeral 10 ds acc true rest Hall Hstop). }
  assert (Hc : d = 1 \/ d = 2 \/ d = 3 \/ d = 4 \/ d = 5 \/ d = 6 \/ d = 7 \/ d = 8 \/ d = 9)
    by lia.
  unfold strtol. cbn [numeral String.app].
  set (tail := numeral ds +:+ rest) in *.
  repeat destruct Hc as [->|Hc]; try subst d; simpl; rewrite Hdig; reflexivity.
Qed.

Lemma string_app_empty (s : string) : s +:+ EmptyString = s.
Proof.
  induction s as [|c s IH]; [done|].
  change (String c (s +:+ EmptyString) = String c s). by rewrite IH.
Qed.

Lemma strtol_blank (s : string) : blank s = true -> strtol s = (0, s).
Proof.
  intros Hb. unfold strtol.
  assert (Hs : skip_space s = EmptyString).
  { induction s as [|c s IH]; simpl in *; [done|].
    apply andb_true_iff in Hb as [Hc Hb]. rewrite Hc. by apply IH. }
  rewrite Hs. reflexivity.
Qed.

Section Arguments.
Context {PCst : ProbConst}.

(** X11.  An argument that writes a player number in decimal, without a
    leading zero, is accepted when the number is below NUMPLAYERS (and
    within an [int]), and the life cycle is run for that very number. *)
Theorem decimal_id_is_accepted (a0 a2 a3 : string) (d : Z) (ds : list Z) :
  1 <= d <= 9 -> Forall (fun x => 0 <= x <= 9) ds ->
  value_from 10 0 (d :: ds) < NUMPLAYERS ->
  value_from 10 0 (d :: ds) < 2 ^ 31 ->
  main_validate [a0; numeral (d :: ds); a2; a3] = StartLifeCycle (value_from 10 0 (d :: ds)).
Proof.
  intros Hd Hds Hn Hi.
  pose proof (strtol_decimal d ds EmptyString Hd Hds eq_refl) as Hs.
  rewrite string_app_empty in Hs.
  assert (H0 : 0 <= value_from 10 0 (d :: ds)).
  { apply value_from_ge; [lia|lia|]. constructor; [lia|done]. }
  unfold main_validate. cbn [length Nat.eqb negb lookup list_lookup].
  change ([a0; numeral (d :: ds); a2; a3] !! 1%nat) with (Some (numeral (d :: ds))).
  cbv iota beta. rewrite Hs.
  rewrite Z.min_r by (unfold LONG_MAX; lia). rewrite Z.max_r by (unfold LONG_MIN; lia).
  rewrite to_int_small by lia.
  destruct (NUMPLAYERS <=? value_from 10 0 (d :: ds)) eqn:E; [|done].
  apply Z.leb_le in E. lia.
Qed.

(** X12.  An argument made of a decimal number that does not start with
    a zero, followed by a character that is not a decimal digit (a letter,
    a dot, a space, ...), is refused with the message of line 80, however
    small the number. *)
Theorem text_after_the_number_is_refused (a0 a2 a3 : string) (d : Z) (ds : list Z)
    (c : ascii) (rest : string) :
  1 <= d <= 9 -> Forall (fun x => 0 <= x <= 9) ds ->
  stops 10 (String c rest) = true ->
  main_validate [a0; numeral (d :: ds) +:+ String c rest; a2; a3] =
    StartFailure "Player process identification is wrong!".
Proof.
  intros Hd Hds Hstop.
  pose proof (strtol_decimal d ds (String c rest) Hd Hds Hstop) as Hs.
  unfold main_validate. cbn [length Nat.eqb negb].
  change ([a0; numeral (d :: ds) +:+ String c rest; a2; a3] !! 1%nat)
    with (Some (numeral (d :: ds) +:+ String c rest)).
  cbv iota beta. rewrite Hs. reflexivity.
Qed.

(** X13.  An argument without any character is accepted and stands for
    player 0 (strtol converts nothing and leaves its end pointer at the
    terminating NUL); one made of white space only is refused. *)
Theorem blank_argument (a0 a2 a3 : string) (ws : string) :
  blank ws = true -> 0 < NUMPLAYERS ->
  main_validate [a0; ws; a2; a3] =
    match ws with
    | EmptyString => StartLifeCycle 0
    | String _ _ => StartFailure "Player process identification is wrong!"
    end.
Proof.
  intros Hb Hn. unfold main_validate. cbn [length Nat.eqb negb].
  change ([a0; ws; a2; a3] !! 1%nat) with (Some ws).
  cbv iota beta. rewrite (strtol_blank ws Hb).
  destruct ws as [|c ws]; [|reflexivity].
  change (to_int (to_unsigned_int 0)) with 0.
  destruct (NUMPLAYERS <=? 0) eqn:E; [|done]. apply Z.leb_le in E. lia.
Qed.

End Arguments.

(** strtol on a numeral of octal digits after a leading zero, at the end of
    the argument or before an 8 or a 9. *)
Lemma strtol_octal (ds : list Z) (rest : string) :
  Forall (fun x => 0 <= x <= 7) ds ->
  (rest = EmptyString \/ exists d r, 8 <= d <= 9 /\ rest = String (digit_char d) r) ->
  strtol (String "0" (numeral ds +:+ rest)) =
    (Z.max LONG_MIN (Z.min LONG_MAX (value_from 8 0 ds)), rest).
Proof.
  intros Hds Hrest.
  assert (Hstop : stops 8 rest = true).
  { destruct Hrest as [->|(d & r & Hd & ->)]; [done|].
    simpl. rewrite digit_of_digit_char by lia.
    apply negb_true_iff, Z.ltb_ge. lia. }
  assert (Hall : Forall (fun x => 0 <= x <= 9 /\ x < 8) (0 :: ds)).
  { constructor; [lia|]. eapply Forall_impl; [exact Hds|]. simpl. lia. }
  pose proof (digits_numeral 8 (0 :: ds) 0 false rest Hall Hstop) as Hdig.
  change (numeral (0 :: ds) +:+ rest) with (String "0" (numeral ds +:+ rest)) in Hdig.
  change (value_from 8 0 (0 :: ds)) with (value_from 8 0 ds) in Hdig.
  assert (Hbase : forall tail,
            (forall x h r, tail = String x (String h r) ->
               ((x =? "x") || (x =? "X"))%char = false) ->
            strtol (String "0" tail) =
              (let '(v, any, rest) := digits 8 0 false (String "0" tail) in
               if any then (Z.max LONG_MIN (Z.min LONG_MAX v), rest)
               else (0, String "0" tail))).
  { intros tail Hx. unfold strtol.
    destruct tail as [|x [|h r]]; try reflexivity.
    specialize (Hx x h r eq_refl).
    cbn [skip_space]. change (isspace "0") with false.
    cbv beta iota zeta. rewrite Hx. reflexivity. }
  rewrite Hbase.
  - rewrite Hdig. reflexivity.
  - intros x h r Heq.
    assert (Hx : exists d, 0 <= d <= 9 /\ x = digit_char d).
    { destruct ds as [|d1 ds'].
      - destruct Hrest as [->|(d & r' & Hd & ->)]; [done|].
        simpl in Heq. inversion Heq; subst. exists d. split; [lia|done].
      - apply Forall_cons in Hds as [Hd1 _].
        change (numeral (d1 :: ds') +:+ rest)
          with (String (digit_char d1) (numeral ds' +:+ rest)) in Heq.
        inversion Heq; subst. exists d1. split; [lia|done]. }
    destruct Hx as (d & Hd & ->).
    assert (Hc : d = 0 \/ d = 1 \/ d = 2 \/ d = 3 \/ d = 4 \/ d = 5 \/ d = 6 \/ d = 7 \/
                 d = 8 \/ d = 9) by lia.
    repeat destruct Hc as [->|Hc]; try subst d; reflexivity.
Qed.

(** strtol on a numeral after 0x or 0X: its digits are read in base 16. *)
Lemma strtol_hex (x : ascii) (d : Z) (ds : list Z) :
  x = "x"%char \/ x = "X"%char ->
  0 <= d <= 9 -> Forall (fun h => 0 <= h <= 9) ds ->
  strtol (String "0" (String x (numeral (d :: ds)))) =
    (Z.max LONG_MIN (Z.min LONG_MAX (value_from 16 0 (d :: ds))), EmptyString).
Proof.
  intros Hx Hd Hds.
  assert (Hall : Forall (fun h => 0 <= h <= 9 /\ h < 16) ds).
  { eapply Forall_impl; [exact Hds|]. simpl. lia. }
  assert (Hdig : forall acc, digits 16 acc true (numeral ds) =
                             (value_from 16 acc ds, true, EmptyString)).
  { intros acc.
    pose proof (digits_numeral 16 ds acc true EmptyString Hall eq_refl) as H.
    by rewrite string_app_empty in H. }
  assert (Hc : d = 0 \/ d = 1 \/ d = 2 \/ d = 3 \/ d = 4 \/ d = 5 \/ d = 6 \/ d = 7 \/
               d = 8 \/ d = 9) by lia.
  unfold strtol. cbn [numeral].
  set (tail := numeral ds) in *.
  destruct Hx as [->| ->];
    repeat destruct Hc as [->|Hc]; try subst d; simpl; rewrite Hdig; reflexivity.
Qed.

Section LeadingZero.
Context {PCst : ProbConst}.

(** X14.  An argument that starts with a zero is not read in base 10
    (strtol with base 0).  A zero followed by digits 0 to 7 is read in base
    8: "010" stands for player 8; it is accepted with the number its digits
    write in base 8, when that is below NUMPLAYERS, and refused as soon as
    one of its digits is an 8 or a 9.  After 0x or 0X the digits are read
    in base 16: "0x9" stands for player 9 and "0x10" for player 16, accepted
    when the number is below NUMPLAYERS. *)
Theorem leading_zero_is_octal (a0 a2 a3 : string) (ds : list Z) :
  Forall (fun x => 0 <= x <= 7) ds ->
  (value_from 8 0 ds < NUMPLAYERS -> value_from 8 0 ds < 2 ^ 31 ->
   main_validate [a0; String "0" (numeral ds); a2; a3] = StartLifeCycle (value_from 8 0 ds)) /\
  (forall d rest, 8 <= d <= 9 ->
     main_validate [a0; String "0" (numeral ds +:+ String (digit_char d) rest); a2; a3] =
       StartFailure "Player process identification is wrong!") /\
  (forall (x : ascii) (h : Z) (hs : list Z),
     x = "x"%char \/ x = "X"%char ->
     0 <= h <= 9 -> Forall (fun k => 0 <= k <= 9) hs ->
     value_from 16 0 (h :: hs) < NUMPLAYERS -> value_from 16 0 (h :: hs) < 2 ^ 31 ->
     main_validate [a0; String "0" (String x (numeral (h :: hs))); a2; a3] =
       StartLifeCycle (value_from 16 0 (h :: hs))).
Proof.
  intros Hds. split; [|split].
  - intros Hn Hi.
    pose proof (strtol_octal ds EmptyString Hds (or_introl eq_refl)) as Hs.
    rewrite string_app_empty in Hs.
    assert (H0 : 0 <= value_from 8 0 ds).
    { apply value_from_ge; [lia|lia|]. eapply Forall_impl; [exact Hds|]. simpl. lia. }
    unfold main_validate. cbn [length Nat.eqb negb].
    change ([a0; String "0" (numeral ds); a2; a3] !! 1%nat)
      with (Some (String "0" (numeral ds))).
    cbv iota beta. rewrite Hs.
    rewrite Z.min_r by (unfold LONG_MAX; lia). rewrite Z.max_r by (unfold LONG_MIN; lia).
    rewrite to_int_small by lia.
    destruct (NUMPLAYERS <=? value_from 8 0 ds) eqn:E; [|done].
    apply Z.leb_le in E. lia.
  - intros d rest Hd.
    assert (Hr : String (digit_char d) rest = EmptyString \/
                 exists d' r, 8 <= d' <= 9 /\ String (digit_char d) rest = String (digit_char d') r).
    { right. by exists d, rest. }
    pose proof (strtol_octal ds (String (digit_char d) rest) Hds Hr) as Hs.
    unfold main_validate. cbn [length Nat.eqb negb].
    change ([a0; String "0" (numeral ds +:+ String (digit_char d) rest); a2; a3] !! 1%nat)
      with (Some (String "0" (numeral ds +:+ String (digit_char d) rest))).
    cbv iota beta. rewrite Hs. reflexivity.
  - intros x h hs Hx Hh Hhs Hn Hi.
    pose proof (strtol_hex x h hs Hx Hh Hhs) as Hs.
    assert (H0 : 0 <= value_from 16 0 (h :: hs)).
    { apply value_from_ge; [lia|lia|]. constructor; [lia|done]. }
    unfold main_validate. cbn [length Nat.eqb negb].
    change ([a0; String "0" (String x (numeral (h :: hs))); a2; a3] !! 1%nat)
      with (Some (String "0" (String x (numeral (h :: hs))))).
    cbv iota beta. rewrite Hs.
    rewrite Z.min_r by (unfold LONG_MAX; lia). rewrite Z.max_r by (unfold LONG_MIN; lia).
    rewrite to_int_small by lia.
    destruct (NUMPLAYERS <=? value_from 16 0 (h :: hs)) eqn:E; [|done].
    apply Z.leb_le in E. lia.
Qed.

End LeadingZero.

(** ** The name of the log file *)

Lemma strcpy_at_fits (src : string) : forall (i : nat) (dst : list ascii),
  strcpy_at i dst src = None <-> (length dst <= i + String.length src)%nat.
Proof.
  induction src as [|c s IH]; intros i dst; simpl.
  - destruct (decide (i < length dst)%nat); split; intros; try done; lia.
  - destruct (decide (i < length dst)%nat).
    + rewrite IH, length_insert. lia.
    + split; intros; [lia|done].
Qed.

Lemma strcpy_at_holds (src : string) : forall (i : nat) (dst buf : list ascii),
  strcpy_at i dst src = Some buf ->
  length buf = length dst /\ (forall k, (k < i)%nat -> buf !! k = dst !! k) /\
  c_str (drop i buf) = c_str (list_ascii_of_string src).
Proof.
  induction src as [|c s IH]; intros i dst buf H; simpl in H.
  - destruct (decide (i < length dst)%nat) as [Hlt|]; [|done].
    inversion H; subst. rewrite length_insert. split; [done|]. split.
    + intros k Hk. rewrite list_lookup_insert_ne by lia. done.
    + rewrite (drop_S _ NUL i) by (by rewrite list_lookup_insert_eq).
      simpl. by destruct (decide (NUL = NUL)).
  - destruct (decide (i < length dst)%nat) as [Hlt|]; [|done].
    apply IH in H as (Hlen & Hpre & Hstr). rewrite length_insert in Hlen.
    split; [done|].
    assert (Hi : buf !! i = Some c).
    { rewrite Hpre by lia. by rewrite list_lookup_insert_eq. }
    split.
    + intros k Hk. rewrite Hpre by lia. rewrite list_lookup_insert_ne by lia. done.
    + rewrite (drop_S buf c i Hi). simpl.
      destruct (decide (c = NUL)); [done|]. by rewrite Hstr.
Qed.

(** X15.  Line 85 copies argv[2] into the 51 characters of nFic without
    looking at its length.  A name of up to 50 characters is held by nFic
    afterwards, as the string the array then contains; with a longer name
    the copy runs past the end of the array. *)
Theorem log_name_fits (argv : list string) (name : string) :
  argv !! 2%nat = Some name ->
  (nFic_after argv = None <-> (50 < String.length name)%nat) /\
  (forall buf, nFic_after argv = Some buf ->
     length buf = 51%nat /\ c_str buf = c_str (list_ascii_of_string name)).
Proof.
  intros Harg. unfold nFic_after, strcpy. rewrite Harg. split.
  - rewrite strcpy_at_fits, length_replicate. lia.
  - intros buf H. apply strcpy_at_holds in H as (Hlen & _ & Hstr).
    rewrite length_replicate in Hlen. split; [done|]. by rewrite drop_0 in Hstr.
Qed.

(** ** The games of the examples *)

Lemma goalies_keep_status gs m evs gs' m' :
  goalies_step gs m evs gs' m' -> playerStat (fSt m') = playerStat (fSt m).
Proof. intros H. by destruct (goalies_keep_players _ _ _ _ _ H) as (? & _). Qed.

Lemma goalies_keep_arrived gs m evs gs' m' :
  goalies_step gs m evs gs' m' -> playersArrived (fSt m') = playersArrived (fSt m).
Proof. intros H. by destruct (goalies_keep_players _ _ _ _ _ H) as (_ & ? & _). Qed.

Lemma goalies_keep_teamId gs m evs gs' m' :
  goalies_step gs m evs gs' m' -> teamId (fSt m') = teamId (fSt m).
Proof. intros H. by destruct (goalies_keep_players _ _ _ _ _ H) as (_ & _ & ?). Qed.

Lemma kickoff_start (np ng : nat) (tid : Z) :
  Forall (fun c => c = start) (players (kickoff np ng tid)).
Proof. apply Forall_replicate. reflexivity. Qed.

Lemma first_store_reach : reach goalies_step (kickoff 4 1 1) first_store.1 first_store.2.
Proof. apply play_from. Qed.

Lemma status_array_shows_last_store_witness :
  shown 8 (nine_run 1).1 = Some LATE /\
  playerStat (fSt (mem (nine_run 1).2)) !! 8%nat = Some LATE.
Proof.
  assert (Hs : shown 8 (nine_run 1).1 = Some LATE) by (vm_compute; reflexivity).
  split; [exact Hs|].
  destruct (status_array_shows_last_store goalies_step goalies_keep_status
              (kickoff 9 2 1) (nine_run 1).2 (nine_run 1).1 8 (nine_run_reach 1)) as [_ H].
  rewrite Hs in H. exact H.
Defined.

Lemma snapshot_shows_own_status_witness :
  exists snap σ',
    sys_step goalies_step first_store.2 (Player 0, [EvSave snap]) σ' /\
    playerStat snap !! 0%nat = Some ARRIVING.
Proof.
  assert (Ht : turn (P 0) first_store.2 =
               Some (Player 0, [EvSave (fSt (mem first_store.2))],
                     mkSys (<[0%nat := mkConfig L150 0 0 0 0]> (players first_store.2))
                           (peers first_store.2) (mem first_store.2)))
    by (vm_compute; reflexivity).
  apply turn_step in Ht.
  destruct (snapshot_shows_own_status goalies_step goalies_keep_status
              (kickoff 4 1 1) _ _ _ 0%nat _ (kickoff_start 4 1 1) first_store_reach Ht)
    as (_ & st & Hsh & Hst & _).
  assert (Hs : shown 0 first_store.1 = Some ARRIVING) by (vm_compute; reflexivity).
  rewrite Hs in Hsh. inversion Hsh; subst st.
  eexists _, _. split; [exact Ht|exact Hst].
Defined.


Lemma arrivals_counted_once_witness :
  arrivals (nine_run 1).1 = [0; 1; 2; 3; 4; 5; 6; 7; 8]%nat /\
  playersArrived (fSt (mem (nine_run 1).2)) =
    playersArrived (fSt (mem (kickoff 9 2 1))) + Z.of_nat (length (arrivals (nine_run 1).1)) /\
  INT_MIN <= playersArrived (fSt (mem (nine_run 1).2)) <= INT_MAX /\
  NoDup (arrivals (nine_run 1).1).
Proof.
  split; [vm_compute; reflexivity|].
  assert (Hlo : INT_MIN <= playersArrived (fSt (mem (kickoff 9 2 1)))) by (by vm_compute).
  assert (Hhi : playersArrived (fSt (mem (kickoff 9 2 1))) +
                Z.of_nat (length (players (kickoff 9 2 1))) <= INT_MAX) by (by vm_compute).
  destruct (arrivals_counted_once goalies_step goalies_keep_arrived
              (kickoff 9 2 1) (nine_run 1).2 (nine_run 1).1
              (kickoff_start 9 2 1) Hlo Hhi (nine_run_reach 1)) as (Hn & Hrange & Hd & _).
  split; [exact Hn|]. split; [exact Hrange|exact Hd].
Defined.

Lemma team_ids_are_distinct_witness :
  claimed (nine_run 1).1 = [(3%nat, 1); (7%nat, 2)] /\
  teamId (fSt (mem (nine_run 1).2)) <= INT_MAX /\
  forall k p, claimed (nine_run 1).1 !! k = Some p ->
    p.2 = 1 + Z.of_nat k /\
    teamId (fSt (mem (kickoff 9 2 1))) <= p.2 < teamId (fSt (mem (nine_run 1).2)).
Proof.
  split; [vm_compute; reflexivity|].
  assert (Hlo : INT_MIN <= teamId (fSt (mem (kickoff 9 2 1)))) by (by vm_compute).
  assert (Hhi : teamId (fSt (mem (kickoff 9 2 1))) +
                Z.of_nat (length (players (kickoff 9 2 1))) <= INT_MAX) by (by vm_compute).
  destruct (team_ids_are_distinct goalies_step goalies_keep_teamId
              (kickoff 9 2 1) (nine_run 1).2 (nine_run 1).1
              (kickoff_start 9 2 1) Hlo Hhi (nine_run_reach 1)) as ([_ Hmax] & H & _).
  split; [exact Hmax|exact H].
Defined.

Lemma decimal_id_is_accepted_witness :
  main_validate ["player"; "7"; "log"; "err"]%string = StartLifeCycle 7.
Proof.
  apply (decimal_id_is_accepted "player" "log" "err" 7 []).
  - lia.
  - constructor.
  - vm_compute. reflexivity.
  - vm_compute. reflexivity.
Defined.

Lemma text_after_the_number_is_refused_witness :
  main_validate ["player"; "7a"; "log"; "err"]%string =
    StartFailure "Player process identification is wrong!".
Proof.
  apply (text_after_the_number_is_refused "player" "log" "err" 7 [] "a" EmptyString).
  - lia.
  - constructor.
  - reflexivity.
Defined.

Lemma blank_argument_witness :
  main_validate ["player"; ""; "log"; "err"]%string = StartLifeCycle 0.
Proof.
  apply (blank_argument "player" "log" "err" EmptyString).
  - reflexivity.
  - vm_compute. reflexivity.
Defined.

Lemma leading_zero_is_octal_witness :
  main_validate ["player"; "010"; "log"; "err"]%string = StartLifeCycle 8 /\
  main_validate ["player"; "08"; "log"; "err"]%string =
    StartFailure "Player process identification is wrong!" /\
  main_validate ["player"; "0x9"; "log"; "err"]%string = StartLifeCycle 9.
Proof.
  split; [|split].
  - assert (Hds : Forall (fun x => 0 <= x <= 7) [1; 0]) by (repeat constructor; lia).
    destruct (leading_zero_is_octal "player" "log" "err" [1; 0] Hds) as [H _].
    apply H; vm_compute; reflexivity.
  - assert (Hds : Forall (fun x : Z => 0 <= x <= 7) []) by constructor.
    destruct (leading_zero_is_octal "player" "log" "err" [] Hds) as (_ & H & _).
    apply (H 8 EmptyString). lia.
  - assert (Hds : Forall (fun x : Z => 0 <= x <= 7) []) by constructor.
    destruct (leading_zero_is_octal "player" "log" "err" [] Hds) as (_ & _ & H).
    apply (H "x"%char 9 []); [by left|lia|constructor|vm_compute; reflexivity|
                              vm_compute; reflexivity].
Defined.

Lemma log_name_fits_witness :
  exists buf, nFic_after ["player"; "1"; "log"; "err"]%string = Some buf /\
              length buf = 51%nat /\ c_str buf = "log"%string.
Proof.
  destruct (log_name_fits ["player"; "1"; "log"; "err"]%string "log" eq_refl) as [_ H].
  destruct (nFic_after ["player"; "1"; "log"; "err"]%string) as [buf|] eqn:E;
    [|discriminate E].
  exists buf. split; [reflexivity|]. exact (H buf eq_refl).
Defined.



Section Conversion.
Context {PCst : ProbConst}.


End Conversion.


(** ** What arrive, waitReferee and playUntilEnd leave alone *)

Section Frame.
Context {PCst : ProbConst}.

(** X17.  The counters of the record and the channels of the team
    formation belong to playerConstituteTeam: no statement of arrive,
    waitReferee, playUntilEnd or main changes playersArrived, playersFree,
    goaliesFree or teamId, or signals or waits on playersWaitTeam,
    goaliesWaitTeam, playerRegistered or refereeWaitTeams, whether its
    system call succeeds or fails. *)
Theorem counters_belong_to_playerConstituteTeam (id : Z) (ok : bool) c m evs c' m' :
  pstep id ok c m = Next evs c' m' ->
  in_constitute (pc c) = false ->
  playersArrived (fSt m') = playersArrived (fSt m) /\
  playersFree (fSt m') = playersFree (fSt m) /\
  goaliesFree (fSt m') = goaliesFree (fSt m) /\
  teamId (fSt m') = teamId (fSt m) /\
  v_playersWaitTeam (semgid m') = v_playersWaitTeam (semgid m) /\
  v_goaliesWaitTeam (semgid m') = v_goaliesWaitTeam (semgid m) /\
  v_playerRegistered (semgid m') = v_playerRegistered (semgid m) /\
  v_refereeWaitTeams (semgid m') = v_refereeWaitTeams (semgid m).
Proof.
  intros Hstep Hout. step_inv Hstep; simpl in *; try discriminate Hout; done.
Qed.

End Frame.

Lemma counters_belong_to_playerConstituteTeam_witness :
  players first_store.2 !! 0%nat = Some (mkConfig L148 0 0 0 0) /\
  exists evs c' m',
    pstep 0 true (mkConfig L148 0 0 0 0) (mem first_store.2) = Next evs c' m' /\
    playersArrived (fSt m') = playersArrived (fSt (mem first_store.2)) /\
    teamId (fSt m') = teamId (fSt (mem first_store.2)).
Proof.
  split; [vm_compute; reflexivity|].
  exists [EvSave (fSt (mem first_store.2))], (mkConfig L150 0 0 0 0), (mem first_store.2).
  split; [reflexivity|].
  destruct (counters_belong_to_playerConstituteTeam 0 true
              (mkConfig L148 0 0 0 0) (mem first_store.2)
              [EvSave (fSt (mem first_store.2))] (mkConfig L150 0 0 0 0) (mem first_store.2)
              eq_refl eq_refl) as (Ha & _ & _ & Ht & _).
  split; [exact Ha|exact Ht].
Defined.

(** * Teams in a game of players and goalies *)

(** ** The leader's signal and the roles *)

Lemma clean_snoc tr evs : clean (tr ++ [evs]) -> clean tr /\ forall s, EvSemError s ∉ evs.
Proof.
  intros H. split.
  - intros e s He. apply H. apply elem_of_app. by left.
  - intros s. apply H. apply elem_of_app. right. apply list_elem_of_here.
Qed.

Lemma no_failure_clean (i : nat) tr : no_failure tr -> clean (of_player i tr).
Proof.
  intros H evs s Hin. unfold of_player in Hin.
  apply list_elem_of_omap in Hin as ([a e] & Hin & He).
  destruct a as [j|]; [|done]. destruct (decide (j = i)); [|done].
  inversion He; subst. by apply (H (Player i) evs s).
Qed.

(** A failed call leaves its mark. *)
Ltac failed :=
  match goal with
  | H : forall s, EvSemError s ∉ EvSemError ?x :: _ |- _ =>
      exfalso; apply (H x); apply list_elem_of_here
  end.

Section Signal.
Context {PCst : ProbConst}.

(** While no call fails, a leader that has claimed its id and has not
    signalled refereeWaitTeams yet stands between lines 213 and 231. *)
Lemma ptrace_signal (id : Z) tr c :
  ptrace id tr c -> clean tr -> claims tr <> [] -> referee_signals tr = 0%nat ->
  awaiting_signal (pc c) = true.
Proof.
  induction 1 as [|tr c ok m evs c' m' Htr IH Hstep]; [done|].
  intros Hclean. apply clean_snoc in Hclean as [Hclean Hevs]. specialize (IH Hclean).
  pose proof (ptrace_life id tr c Htr) as Hlife.
  pose proof (claimed_role tr c Hlife) as Hrole.
  destruct Hlife as (_ & Hcl & _).
  rewrite claims_snoc, referee_signals_snoc.
  destruct (claims tr) as [|v0 l] eqn:Hc.
  - intros Hne _. clear IH.
    step_inv Hstep; simpl in *; try done; try (exfalso; by apply Hne).
    all: branches; simpl in *; try done; try (exfalso; by apply Hne).
  - intros _ Hsig. simpl in Hrole.
    assert (H0 : referee_signals tr = 0%nat) by lia.
    specialize (IH ltac:(done) H0).
    assert (Hpt : at_switch (pc c) = true -> player_type c = 1).
    { apply Hrole. lia. }
    clear Hrole Hcl.
    step_inv Hstep; simpl in *; try discriminate IH; try failed; try reflexivity; try lia.
    rewrite (Hpt eq_refl). reflexivity.
Qed.

Lemma ptrace_role (id : Z) tr c : ptrace id tr c -> role_inv tr c.
Proof.
  induction 1 as [|tr c ok m evs c' m' Htr IH Hstep]; [done|].
  pose proof (ptrace_life id tr c Htr) as (_ & _ & _ & _ & _ & Hpt0 & Hpt & Hno).
  unfold role_inv in *.
  rewrite late_marks_snoc, claims_snoc, reads_snoc.
  assert (Hclean : clean (tr ++ [evs]) -> clean tr).
  { intros H. by apply clean_snoc in H as [? _]. }
  assert (Hne : forall (A : Type) (l : list A) (x : A), l ++ [x] <> []).
  { intros A l x H. by apply app_eq_nil in H as [_ ?]. }
  step_inv Hstep; simpl in *; rewrite ?Hpc in *; simpl in *; rewrite ?app_nil_r.
  all: try done.
  all: try (intros H; apply clean_snoc in H as [_ H]; failed).
  all: branches; simpl in *; rewrite ?app_nil_r; try done.
  all: repeat match goal with
       | |- _ /\ _ => split
       | |- _ -> _ => intro
       | H : _ /\ _ |- _ => destruct H
       end.
  all: try congruence; try lia; try (by apply Hne); try tauto.
  rewrite Hpt0 in H by auto. discriminate.
Qed.
End Signal.

(** ** The ledger of the formations *)

(** With no statement out of turn, the claims of the game are those of the
    leaders of the completed formations, in order, and the reads of the
    players called are the entries of the formations. *)
Lemma history_ledger tr :
  strays (history tr) = [] ->
  claimed tr = map (fun Fv => (f_leader Fv.1, Fv.2)) (formed (history tr)) /\
  joined tr = enrolled (history tr).
Proof.
  induction tr as [|[a evs] tr IH] using rev_ind; intros Hs; [done|].
  rewrite history_snoc in Hs |- *.
  pose proof (strays_observe _ _ Hs) as Hs'. destruct (IH Hs') as [IHc IHj].
  rewrite claimed_snoc, joined_snoc, IHc, IHj. clear IH IHc IHj.
  unfold observe, stray, enrolled in *. simpl in *.
  destruct a as [i|]; destruct (kind evs) eqn:K;
    destruct (forming (history tr)) as [F|] eqn:HF; simpl in *;
    rewrite ?app_nil_r;
    try (destruct (decide (i = f_leader F)) as [->|]; simpl in * );
    rewrite ?HF, ?app_nil_r;
    try (by apply app_eq_nil in Hs as [_ ?]); try done.
  all: split; rewrite ?map_app, ?concat_app; simpl; rewrite ?app_nil_r, <- ?app_assoc; done.
Qed.

Section Enrolment.
Context {PCst : ProbConst}.

(** Each completed formation enrolled NUMTEAMPLAYERS - 1 players. *)
Lemma enrolled_length (l : list (Formation * Z)) :
  Forall complete l ->
  Z.of_nat (length (concat (map (fun Fv => f_players Fv.1) l))) =
    Z.of_nat (length l) * (NUMTEAMPLAYERS - 1).
Proof.
  induction 1 as [|Fv l (_ & _ & Hn & _) _ IH]; simpl; [lia|].
  rewrite length_app. lia.
Qed.

Lemma enrolled_member (l : list (Formation * Z)) (i : nat) (w : Z) :
  (i, w) ∈ concat (map (fun Fv => f_players Fv.1) l) ->
  exists F v, (F, v) ∈ l /\ (i, w) ∈ f_players F.
Proof.
  induction l as [|[F v] l IH]; simpl; intros H; [in_list H|].
  apply elem_of_app in H as [H|H].
  - exists F, v. split; [apply list_elem_of_here|done].
  - destruct (IH H) as (F' & v' & HF & Hin). exists F', v'.
    split; [by apply list_elem_of_further|done].
Qed.

End Enrolment.

(** ** C1: the formation of a team *)

Lemma signalled_not_awaiting (l : PC) : signalled_pc l = true -> awaiting_signal l = false.
Proof. by destruct l. Qed.

Section TeamFormationLaw.
Context {PCst : ProbConst}.

(** What a completed formation has, and where it leaves its members. *)
Lemma formed_team (σ0 σ : Game) tr F v :
  initial goalies_hold σ0 -> Forall (fun g => g = gstart) (peers σ0) ->
  reach goalies_step σ0 tr σ -> no_failure tr ->
  (F, v) ∈ formed (history tr) ->
  Z.of_nat (length (f_players F)) = NUMTEAMPLAYERS - 1 /\
  length (f_goalies F) = 1%nat /\
  Z.of_nat (f_acks F) = NUMTEAMPLAYERS /\
  (forall j w, (j, w) ∈ f_players F ->
     w = v /\ v ∈ reads (of_player j tr) /\
     exists cj, players σ !! j = Some cj /\ ret cj = v) /\
  (forall w, w ∈ f_goalies F -> w = v) /\
  v ∈ claims (of_player (f_leader F) tr) /\
  exists c, players σ !! f_leader F = Some c /\ ret c = v /\
    signals_of (f_leader F) tr = (if awaiting_signal (pc c) then 0 else 1)%nat.
Proof.
  intros Hinit Hg Hr Hnf HF.
  destruct (reach_form σ0 σ tr Hinit Hg Hr Hnf) as (Hst & Htid & Hdone & _).
  destruct (history_sources tr) as [_ Hsrc].
  assert (Hstart : Forall (fun c => c = start) (players σ0)) by apply Hinit.
  assert (Hbehave : forall i l, of_player i tr = l -> l <> [] ->
            exists c, players σ !! i = Some c /\ ptrace (Z.of_nat i) l c).
  { intros i l <- Hl. destruct (reach_actor goalies_step σ0 σ tr i Hr Hl) as [c Hc].
    exists c. split; [done|].
    exact (reach_ptrace goalies_step σ0 σ tr i c Hstart Hr Hc). }
  rewrite Forall_forall in Hdone. destruct (Hdone _ HF) as (Hfp & Hfg & Hnp & Hng & Hack).
  simpl in *. destruct (Hsrc F v HF) as [Hclaim Hreads].
  split; [done|]. split; [done|]. split; [done|]. split; [|split; [|split; [done|]]].
  - intros j w Hjw. rewrite Forall_forall in Hfp. pose proof (Hfp _ Hjw) as Hw.
    simpl in Hw. subst w. split; [done|].
    specialize (Hreads j v Hjw). split; [done|].
    destruct (Hbehave j _ eq_refl) as (cj & Hcj & Hp).
    { intros Hnil. rewrite Hnil in Hreads. by apply elem_of_nil in Hreads. }
    exists cj. split; [done|]. apply ptrace_roles in Hp as (Hrd & _).
    by destruct (Hrd v Hreads) as [-> _].
  - intros w Hw. rewrite Forall_forall in Hfg. by apply Hfg.
  - destruct (Hbehave (f_leader F) _ eq_refl) as (c & Hc & Hp).
    { intros Hnil. rewrite Hnil in Hclaim. by apply elem_of_nil in Hclaim. }
    exists c. split; [done|].
    pose proof (ptrace_life _ _ _ Hp) as (_ & Hcl & _).
    destruct (Hcl v Hclaim) as [-> _]. split; [done|].
    pose proof (ptrace_roles _ _ _ Hp) as (_ & Hle & H1 & _).
    assert (Hne : claims (of_player (f_leader F) tr) <> []).
    { intros Hnil. rewrite Hnil in Hclaim. by apply elem_of_nil in Hclaim. }
    unfold signals_of.
    destruct (referee_signals (of_player (f_leader F) tr)) as [|[|n]] eqn:Hn; [| |lia].
    + by rewrite (ptrace_signal _ _ _ Hp (no_failure_clean _ _ Hnf) Hne Hn).
    + destruct (H1 eq_refl) as [_ Hsig]. by rewrite (signalled_not_awaiting _ Hsig).
Qed.


End TeamFormationLaw.


(** ** C7: nine players and two goalies, however they run *)

Lemma late_marks_stats tr i : i ∈ late_marks tr -> LATE ∈ stats tr.
Proof.
  induction tr as [|evs tr IH] using rev_ind; intros H; [in_list H|].
  rewrite late_marks_snoc in H. rewrite stats_snoc.
  apply elem_of_app in H as [H|H]; apply elem_of_app; [left; by apply IH|right].
  destruct evs as [|[] [|]]; try (in_list H; fail);
    destruct st; try (in_list H; fail); apply list_elem_of_here.
Qed.

Section Returned.
Context {PCst : ProbConst}.

(** Without a failed semaphore call a process ends in main only, after
    line 125, with all the statuses of its life stored. *)
Lemma clean_exit_status (id : Z) tr c code :
  ptrace id tr c -> clean tr -> pc c = Exited code ->
  stats tr = life_statuses (role_of (player_type c)) (ret c).
Proof.
  destruct 1 as [|tr c ok m evs c' m' Htr Hstep]; [done|].
  intros Hclean Hpc. apply clean_snoc in Hclean as [_ Hevs].
  pose proof (ptrace_status id tr c Htr) as Hst. unfold status_inv in Hst.
  rewrite stats_snoc.
  step_inv Hstep; simpl in *; try discriminate; try failed; branches; try discriminate.
  all: destruct Hst as [-> _]; by rewrite app_nil_r.
Qed.

(** A player that has left playerConstituteTeam, no call having failed,
    was marked LATE or took a place in a team. *)
Lemma returned_role (id : Z) tr c :
  ptrace id tr c -> clean tr -> returned_pc (pc c) = true ->
  late_marks tr <> [] \/ claims tr <> [] \/ reads tr <> [].
Proof.
  intros Hp Hclean Hret. pose proof (ptrace_role id tr c Hp) as Hrole.
  unfold role_inv in Hrole. destruct (pc c); simpl in Hret; try discriminate; auto.
Qed.

(** The status array shows a late player that has left
    playerConstituteTeam as LATE. *)
Lemma late_shown (id : Z) tr c :
  ptrace id tr c -> clean tr -> returned_pc (pc c) = true ->
  late_marks tr <> [] -> last (stats tr) = Some LATE.
Proof.
  intros Hp Hclean Hret Hlate.
  destruct (late_marks tr) as [|i l] eqn:Hl; [done|]. clear Hlate.
  assert (Hin : i ∈ late_marks tr) by (rewrite Hl; apply list_elem_of_here).
  pose proof (ptrace_life id tr c Hp) as (_ & _ & Hlm & Hmatch & _).
  destruct (Hlm i Hin) as [Hret0 _].
  apply late_marks_stats in Hin.
  pose proof (ptrace_status id tr c Hp) as Hst. unfold status_inv in Hst.
  assert (Hrole : forall pt, LATE ∈ [ARRIVING; role_of pt] ->
            last [ARRIVING; role_of pt] = Some LATE).
  { intros pt H. apply elem_of_cons in H as [H|H]; [done|].
    apply list_elem_of_singleton in H. by rewrite <- H. }
  destruct (pc c) eqn:Hpc; simpl in Hret; try discriminate;
    try (destruct Hst as (_ & _ & _ & ?); done).
  all: first [ pose proof (clean_exit_status id tr c _ Hp Hclean Hpc) as Hst';
               clear Hst; rename Hst' into Hst
             | destruct Hst as (Hst & _) ].
  all: rewrite Hst in *; unfold life_statuses in *; rewrite ?Hret0 in *; simpl in *.
  all: by apply Hrole.
Qed.

End Returned.

Section NinePlayers.
Context {PCst : ProbConst}.

(** C7 (amended).  Nine players and two goalies, the first team to be
    numbered [tid] (within the range of an int, with room for nine teams),
    for teams of at least 2 field players (NUMTEAMPLAYERS an int).
    In whatever order the processes run, a player whose arrival is among
    the first eight never marks itself LATE, and the one whose arrival is
    the ninth marks itself LATE, takes part in no team and leaves
    playerConstituteTeam with 0.  When the players make their arrival
    statements in the order of their numbers and no semaphore call fails,
    in whatever order the processes run otherwise: once the nine players
    have left playerConstituteTeam, players 0 to 7 have never been marked
    LATE, and each is the leader or a called player of a completed team
    whose number it returns; player 8 is shown as LATE, has taken no place
    in a team and returns 0; no formation is under way or out of turn; the
    completed teams have NUMTEAMPLAYERS field players each (the leader and
    the NUMTEAMPLAYERS-1 players it called, all among players 0 to 7) and
    one goalie, all with the team's number, the k-th team numbered
    [tid + k]; together they hold the eight players, and teamId ends above
    [tid] by the number of teams: 2 teams of 4 field players and [tid + 2]
    when NUMTEAMPLAYERS is 4. *)
Theorem nine_players_two_goalies (tid : Z) :
  INT_MIN <= tid -> tid + 9 <= INT_MAX ->
  2 <= NUMTEAMPLAYERS <= INT_MAX ->
  (forall tr (σ : Game) (k i : nat) (c : Config),
     reach goalies_step (kickoff 9 2 tid) tr σ ->
     arrivals tr !! k = Some i -> players σ !! i = Some c ->
     ((k < 8)%nat -> late_marks (of_player i tr) = []) /\
     ((8 <= k)%nat ->
        ret c = 0 /\ claims (of_player i tr) = [] /\ reads (of_player i tr) = [] /\
        (marked_pc (pc c) = true -> Z.of_nat i ∈ late_marks (of_player i tr)))) /\
  forall tr (σ : Game),
  reach goalies_step (kickoff 9 2 tid) tr σ ->
  no_failure tr ->
  arrivals tr = [0; 1; 2; 3; 4; 5; 6; 7; 8]%nat ->
  Forall (fun c => returned_pc (pc c) = true) (players σ) ->
  (forall i, (i < 8)%nat ->
     late_marks (of_player i tr) = [] /\
     (exists st, playerStat (fSt (mem σ)) !! i = Some st /\ st <> LATE) /\
     exists c F v, players σ !! i = Some c /\ (F, v) ∈ formed (history tr) /\
       (i = f_leader F \/ (i, v) ∈ f_players F) /\ ret c = v) /\
  (exists c, players σ !! 8%nat = Some c /\ ret c = 0 /\
     playerStat (fSt (mem σ)) !! 8%nat = Some LATE /\
     claims (of_player 8 tr) = [] /\ reads (of_player 8 tr) = []) /\
  forming (history tr) = None /\ strays (history tr) = [] /\
  (forall k F v, formed (history tr) !! k = Some (F, v) ->
     v = tid + Z.of_nat k /\
     Z.of_nat (S (length (f_players F))) = NUMTEAMPLAYERS /\
     length (f_goalies F) = 1%nat /\
     (f_leader F < 8)%nat /\
     (forall j w, (j, w) ∈ f_players F -> w = v /\ (j < 8)%nat) /\
     (forall w, w ∈ f_goalies F -> w = v)) /\
  Z.of_nat (length (formed (history tr))) * NUMTEAMPLAYERS = 8 /\
  (length (formed (history tr)) <= 4)%nat /\
  teamId (fSt (mem σ)) = tid + Z.of_nat (length (formed (history tr))) /\
  INT_MIN <= teamId (fSt (mem σ)) <= INT_MAX /\
  (NUMTEAMPLAYERS = 4 ->
     length (formed (history tr)) = 2%nat /\ teamId (fSt (mem σ)) = tid + 2).
Proof.
  intros Hlo Hhi HN. split.
  { intros tr σ k i c Hr Hk Hi.
    destruct (lateness_law _ σ tr k i c (kickoff_initial 9 2 tid) Hr Hk Hi) as [Hon Hlate].
    split; intros Hlt.
    - by destruct (Hon Hlt).
    - destruct (Hlate Hlt) as (_ & ? & ? & ? & ?). auto. }
  intros tr σ Hr Hnf Harr Hret.
  pose proof (kickoff_initial 9 2 tid) as Hinit.
  assert (Hg : Forall (fun g => g = gstart) (peers (kickoff 9 2 tid))).
  { apply Forall_replicate. reflexivity. }
  pose proof (kickoff_start 9 2 tid) as Hstart.
  destruct (reach_form _ σ tr Hinit Hg Hr Hnf) as (Hst & Htid & Hdone & Hform).
  simpl in Htid.
  destruct (history_ledger tr Hst) as [Hcl Hjo].
  destruct (reach_teams goalies_step goalies_keep_teamId _ σ tr Hstart Hr)
    as (Hlen & _ & Hkth & Hnd & Hlt).
  simpl in Hlen, Hkth, Hlt. rewrite ?length_replicate in Hlen, Hlt.
  destruct (reach_status goalies_step goalies_keep_status _ σ tr Hr) as (_ & _ & Hshown).
  simpl in Hshown.
  assert (Hplayer : forall i, (i < 9)%nat ->
            exists c, players σ !! i = Some c /\ returned_pc (pc c) = true /\
                      ptrace (Z.of_nat i) (of_player i tr) c /\ arrivals tr !! i = Some i).
  { intros i Hi. destruct (lookup_lt_is_Some_2 (players σ) i) as [c Hc]; [lia|].
    exists c. split; [done|].
    split; [exact (Forall_lookup_1 _ _ _ _ Hret Hc)|].
    split; [by apply (reach_ptrace goalies_step _ σ tr i c Hstart Hr)|].
    rewrite Harr. do 9 (destruct i as [|i]; [done|]). lia. }
  assert (Hnone : forming (history tr) = None).
  { destruct (forming (history tr)) as [F|]; [|done].
    destruct Hform as (c & Hc & _ & _ & Hph). apply phase_forming in Hph.
    pose proof (Forall_lookup_1 _ _ _ _ Hret Hc) as Hr'. simpl in Hr'.
    by destruct (pc c). }
  assert (Hon : forall i, (i < 8)%nat ->
            late_marks (of_player i tr) = [] /\ i ∈ teamed tr).
  { intros i Hi. destruct (Hplayer i) as (c & Hc & Hrc & Hp & Hk); [lia|].
    destruct (lateness_law _ σ tr i i c Hinit Hr Hk Hc) as [Hl _].
    destruct (Hl Hi) as [Hlm _]. split; [done|]. apply teamed_of_player.
    destruct (returned_role _ _ _ Hp (no_failure_clean i tr Hnf) Hrc) as [H|H];
      [congruence|done]. }
  destruct (Hplayer 8%nat) as (c8 & Hc8 & Hrc8 & Hp8 & Hk8); [lia|].
  destruct (lateness_law _ σ tr 8 8 c8 Hinit Hr Hk8 Hc8) as [_ Hl8].
  destruct Hl8 as (Hlpc & Hret8 & Hcl8 & Hrd8 & Hmark); [lia|].
  assert (H8 : 8%nat ∉ teamed tr).
  { rewrite teamed_of_player, Hcl8, Hrd8. tauto. }
  assert (Hlt8 : forall i, i ∈ teamed tr -> (i < 8)%nat).
  { intros i Hi. specialize (Hlt i Hi). assert (i <> 8%nat) by congruence. lia. }
  assert (Hcount : length (teamed tr) = 8%nat).
  { apply Nat.le_antisymm.
    - rewrite <- (length_seq 8 0). apply submseteq_length, NoDup_submseteq; [done|].
      intros i Hi. apply elem_of_seq. specialize (Hlt8 i Hi). lia.
    - rewrite <- (length_seq 8 0) at 1.
      apply submseteq_length, NoDup_submseteq; [apply NoDup_seq|].
      intros i Hi. apply elem_of_seq in Hi. apply Hon. lia. }
  assert (Hteams : Z.of_nat (length (formed (history tr))) * NUMTEAMPLAYERS = 8).
  { rewrite teamed_length, Hcl, Hjo, length_map in Hcount.
    unfold enrolled in Hcount. rewrite Hnone, app_nil_r in Hcount.
    pose proof (enrolled_length _ Hdone) as He. lia. }
  assert (Hteam : forall F v, (F, v) ∈ formed (history tr) ->
            Z.of_nat (S (length (f_players F))) = NUMTEAMPLAYERS /\
            length (f_goalies F) = 1%nat /\
            (f_leader F < 8)%nat /\
            (forall j w, (j, w) ∈ f_players F ->
               w = v /\ (j < 8)%nat /\ exists cj, players σ !! j = Some cj /\ ret cj = v) /\
            (forall w, w ∈ f_goalies F -> w = v) /\
            exists c, players σ !! f_leader F = Some c /\ ret c = v).
  { intros F v HF.
    destruct (formed_team _ σ tr F v Hinit Hg Hr Hnf HF)
      as (Hnp & Hng & _ & Hmem & Hgl & Hclaim & c & Hc & Hrc & _).
    split; [lia|]. split; [done|]. split; [|split; [|split; [done|by exists c]]].
    - apply Hlt8, teamed_of_player. left. intros Hnil. rewrite Hnil in Hclaim.
      by apply elem_of_nil in Hclaim.
    - intros j w Hjw. destruct (Hmem j w Hjw) as (-> & Hread & Hcj).
      split; [done|]. split; [|done].
      apply Hlt8, teamed_of_player. right. intros Hnil. rewrite Hnil in Hread.
      by apply elem_of_nil in Hread. }
  split; [|split; [|split; [done|split; [done|split; [|split; [done|split; [nia|split; [done|split]]]]]]]].
  - intros i Hi. destruct (Hon i Hi) as [Hlm Hin]. split; [done|]. split.
    + rewrite Hshown. unfold shown.
      destruct (last (stats (of_player i tr))) as [st|] eqn:Hlast.
      * exists st. split; [done|]. intros ->.
        apply last_Some_elem_of, late_in_stats in Hlast as [j Hj].
        rewrite Hlm in Hj. by apply elem_of_nil in Hj.
      * exists ARRIVING. split; [|done].
        apply (lookup_replicate_2 9 ARRIVING i). lia.
    + destruct (Hplayer i) as (c & Hc & _); [lia|]. exists c.
      apply teamed_of_player in Hin as [Hin|Hin].
      * destruct (claims (of_player i tr)) as [|v l] eqn:Hcs; [done|].
        destruct (history_claims tr i v Hst) as (F & HF & HL).
        { rewrite Hcs. apply list_elem_of_here. }
        exists F, v. split; [done|]. split; [done|]. split; [by left|].
        destruct (Hteam F v HF) as (_ & _ & _ & _ & _ & c' & Hc' & Hrc').
        rewrite HL in Hc'. congruence.
      * destruct (reads (of_player i tr)) as [|w l] eqn:Hrs; [done|].
        assert (Hj : (i, w) ∈ joined tr).
        { apply joined_of_player. rewrite Hrs. apply list_elem_of_here. }
        rewrite Hjo in Hj. unfold enrolled in Hj. rewrite Hnone, app_nil_r in Hj.
        apply enrolled_member in Hj as (F & v & HF & Hiw).
        destruct (Hteam F v HF) as (_ & _ & _ & Hmem & _).
        destruct (Hmem i w Hiw) as (-> & _ & ci & Hci & Hrci).
        exists F, v. split; [done|]. split; [done|]. split; [by right|]. congruence.
  - exists c8. split; [done|]. split; [done|]. split; [|done].
    rewrite Hshown. unfold shown.
    rewrite (late_shown _ _ _ Hp8 (no_failure_clean 8 tr Hnf) Hrc8); [done|].
    assert (Hm : marked_pc (pc c8) = true).
    { destruct (pc c8); simpl in *; done. }
    specialize (Hmark Hm). intros Hnil. rewrite Hnil in Hmark. by apply elem_of_nil in Hmark.
  - intros k F v Hk.
    assert (HF : (F, v) ∈ formed (history tr)) by (by eapply list_elem_of_lookup_2).
    destruct (Hteam F v HF) as (Hn & Hng & Hl & Hmem & Hgl & _).
    split.
    { apply (Hkth k (f_leader F, v)). rewrite Hcl, list_lookup_fmap, Hk. reflexivity. }
    split; [done|]. split; [done|]. split; [done|]. split; [|done].
    intros j w Hjw. destruct (Hmem j w Hjw) as (? & ? & _). done.
  - assert (Hn : (length (formed (history tr)) <= 8)%nat).
    { rewrite teamed_length, Hcl, length_map in Hcount. lia. }
    lia.
  - intros H4. rewrite H4 in Hteams. split; lia.
Qed.

End NinePlayers.

Lemma nine_players_two_goalies_witness :
  reach goalies_step (kickoff 9 2 1) (nine_run 1).1 (nine_run 1).2 /\
  arrivals (nine_run 1).1 = [0; 1; 2; 3; 4; 5; 6; 7; 8]%nat /\
  playerStat (fSt (mem (nine_run 1).2)) !! 8%nat = Some LATE /\
  length (formed (history (nine_run 1).1)) = 2%nat /\
  teamId (fSt (mem (nine_run 1).2)) = 3.
Proof.
  assert (Hlo : INT_MIN <= 1) by (by vm_compute).
  assert (Hhi : 1 + 9 <= INT_MAX) by (by vm_compute).
  assert (Harr : arrivals (nine_run 1).1 = [0; 1; 2; 3; 4; 5; 6; 7; 8]%nat)
    by (vm_compute; reflexivity).
  assert (Hret : Forall (fun c => returned_pc (pc c) = true) (players (nine_run 1).2)).
  { vm_compute. repeat constructor. }
  assert (HN : 2 <= NUMTEAMPLAYERS <= INT_MAX) by (split; by vm_compute).
  destruct (nine_players_two_goalies 1 Hlo Hhi HN) as [_ Hgame].
  destruct (Hgame (nine_run 1).1 (nine_run 1).2
              (nine_run_reach 1) (nine_run_no_failure 1) Harr Hret)
    as (_ & (c & _ & _ & Hlate & _) & _ & _ & _ & _ & _ & _ & _ & Hfour).
  destruct (Hfour eq_refl) as [Hn Hid].
  split; [apply nine_run_reach|]. split; [exact Harr|].
  split; [exact Hlate|]. split; [exact Hn|exact Hid].
Defined.
